(** * FileGO: node registry, placement selector, chunk store and peer read loop

    A shallow embedding of the Go sources
      - the node manager of package [node] (the registry operations and
        [GetOptimalStorageNodes]),
      - [fs/chunks.go] ([NewFileChunker], [ChunkFile], [ReassembleFile]),
      - [node/p2p.go] ([DisconnectPeer], [handleConnection]),
    together with the properties the specification states about them.

    Conventions.  Go maps are [gmap]s; a [*T] stored in a map is modelled by
    the value it points to, the map being the only owner.  [int64] and [int]
    are [Z], with wrap-around written out where the code does arithmetic.
    [time.Now()] is an explicit clock argument.  An [error] built with
    [errors.New] is its message, one built with [fmt.Errorf] is its format
    string.  A Go run-time panic is a separate outcome.  The order in which
    [range] visits a map is not defined by Go: it is a parameter of the
    development.  Functions of the Go library the code calls ([url.Parse],
    [sha256], [filepath.Join], [json.Unmarshal]) are parameters as well. *)

From Stdlib Require Import ZArith Lia Bool Ascii Init.Byte Strings.Byte.
From stdpp Require Import gmap strings list fin_maps sorting.

#[local] Open Scope string_scope.
#[local] Open Scope list_scope.
#[local] Open Scope Z_scope.

(** ** Outcomes of a call *)

Inductive result (A : Type) : Type :=
| Ok (a : A)
| Err (msg : string)
| Panic (msg : string).
Arguments Ok {A} a.
Arguments Err {A} msg.
Arguments Panic {A} msg.

(** The error kinds of the specification, and the kind each message of the
    code stands for. *)
Inductive ErrorKind : Type :=
| NotFound | Conflict | InvalidInput | IOFailure.

(** ** Machine integers *)

Definition wrap64 (z : Z) : Z :=
  (z + 2 ^ 63) mod 2 ^ 64 - 2 ^ 63.

Definition int64_range (z : Z) : Prop := - 2 ^ 63 <= z < 2 ^ 63.

#[global] Instance int64_range_dec z : Decision (int64_range z).
Proof. unfold int64_range. apply _. Defined.

(** ** Map iteration

    [for k, v := range m] visits every entry of [m] exactly once, in an
    order Go leaves open.  [range_order] is any function that lists the
    entries of a map; [RangeOrder] says it lists each entry once. *)

Definition RangeOrder (order : forall A, gmap string A -> list (string * A)) : Prop :=
  forall A (m : gmap string A), order A m ≡ₚ map_to_list m.

(** * Node registry *)

Module Registry.

Record Node : Type := mkNode {
  ID : string;
  Address : string;
  Status : string;
  StorageUsed : Z;
  StorageMax : Z;
  LastSeen : Z
}.

Record NodeManager : Type := mkNodeManager {
  nodes : gmap string Node;
  nodeAddrs : gmap string string
}.

Definition NewNodeManager : NodeManager :=
  {| nodes := ∅; nodeAddrs := ∅ |}.

Definition err_invalid_address := "invalid node address".
Definition err_address_taken := "address already registered to another node".
Definition err_node_not_found := "node not found".
Definition err_invalid_status := "invalid node status".
Definition err_storage_negative := "storage used cannot be negative".
Definition err_storage_exceeds := "storage used exceeds maximum storage".

Definition error_kind (msg : string) : option ErrorKind :=
  if decide (msg = err_invalid_address) then Some InvalidInput
  else if decide (msg = err_address_taken) then Some Conflict
  else if decide (msg = err_node_not_found) then Some NotFound
  else if decide (msg = err_invalid_status) then Some InvalidInput
  else if decide (msg = err_storage_negative) then Some InvalidInput
  else if decide (msg = err_storage_exceeds) then Some InvalidInput
  else None.

Section Operations.

(** [url.Parse] of the Go library, as the test the code makes of it:
    [url_Parse a = true] when [url.Parse(a)] returns no error. *)
Variable url_Parse : string -> bool.

(** An address is well-formed when [url.Parse] accepts it. *)
Definition well_formed (address : string) : Prop := url_Parse address = true.

Definition RegisterNode (now : Z) (id address : string) (storageMax : Z)
    (nm : NodeManager) : result Node * NodeManager :=
  if negb (url_Parse address) then (Err err_invalid_address, nm)
  else if
    match nodeAddrs nm !! address with
    | Some existingID => negb (String.eqb existingID id)
    | None => false
    end
  then (Err err_address_taken, nm)
  else
    let node :=
      match nodes nm !! id with
      | None => mkNode id address "active" 0 storageMax now
      | Some n => mkNode (ID n) address "active" (StorageUsed n) storageMax now
      end in
    (Ok node,
     {| nodes := <[id := node]> (nodes nm);
        nodeAddrs := <[address := id]> (nodeAddrs nm) |}).

Definition GetNode (id : string) (nm : NodeManager) : result Node :=
  match nodes nm !! id with
  | None => Err err_node_not_found
  | Some n => Ok n
  end.

Definition UpdateNodeStatus (now : Z) (id status : string) (nm : NodeManager)
    : result unit * NodeManager :=
  match nodes nm !! id with
  | None => (Err err_node_not_found, nm)
  | Some n =>
      if negb (String.eqb status "active") && negb (String.eqb status "inactive")
         && negb (String.eqb status "failed")
      then (Err err_invalid_status, nm)
      else
        (Ok tt,
         {| nodes := <[id := mkNode (ID n) (Address n) status (StorageUsed n)
                                    (StorageMax n) now]> (nodes nm);
            nodeAddrs := nodeAddrs nm |})
  end.

Definition UpdateNodeStorage (now : Z) (id : string) (storageUsed : Z)
    (nm : NodeManager) : result unit * NodeManager :=
  match nodes nm !! id with
  | None => (Err err_node_not_found, nm)
  | Some n =>
      if storageUsed <? 0 then (Err err_storage_negative, nm)
      else if storageUsed >? StorageMax n then (Err err_storage_exceeds, nm)
      else
        (Ok tt,
         {| nodes := <[id := mkNode (ID n) (Address n) (Status n) storageUsed
                                    (StorageMax n) now]> (nodes nm);
            nodeAddrs := nodeAddrs nm |})
  end.

Definition RemoveNode (id : string) (nm : NodeManager) : result unit * NodeManager :=
  match nodes nm !! id with
  | None => (Err err_node_not_found, nm)
  | Some n =>
      (Ok tt,
       {| nodes := delete id (nodes nm);
          nodeAddrs := delete (Address n) (nodeAddrs nm) |})
  end.

Definition HeartbeatNode (now : Z) (id : string) (nm : NodeManager)
    : result unit * NodeManager :=
  match nodes nm !! id with
  | None => (Err err_node_not_found, nm)
  | Some n =>
      (Ok tt,
       {| nodes := <[id := mkNode (ID n) (Address n) (Status n) (StorageUsed n)
                                  (StorageMax n) now]> (nodes nm);
          nodeAddrs := nodeAddrs nm |})
  end.

End Operations.

(** A stand-in for [url.Parse] in the worked examples: it refuses the
    addresses that start with a colon, for which [url.Parse] reports a
    missing protocol scheme, and accepts every other one. *)
Definition sample_url_Parse (address : string) : bool :=
  match address with
  | String ":"%char _ => false
  | _ => true
  end.

(** ** Placement selector *)

(** [node.StorageMax - node.StorageUsed] on [int64]. *)
Definition avail (n : Node) : Z := wrap64 (StorageMax n - StorageUsed n).

Definition eligible (fileSize : Z) (n : Node) : bool :=
  String.eqb (Status n) "active" && (avail n >=? fileSize).

(** The body of the inner loop of the sort:
    [if jAvail > iAvail { e[i], e[j] = e[j], e[i] }].  The loop bounds keep
    [i] and [j] below [len(e)], so both reads succeed. *)
Definition swap_if_greater (i : nat) (e : list Node) (j : nat) : list Node :=
  match e !! i, e !! j with
  | Some ni, Some nj =>
      if avail nj >? avail ni then <[i := nj]> (<[j := ni]> e) else e
  | _, _ => e
  end.

(** [for j := i + 1; j < len(e); j++] *)
Definition sort_inner (e : list Node) (i : nat) : list Node :=
  foldl (swap_if_greater i) e (seq (S i) (length e - S i)).

(** [for i := 0; i < len(e)-1; i++] *)
Definition sort_by_avail (e : list Node) : list Node :=
  foldl sort_inner e (seq 0 (length e - 1)).

(** One run of the inner loop, read on the list: [h] is the entry at [i]
    and [t] the entries after it; the result is the entry the run leaves at
    [i] and the entries it leaves after it. *)
Fixpoint pass (h : Node) (t : list Node) : Node * list Node :=
  match t with
  | [] => (h, [])
  | x :: t =>
      if avail x >? avail h
      then let '(h', t') := pass x t in (h', h :: t')
      else let '(h', t') := pass h t in (h', x :: t')
  end.

(** Descending order of available space, as the code computes it. *)
Definition by_avail_desc (a b : Node) : Prop := avail a >= avail b.

Definition min (a b : Z) : Z := if a <? b then a else b.

Section Select.

Variable range_order : forall A, gmap string A -> list (string * A).

Definition GetOptimalStorageNodes (fileSize replicaCount : Z) (nm : NodeManager)
    : result (list string) :=
  let eligibleNodes :=
    List.filter (eligible fileSize) (snd <$> range_order Node (nodes nm)) in
  let eligibleNodes := sort_by_avail eligibleNodes in
  let resultCount := min replicaCount (Z.of_nat (length eligibleNodes)) in
  if resultCount <? 0 then Panic "makeslice: len out of range"
  else Ok (ID <$> take (Z.to_nat resultCount) eligibleNodes).

End Select.

(** The capacity invariant of the data model. *)
Definition node_inv (n : Node) : Prop := 0 <= StorageUsed n <= StorageMax n.

Definition registry_inv (nm : NodeManager) : Prop :=
  forall id n, nodes nm !! id = Some n -> node_inv n.

(** Free space as the specification writes it, on unbounded integers. *)
Definition free (n : Node) : Z := StorageMax n - StorageUsed n.

Definition no_overflow (nm : NodeManager) : Prop :=
  forall id n, nodes nm !! id = Some n -> int64_range (free n).

(** Eligibility as the specification writes it. *)
Definition Eligible (fileSize : Z) (n : Node) : Prop :=
  Status n = "active" /\ fileSize <= free n.

#[global] Instance Eligible_dec fileSize n : Decision (Eligible fileSize n).
Proof. unfold Eligible. apply _. Defined.

(** Descending order of free space. *)
Definition by_free_desc (a b : Node) : Prop := free a >= free b.

(** The four nodes of the specification's placement example. *)
Definition example_nodes : list Node :=
  [ mkNode "n1" "10.0.0.1:9000" "active" 1000 6000 0;
    mkNode "n2" "10.0.0.2:9000" "active" 4000 4000 0;
    mkNode "n3" "10.0.0.3:9000" "failed" 0 2000 0;
    mkNode "n4" "10.0.0.4:9000" "active" 500 3500 0 ].

Definition example_registry : NodeManager :=
  {| nodes := list_to_map ((fun n => (ID n, n)) <$> example_nodes);
     nodeAddrs := list_to_map ((fun n => (Address n, ID n)) <$> example_nodes) |}.

End Registry.

(** * Chunk store *)

Module ChunkStore.

Definition DefaultChunkSize : Z := 1024 * 64.
Definition MaxChunkSize : Z := 1024 * 1024.

Record ChunkInfo : Type := mkChunkInfo {
  ID : string;
  Index : Z;
  Size : Z;
  FileID : string;
  Location : string
}.

Record FileChunker : Type := mkFileChunker {
  chunkSize : Z;
  chunksDir : string;
  chunksMeta : gmap string ChunkInfo
}.

(** The disk: the bytes held under each path.  Directories are implicit in
    the paths ([os.MkdirAll] has nothing to do), creating and writing a file
    always succeed, and opening or reading a path that holds no file fails. *)
Abbreviation disk := (gmap string (list byte)).

Definition err_open := "failed to open file: %w".
Definition err_read := "failed to read file: %w".
Definition err_invalid_index := "invalid chunk index: %d".
Definition err_read_chunk := "failed to read chunk %s: %w".

Definition error_kind (msg : string) : option ErrorKind :=
  if decide (msg = err_invalid_index) then Some InvalidInput
  else if decide (msg = err_open) then Some IOFailure
  else if decide (msg = err_read) then Some IOFailure
  else if decide (msg = err_read_chunk) then Some IOFailure
  else None.

Definition NewFileChunker (chunksDir : string) (chunkSize : Z) : FileChunker :=
  let chunkSize := if chunkSize <=? 0 then DefaultChunkSize else chunkSize in
  let chunkSize := if chunkSize >? MaxChunkSize then MaxChunkSize else chunkSize in
  {| chunkSize := chunkSize; chunksDir := chunksDir; chunksMeta := ∅ |}.

(** What one [file.Read(buffer)] returns on a regular file. *)
Inductive read_result : Type :=
| ReadBytes (chunk : list byte)
| ReadEOF
| ReadError.

(** [file.Read(buffer)] with [len(buffer) = n], the file being open on
    [path] at [offset]: nothing and no error for an empty buffer,
    [io.EOF] at the end of the file, and otherwise the next [n] bytes or
    those that are left. *)
Definition file_Read (st : disk) (path : string) (offset n : nat) : read_result :=
  match st !! path with
  | None => ReadError
  | Some content =>
      if decide (n = 0%nat) then ReadBytes []
      else if decide (length content <= offset)%nat then ReadEOF
      else ReadBytes (take n (drop offset content))
  end.

(** [output.Write(data)] on a file open for writing: the bytes go to the end
    of what was written so far. *)
Definition file_Write (st : disk) (path : string) (data : list byte) : disk :=
  <[path := (default [] (st !! path) ++ data)%list]> st.

Section Store.

(** [hex.EncodeToString(sha256.Sum256(b))] of the Go library. *)
Variable sha256_hex : list byte -> string.

(** [filepath.Join] of the Go library, on two components. *)
Variable filepath_Join : string -> string -> string.

(** The loop of [ChunkFile].  [None]: the loop is still running when the
    fuel is spent. *)
Fixpoint chunk_loop (fuel : nat) (filePath fileID fileChunksDir : string)
    (offset : nat) (index : Z) (chunks : list ChunkInfo)
    (fc : FileChunker) (st : disk)
    : option (result (list ChunkInfo) * FileChunker * disk) :=
  match fuel with
  | O => None
  | S fuel =>
      match file_Read st filePath offset (Z.to_nat (chunkSize fc)) with
      | ReadEOF => Some (Ok chunks, fc, st)
      | ReadError => Some (Err err_read, fc, st)
      | ReadBytes chunk =>
          let chunkID := sha256_hex chunk in
          let chunkInfo :=
            mkChunkInfo chunkID index (Z.of_nat (length chunk)) fileID "" in
          let st := <[filepath_Join fileChunksDir chunkID := chunk]> st in
          let fc :=
            mkFileChunker (chunkSize fc) (chunksDir fc)
                          (<[chunkID := chunkInfo]> (chunksMeta fc)) in
          chunk_loop fuel filePath fileID fileChunksDir
                     (offset + length chunk) (index + 1)
                     (chunks ++ [chunkInfo])%list fc st
      end
  end.

Definition ChunkFile (fuel : nat) (filePath : string) (fc : FileChunker) (st : disk)
    : option (result (string * list ChunkInfo) * FileChunker * disk) :=
  match st !! filePath with
  | None => Some (Err err_open, fc, st)
  | Some content =>
      let fileID := sha256_hex content in
      let fileChunksDir := filepath_Join (chunksDir fc) fileID in
      if chunkSize fc <? 0 then Some (Panic "makeslice: len out of range", fc, st)
      else
        match chunk_loop fuel filePath fileID fileChunksDir 0 0 [] fc st with
        | None => None
        | Some (Ok chunks, fc, st) => Some (Ok (fileID, chunks), fc, st)
        | Some (Err msg, fc, st) => Some (Err msg, fc, st)
        | Some (Panic msg, fc, st) => Some (Panic msg, fc, st)
        end
  end.

(** The first loop of [ReassembleFile]: [sortedChunks[chunk.Index] = chunk],
    an entry of [sortedChunks] that was never assigned being [nil]. *)
Fixpoint place_chunks (n : Z) (chunks : list ChunkInfo)
    (sortedChunks : list (option ChunkInfo)) : result (list (option ChunkInfo)) :=
  match chunks with
  | [] => Ok sortedChunks
  | chunk :: chunks =>
      if (Index chunk <? 0) || (Index chunk >=? n) then Err err_invalid_index
      else place_chunks n chunks (<[Z.to_nat (Index chunk) := Some chunk]> sortedChunks)
  end.

(** The second loop of [ReassembleFile]: read each chunk from the disk and
    write it to the output.  [chunk.ID] on a [nil] entry is a run-time
    panic. *)
Fixpoint write_chunks (fileChunksDir outputPath : string)
    (sortedChunks : list (option ChunkInfo)) (st : disk) : result unit * disk :=
  match sortedChunks with
  | [] => (Ok tt, st)
  | None :: _ => (Panic "invalid memory address or nil pointer dereference", st)
  | Some chunk :: sortedChunks =>
      match st !! filepath_Join fileChunksDir (ID chunk) with
      | None => (Err err_read_chunk, st)
      | Some chunkData =>
          write_chunks fileChunksDir outputPath sortedChunks
                       (file_Write st outputPath chunkData)
      end
  end.

Definition ReassembleFile (fileID : string) (chunks : list ChunkInfo)
    (outputPath : string) (fc : FileChunker) (st : disk) : result unit * disk :=
  let st := <[outputPath := []]> st in
  match place_chunks (Z.of_nat (length chunks)) chunks
                     (replicate (length chunks) None) with
  | Err msg => (Err msg, st)
  | Panic msg => (Panic msg, st)
  | Ok sortedChunks =>
      write_chunks (filepath_Join (chunksDir fc) fileID) outputPath sortedChunks st
  end.

(** What [ChunkFile] leaves behind for the pieces [ps] of a file, the
    first of them having index [index]: the chunk list, the disk, the
    metadata. *)
Fixpoint chunk_infos (fileID : string) (index : Z) (ps : list (list byte))
    : list ChunkInfo :=
  match ps with
  | [] => []
  | p :: ps =>
      mkChunkInfo (sha256_hex p) index (Z.of_nat (length p)) fileID ""
      :: chunk_infos fileID (index + 1) ps
  end.

Definition store_pieces (fileChunksDir : string) (ps : list (list byte))
    (st : disk) : disk :=
  foldl (fun st p => <[filepath_Join fileChunksDir (sha256_hex p) := p]> st) st ps.

Definition store_meta (infos : list ChunkInfo) (fc : FileChunker) : FileChunker :=
  foldl (fun fc info =>
           mkFileChunker (chunkSize fc) (chunksDir fc)
                         (<[ID info := info]> (chunksMeta fc)))
        fc infos.

End Store.

(** Stand-ins for the two library functions in the worked examples: a hash
    that spells the bytes out, and a join that puts a slash between the
    components. *)
Definition sample_hash (b : list byte) : string := String.string_of_list_byte b.

Definition sample_Join (dir name : string) : string :=
  String.append dir (String.append "/" name).

(** The pieces of [n] bytes a byte stream falls into, the last one being
    the shorter one when [n] does not divide the length. *)
Fixpoint pieces (fuel n : nat) (data : list byte) : list (list byte) :=
  match fuel with
  | O => []
  | S fuel =>
      match data with
      | [] => []
      | _ => take n data :: pieces fuel n (drop n data)
      end
  end.

Definition split_bytes (n : nat) (data : list byte) : list (list byte) :=
  pieces (length data) n data.

(** The indices of [chunks] are a dense [0..N-1] permutation. *)
Definition dense_indices (chunks : list ChunkInfo) : Prop :=
  Index <$> chunks ≡ₚ Z.of_nat <$> seq 0 (length chunks).

End ChunkStore.

(** * Overlay: peers and the peer read loop *)

Module Overlay.

(** A [net.Conn] is the handle of a socket; [None] is the [nil] interface. *)
Record Peer : Type := mkPeer {
  ID : string;
  Address : string;
  Conn : option nat;
  LastActive : Z;
  IsActive : bool
}.

Record Message : Type := mkMessage {
  Type_ : Z;
  Payload : list byte
}.

(** The state of one socket: the bytes the remote end sends before it closes
    its side, and whether this side has closed it. *)
Record Socket : Type := mkSocket {
  inbound : list byte;
  closed : bool
}.

Definition Close (s : Socket) : Socket := mkSocket (inbound s) true.

(** ** The peer map *)

Record P2PNetwork : Type := mkP2PNetwork {
  peers : gmap string Peer;
  sockets : gmap nat Socket
}.

Definition err_peer_not_found := "peer %s not found".

Definition error_kind (msg : string) : option ErrorKind :=
  if decide (msg = err_peer_not_found) then Some NotFound else None.

Section Disconnect.

Variable range_order : forall A, gmap string A -> list (string * A).

Definition DisconnectPeer (peerID : string) (p : P2PNetwork)
    : result unit * P2PNetwork :=
  let peerToRemove :=
    List.find (fun peer => String.eqb (ID peer) peerID)
              (snd <$> range_order Peer (peers p)) in
  match peerToRemove with
  | Some peerToRemove =>
      (Ok tt,
       {| peers := delete (Address peerToRemove) (peers p);
          sockets :=
            match Conn peerToRemove with
            | Some c => alter Close c (sockets p)
            | None => sockets p
            end |})
  | None => (Err err_peer_not_found, p)
  end.

End Disconnect.

(** ** The read loop *)

(** [io.ReadFull(conn, buf)] with [len(buf) = n]: the next [n] bytes, or an
    error when the socket is closed or the stream ends first. *)
Definition ReadFull (n : nat) (s : Socket) : option (list byte) * Socket :=
  if closed s then (None, s)
  else if decide (n <= length (inbound s))%nat
       then (Some (take n (inbound s)), mkSocket (drop n (inbound s)) false)
       else (None, mkSocket [] false).

Definition byte_val (b : byte) : Z := Z.of_N (Byte.to_N b).

(** [binary.BigEndian.Uint32] *)
Definition Uint32 (b : list byte) : Z :=
  match b with
  | [b0; b1; b2; b3] =>
      Z.lor (Z.lor (Z.lor (Z.shiftl (byte_val b0) 24) (Z.shiftl (byte_val b1) 16))
                   (Z.shiftl (byte_val b2) 8)) (byte_val b3)
  | _ => 0
  end.

(** A frame on the wire: four bytes that give, big-endian, the length of
    the envelope that follows them. *)
Definition framed (lenBuf envelope : list byte) : Prop :=
  length lenBuf = 4%nat /\ Uint32 lenBuf = Z.of_nat (length envelope).

(** The lines the loop prints. *)
Inductive log_line : Type :=
| LogReadLengthError
| LogReadMessageError
| LogDecodeError
| LogHandlerError (msgType : Z) (err : string)
| LogNoHandler (msgType : Z).

Inductive control : Type := Continue | Return.

Section ReadLoop.

(** Whatever the handlers act on besides the peer. *)
Variable World : Type.

(** A [MessageHandler], with the peer and the world it may change and the
    error it may return. *)
Definition MessageHandler : Type :=
  Peer -> Message -> World -> Peer * World * option string.

(** [json.Unmarshal] into a [Message]: [None] when it returns an error. *)
Variable DecodeMessage : list byte -> option Message.

(** The dispatch table [p.handlers]. *)
Variable handlers : Z -> option MessageHandler.

(** [time.Now()] at the [k]-th iteration of the loop. *)
Variable clock : nat -> Z.

Record conn_state : Type := mkConnState {
  peer : Peer;
  sock : Socket;
  world : World;
  log : list log_line;
  iteration : nat
}.

(** One iteration of the [for] loop of [handleConnection]. *)
Definition read_iteration (st : conn_state) : control * conn_state :=
  let k := iteration st in
  match ReadFull 4 (sock st) with
  | (None, s) =>
      let eof := negb (closed (sock st)) && bool_decide (inbound (sock st) = []) in
      let log' := if eof then log st else (log st ++ [LogReadLengthError])%list in
      (Return, mkConnState (peer st) s (world st) log' (S k))
  | (Some lenBuf, s) =>
      let msgLen := Uint32 lenBuf in
      match ReadFull (Z.to_nat msgLen) s with
      | (None, s) =>
          (Return,
           mkConnState (peer st) s (world st)
                       (log st ++ [LogReadMessageError])%list (S k))
      | (Some msgBuf, s) =>
          match DecodeMessage msgBuf with
          | None =>
              (Continue,
               mkConnState (peer st) s (world st)
                           (log st ++ [LogDecodeError])%list (S k))
          | Some msg =>
              let pr := peer st in
              let pr :=
                mkPeer (ID pr) (Address pr) (Conn pr) (clock k) (IsActive pr) in
              match handlers (Type_ msg) with
              | Some handler =>
                  let '(pr, w, err) := handler pr msg (world st) in
                  let log' :=
                    match err with
                    | Some e => (log st ++ [LogHandlerError (Type_ msg) e])%list
                    | None => log st
                    end in
                  (Continue, mkConnState pr s w log' (S k))
              | None =>
                  (Continue,
                   mkConnState pr s (world st)
                               (log st ++ [LogNoHandler (Type_ msg)])%list (S k))
              end
          end
      end
  end.

(** The deferred function: close the connection, mark the peer inactive. *)
Definition on_return (st : conn_state) : conn_state :=
  let pr := peer st in
  mkConnState (mkPeer (ID pr) (Address pr) (Conn pr) (LastActive pr) false)
              (match Conn pr with Some _ => Close (sock st) | None => sock st end)
              (world st) (log st) (iteration st).

(** [handleConnection]: iterate until the loop returns, then run the
    deferred function.  [None]: still looping when the fuel is spent. *)
Fixpoint handleConnection (fuel : nat) (st : conn_state) : option conn_state :=
  match fuel with
  | O => None
  | S fuel =>
      match read_iteration st with
      | (Return, st) => Some (on_return st)
      | (Continue, st) => handleConnection fuel st
      end
  end.

(** The connection is open and the peer is live. *)
Definition live (st : conn_state) : Prop :=
  closed (sock st) = false /\ IsActive (peer st) = true.

End ReadLoop.

Arguments mkConnState {World}.
Arguments peer {World}.
Arguments sock {World}.
Arguments world {World}.
Arguments log {World}.
Arguments iteration {World}.
Arguments read_iteration {World}.
Arguments on_return {World}.
Arguments handleConnection {World}.
Arguments live {World}.

(** Stand-ins for the worked examples: an envelope of one byte decodes to a
    message of that type with no payload, anything else does not decode;
    the world is the list of the messages handled so far, and type 0 is the
    only type with a handler. *)
Definition sample_Decode (data : list byte) : option Message :=
  match data with
  | [t] => Some (mkMessage (byte_val t) [])
  | _ => None
  end.

Definition sample_handlers (msgType : Z) : option (MessageHandler (list Message)) :=
  if msgType =? 0 then Some (fun pr msg w => (pr, msg :: w, None)) else None.

Definition sample_peer : Peer := mkPeer "" "10.0.0.2:9000" (Some 1%nat) 0 true.

Definition sample_network : P2PNetwork :=
  {| peers := {[ "10.0.0.2:9000" := sample_peer ]};
     sockets := {[ 1%nat := mkSocket [] false ]} |}.

End Overlay.

(** * The rest of the node manager, and its callers *)

Module RegistryMore.
Import Registry.

Section Listing.

Variable range_order : forall A, gmap string A -> list (string * A).

(** [ListNodes]: a copy of every node, in the order [range] visits the map. *)
Definition ListNodes (nm : NodeManager) : list Node :=
  snd <$> range_order Node (nodes nm).

End Listing.

(** One call of an operation that changes the registry. *)
Inductive call : Type :=
| CallRegisterNode (now : Z) (id address : string) (storageMax : Z)
| CallUpdateNodeStatus (now : Z) (id status : string)
| CallUpdateNodeStorage (now : Z) (id : string) (storageUsed : Z)
| CallRemoveNode (id : string)
| CallHeartbeatNode (now : Z) (id : string).

Section Calls.

Variable url_Parse : string -> bool.

(** The registry a call leaves, whether it succeeds or fails. *)
Definition after_call (nm : NodeManager) (c : call) : NodeManager :=
  match c with
  | CallRegisterNode now id address storageMax =>
      (RegisterNode url_Parse now id address storageMax nm).2
  | CallUpdateNodeStatus now id status => (UpdateNodeStatus now id status nm).2
  | CallUpdateNodeStorage now id storageUsed =>
      (UpdateNodeStorage now id storageUsed nm).2
  | CallRemoveNode id => (RemoveNode id nm).2
  | CallHeartbeatNode now id => (HeartbeatNode now id nm).2
  end.

(** The registry after a sequence of calls on a new node manager. *)
Definition after_calls (cs : list call) : NodeManager :=
  foldl after_call NewNodeManager cs.

End Calls.

Definition valid_status (status : string) : Prop :=
  status = "active" \/ status = "inactive" \/ status = "failed".

(** What the operations keep true of every node: it is filed under its own
    id, the reverse index binds its address to that id, it uses no negative
    amount of storage and its status is one of the three. *)
Definition consistent (nm : NodeManager) : Prop :=
  forall id n,
    nodes nm !! id = Some n ->
    ID n = id
    /\ nodeAddrs nm !! Address n = Some id
    /\ 0 <= StorageUsed n
    /\ valid_status (Status n).

End RegistryMore.

(** ** The status report of the API *)

Module Api.
Import Registry RegistryMore.

(** The fields of the JSON object [GetSystemStatus] answers with. *)
Record SystemStatus : Type := mkSystemStatus {
  totalNodes : Z;
  activeNodes : Z;
  inactiveNodes : Z;
  failedNodes : Z;
  totalStorage : Z;
  usedStorage : Z;
  availableStorage : Z
}.

(** The variables of the loop of [GetSystemStatus]. *)
Record tally : Type := mkTally {
  tTotalStorage : Z;
  tUsedStorage : Z;
  tActive : Z;
  tInactive : Z;
  tFailed : Z
}.

(** The body of the loop: [int64] sums, and one counter per status.  The
    counters are [int]s that stay below [len(nodes)]. *)
Definition tally_node (t : tally) (node : Node) : tally :=
  let total := wrap64 (tTotalStorage t + StorageMax node) in
  let used := wrap64 (tUsedStorage t + StorageUsed node) in
  if String.eqb (Status node) "active"
  then mkTally total used (tActive t + 1) (tInactive t) (tFailed t)
  else if String.eqb (Status node) "inactive"
  then mkTally total used (tActive t) (tInactive t + 1) (tFailed t)
  else if String.eqb (Status node) "failed"
  then mkTally total used (tActive t) (tInactive t) (tFailed t + 1)
  else mkTally total used (tActive t) (tInactive t) (tFailed t).

Definition status_of (nodes : list Node) : SystemStatus :=
  let t := foldl tally_node (mkTally 0 0 0 0 0) nodes in
  {| totalNodes := Z.of_nat (length nodes);
     activeNodes := tActive t;
     inactiveNodes := tInactive t;
     failedNodes := tFailed t;
     totalStorage := tTotalStorage t;
     usedStorage := tUsedStorage t;
     availableStorage := wrap64 (tTotalStorage t - tUsedStorage t) |}.

Section Status.

Variable range_order : forall A, gmap string A -> list (string * A).

Definition GetSystemStatus (nm : NodeManager) : SystemStatus :=
  status_of (ListNodes range_order nm).

End Status.

(** The sum of a list of integers, and the number of nodes of a status. *)
Definition Zsum (l : list Z) : Z := foldr Z.add 0 l.

Definition count_status (status : string) (l : list Node) : Z :=
  Z.of_nat (length (filter (fun n => Status n = status) l)).

End Api.

(** ** The file metadata cache and the replication endpoint *)

Module DFS.

Record FileInfo : Type := mkFileInfo {
  Name : string;
  Path : string;
  Size : Z;
  IsDir : bool;
  ModTime : Z;
  Replicas : Z;
  Available : bool
}.

(** What [os.Stat] tells about a path. *)
Record StatInfo : Type := mkStatInfo {
  statSize : Z;
  statIsDir : bool;
  statModTime : Z
}.

Record DistributedFileSystem : Type := mkDistributedFileSystem {
  rootDir : string;
  fileInfo : gmap string FileInfo
}.

Definition err_replicas := "replication factor must be at least 1".

(** The error of [os.Stat], whatever its text. *)
Definition err_stat := "stat: no such file or directory".

Section Cache.

(** [os.Stat] on the file system as it is during the call: [None] when it
    returns an error. *)
Variable os_Stat : string -> option StatInfo.

(** [filepath.Join] and [filepath.Base] of the Go library. *)
Variable filepath_Join : string -> string -> string.
Variable filepath_Base : string -> string.

Definition GetFileInfo (filePath : string) (dfs : DistributedFileSystem)
    : result FileInfo * DistributedFileSystem :=
  match fileInfo dfs !! filePath with
  | Some info => (Ok info, dfs)
  | None =>
      let fullPath := filepath_Join (rootDir dfs) filePath in
      match os_Stat fullPath with
      | None => (Err err_stat, dfs)
      | Some info =>
          let fileInfo' :=
            mkFileInfo (filepath_Base filePath) filePath (statSize info)
                       (statIsDir info) (statModTime info) 1 true in
          (Ok fileInfo',
           mkDistributedFileSystem (rootDir dfs)
             (<[filePath := fileInfo']> (fileInfo dfs)))
      end
  end.

Definition SetReplicationFactor (filePath : string) (replicas : Z)
    (dfs : DistributedFileSystem) : result unit * DistributedFileSystem :=
  if replicas <? 1 then (Err err_replicas, dfs)
  else
    let fullPath := filepath_Join (rootDir dfs) filePath in
    match os_Stat fullPath with
    | None => (Err err_stat, dfs)
    | Some _ =>
        match fileInfo dfs !! filePath with
        | Some info =>
            (Ok tt,
             mkDistributedFileSystem (rootDir dfs)
               (<[filePath := mkFileInfo (Name info) (Path info) (Size info)
                                         (IsDir info) (ModTime info) replicas
                                         (Available info)]> (fileInfo dfs)))
        | None =>
            match os_Stat fullPath with
            | None => (Err err_stat, dfs)
            | Some info =>
                (Ok tt,
                 mkDistributedFileSystem (rootDir dfs)
                   (<[filePath := mkFileInfo (filepath_Base filePath) filePath
                                             (statSize info) (statIsDir info)
                                             (statModTime info) replicas true]>
                      (fileInfo dfs)))
            end
        end
    end.

End Cache.

(** Stand-ins for the worked examples: one file of 2500 bytes under the
    root, a join with a slash, and the path itself for its base name. *)
Definition sample_Stat (path : string) : option StatInfo :=
  if String.eqb path "./data/report.txt" then Some (mkStatInfo 2500 false 7)
  else None.

Definition sample_dfs : DistributedFileSystem :=
  mkDistributedFileSystem "./data" ∅.

End DFS.

Module Controller.
Import Registry DFS.

(** What the handler answers: a status code with an error message, or 200
    with the ids of the nodes chosen. *)
Inductive response : Type :=
| RespError (code : Z) (msg : string)
| RespNodes (code : Z) (nodes : list string).

Section Handler.

Variable range_order : forall A, gmap string A -> list (string * A).
Variable os_Stat : string -> option StatInfo.
Variable filepath_Join : string -> string -> string.
Variable filepath_Base : string -> string.

(** [strconv.Atoi]: [None] when it returns an error. *)
Variable strconv_Atoi : string -> option Z.

(** The handler [SetReplicationFactor], from the path and the query
    parameter on. *)
Definition SetReplicationFactor (filePath replicasStr : string)
    (fs : DistributedFileSystem) (nm : NodeManager)
    : result response * DistributedFileSystem :=
  if String.eqb replicasStr "" then (Ok (RespError 400 "Replicas not provided"), fs)
  else
    match strconv_Atoi replicasStr with
    | None => (Ok (RespError 400 "Invalid replicas value"), fs)
    | Some replicas =>
        match DFS.SetReplicationFactor os_Stat filepath_Join filepath_Base
                filePath replicas fs with
        | (Err msg, fs) => (Ok (RespError 500 msg), fs)
        | (Panic msg, fs) => (Panic msg, fs)
        | (Ok _, fs) =>
            match GetFileInfo os_Stat filepath_Join filepath_Base filePath fs with
            | (Err msg, fs) => (Ok (RespError 500 msg), fs)
            | (Panic msg, fs) => (Panic msg, fs)
            | (Ok fileInfo, fs) =>
                match GetOptimalStorageNodes range_order (Size fileInfo)
                        replicas nm with
                | Ok optimalNodes => (Ok (RespNodes 200 optimalNodes), fs)
                | Err msg => (Err msg, fs)
                | Panic msg => (Panic msg, fs)
                end
            end
        end
    end.

End Handler.

(** A stand-in for [strconv.Atoi] in the worked examples. *)
Definition sample_Atoi (s : string) : option Z :=
  if String.eqb s "2" then Some 2
  else if String.eqb s "-1" then Some (-1)
  else None.

End Controller.

(** ** The rest of the chunk store *)

Module ChunkStoreMore.
Import ChunkStore.

Section Chunks.

Variable sha256_hex : list byte -> string.
Variable filepath_Join : string -> string -> string.

(** [GetChunk].  [filepath.Join(a, b, c)] is [filepath.Join] of
    [filepath.Join(a, b)] and [c]. *)
Definition GetChunk (fileID chunkID : string) (fc : FileChunker) (st : disk)
    : result (list byte) :=
  let chunkPath :=
    filepath_Join (filepath_Join (chunksDir fc) fileID) chunkID in
  match st !! chunkPath with
  | None => Err err_read_chunk
  | Some data => Ok data
  end.

Definition StoreChunk (fileID chunkID : string) (data : list byte)
    (fc : FileChunker) (st : disk) : result unit * disk :=
  let fileChunksDir := filepath_Join (chunksDir fc) fileID in
  let chunkPath := filepath_Join fileChunksDir chunkID in
  (Ok tt, <[chunkPath := data]> st).

(** The chunk list in what [ChunkFile] returns, if it returns one. *)
Definition returned_chunks
    (r : option (result (string * list ChunkInfo) * FileChunker * disk))
    : list ChunkInfo :=
  match r with
  | Some (Ok (_, chunks), _, _) => chunks
  | _ => []
  end.

(** [StoreChunk] of each of the pieces [ps] in turn, each under its hash. *)
Definition store_each (fileID : string) (ps : list (list byte))
    (fc : FileChunker) (st : disk) : disk :=
  foldl (fun st p => (StoreChunk fileID (sha256_hex p) p fc st).2) st ps.

(** The last of the pieces [ps] that [ChunkFile] writes under [path], if it
    writes any there. *)
Fixpoint written (fileChunksDir path : string) (ps : list (list byte))
    : option (list byte) :=
  match ps with
  | [] => None
  | p :: ps =>
      match written fileChunksDir path ps with
      | Some q => Some q
      | None =>
          if decide (filepath_Join fileChunksDir (sha256_hex p) = path)
          then Some p else None
      end
  end.

End Chunks.

Definition err_create := "failed to create output file: %w".

Section Output.

Variable filepath_Join : string -> string -> string.

(** [os.Create(outputPath)]: whether it returns a file, which it does not
    when the directory of the path is missing or the path may not be
    written. *)
Variable os_Create : string -> bool.

(** [ReassembleFile] from its first statement: when [os.Create] fails it
    returns that error and has done nothing; from there on it is
    [ChunkStore.ReassembleFile], which has the output file created. *)
Definition ReassembleFile_from_create (fileID : string) (chunks : list ChunkInfo)
    (outputPath : string) (fc : FileChunker) (st : disk) : result unit * disk :=
  if os_Create outputPath
  then ReassembleFile filepath_Join fileID chunks outputPath fc st
  else (Err err_create, st).

End Output.

(** The file, the chunker and the disk of the worked examples. *)
Definition sample_file : list byte := [x61; x62; x63; x64; x65]%byte.

Definition sample_chunker : FileChunker := NewFileChunker "chunks" 2.

Definition sample_disk : disk := {[ "in.bin" := sample_file ]}.

End ChunkStoreMore.

(** ** The rest of the overlay: sending, connecting *)

Module OverlayMore.
Import Registry Overlay.

(** [byte(v)]: the low eight bits. *)
Definition byte_of (v : Z) : byte :=
  default x00 (Byte.of_N (Z.to_N (Z.land v 255))).

(** [binary.BigEndian.PutUint32] *)
Definition PutUint32 (v : Z) : list byte :=
  [byte_of (Z.shiftr v 24); byte_of (Z.shiftr v 16); byte_of (Z.shiftr v 8);
   byte_of v].

(** [uint32(n)] *)
Definition uint32 (n : Z) : Z := n mod 2 ^ 32.

(** The sending side of a connection: the bytes written so far, and how
    many more calls of [Write] the connection takes before it fails
    ([None]: it never fails). *)
Record Wire : Type := mkWire {
  sent : list byte;
  writes_left : option nat
}.

Definition err_write := "write: broken pipe".
Definition err_closed := "peer connection is closed".

(** [conn.Write(data)]: [None] when it returns an error. *)
Definition Write (data : list byte) (w : Wire) : option Wire :=
  match writes_left w with
  | Some O => None
  | Some (S k) => Some (mkWire (sent w ++ data) (Some k))
  | None => Some (mkWire (sent w ++ data) None)
  end.

(** [peer.Send(data)] *)
Definition Send (pr : Peer) (data : list byte) (w : Wire) : result unit * Wire :=
  if negb (bool_decide (is_Some (Conn pr))) || negb (IsActive pr)
  then (Err err_closed, w)
  else
    let lenBuf := PutUint32 (uint32 (Z.of_nat (length data))) in
    match Write lenBuf w with
    | None => (Err err_write, w)
    | Some w =>
        match Write data w with
        | None => (Err err_write, w)
        | Some w => (Ok tt, w)
        end
    end.

Section Processing.

Variable World : Type.
Variable DecodeMessage : list byte -> option Message.
Variable handlers : Z -> option (MessageHandler World).
Variable clock : nat -> Z.

(** What the loop does with the envelope of the frame it reads at
    iteration [k], on the peer, the world and the log. *)
Definition deliver (envelope : list byte) (st : conn_state World)
    : conn_state World :=
  let k := iteration st in
  let pr := peer st in
  match DecodeMessage envelope with
  | None =>
      mkConnState pr (sock st) (world st) (log st ++ [LogDecodeError]) (S k)
  | Some msg =>
      let pr := mkPeer (ID pr) (Address pr) (Conn pr) (clock k) (IsActive pr) in
      match handlers (Type_ msg) with
      | Some handler =>
          let '(pr, w, err) := handler pr msg (world st) in
          mkConnState pr (sock st) w
            (match err with
             | Some e => log st ++ [LogHandlerError (Type_ msg) e]
             | None => log st
             end) (S k)
      | None =>
          mkConnState pr (sock st) (world st)
                      (log st ++ [LogNoHandler (Type_ msg)]) (S k)
      end
  end.

End Processing.

Arguments deliver {World}.

(** The state of the loop with [rest] left to read on the open socket. *)
Definition with_inbound {World} (rest : list byte) (st : conn_state World)
    : conn_state World :=
  mkConnState (peer st) (mkSocket rest false) (world st) (log st) (iteration st).

(** The state in which the loop returns when it finds the stream at its
    end. *)
Definition at_eof {World} (st : conn_state World) : conn_state World :=
  mkConnState (peer st) (mkSocket [] false) (world st) (log st)
              (S (iteration st)).

(** The bytes of a stream of frames, each a length prefix and an
    envelope. *)
Definition stream_of (frames : list (list byte * list byte)) : list byte :=
  concat ((fun f => f.1 ++ f.2) <$> frames).

(** ** Connecting *)

Record Overlay : Type := mkOverlay {
  network : P2PNetwork;
  nodeManager : NodeManager
}.

Definition err_dial := "failed to connect to peer %s: %w".

Section Connect.

Variable range_order : forall A, gmap string A -> list (string * A).
Variable url_Parse : string -> bool.

(** [net.DialTimeout("tcp", address, 5s)]: the handle of the connection, or
    [None] when it returns an error. *)
Variable net_DialTimeout : string -> option nat.

(** [ConnectToPeer], without the reader it starts for the connection.  The
    peer is created with no [ID], so it is registered under the empty
    id; what [RegisterNode] returns is dropped. *)
Definition ConnectToPeer (now now' : Z) (address : string) (o : Overlay)
    : result Peer * Overlay :=
  let p := network o in
  match List.find (fun existingPeer =>
                     String.eqb (Overlay.Address existingPeer) address
                     && IsActive existingPeer)
                  (snd <$> range_order Peer (peers p)) with
  | Some existingPeer => (Ok existingPeer, o)
  | None =>
      match net_DialTimeout address with
      | None => (Err err_dial, o)
      | Some conn =>
          let pr := mkPeer "" address (Some conn) now true in
          let p := mkP2PNetwork (<[address := pr]> (peers p)) (sockets p) in
          let nm :=
            (RegisterNode url_Parse now' (Overlay.ID pr) address 0
                          (nodeManager o)).2 in
          (Ok pr, mkOverlay p nm)
      end
  end.

(** The overlay after connecting to each address in turn, from no peer and
    a new node manager. *)
Definition after_connects (addresses : list (Z * Z * string)) : Overlay :=
  foldl (fun o a => (ConnectToPeer a.1.1 a.1.2 a.2 o).2)
        (mkOverlay (mkP2PNetwork ∅ ∅) NewNodeManager) addresses.

End Connect.

(** Every peer is filed under its address. *)
Definition keyed_by_address (p : P2PNetwork) : Prop :=
  forall address pr, peers p !! address = Some pr -> Overlay.Address pr = address.

(** Stand-ins for the worked examples. *)
Definition sample_Dial (address : string) : option nat :=
  if String.eqb address "10.0.0.9:9000" then None
  else Some (String.length address).

End OverlayMore.

(** ** Moving and deleting files: the cache side *)

Module DFSMore.
Import DFS.

Definition err_not_empty := "directory is not empty".

(** The errors of [os.ReadDir], [os.Remove], [os.MkdirAll] and [os.Rename],
    whatever their text. *)
Definition err_readdir := "open: no such file or directory".
Definition err_remove := "remove: operation failed".
Definition err_mkdir := "mkdir: operation failed".
Definition err_rename := "rename: operation failed".

Section Files.

(** The operating system, by what its calls answer during one call of the
    function: [os.Stat] and [os.ReadDir] ([None] when they return an error),
    and whether [os.Remove], [os.MkdirAll] and [os.Rename] succeed. *)
Variable os_Stat : string -> option StatInfo.
Variable os_ReadDir : string -> option (list string).
Variable os_Remove : string -> bool.
Variable os_MkdirAll : string -> bool.
Variable os_Rename : string -> string -> bool.

Variable filepath_Join : string -> string -> string.
Variable filepath_Base : string -> string.
Variable filepath_Dir : string -> string.

Definition DeleteFile (path : string) (dfs : DistributedFileSystem)
    : result unit * DistributedFileSystem :=
  let fullPath := filepath_Join (rootDir dfs) path in
  match os_Stat fullPath with
  | None => (Err err_stat, dfs)
  | Some info =>
      let remove :=
        if os_Remove fullPath
        then (Ok tt, mkDistributedFileSystem (rootDir dfs)
                       (delete path (fileInfo dfs)))
        else (Err err_remove, dfs) in
      if statIsDir info
      then
        match os_ReadDir fullPath with
        | None => (Err err_readdir, dfs)
        | Some entries =>
            if (0 <? length entries)%nat then (Err err_not_empty, dfs)
            else remove
        end
      else remove
  end.

Definition MoveFile (sourcePath destPath : string) (dfs : DistributedFileSystem)
    : result unit * DistributedFileSystem :=
  let sourceFullPath := filepath_Join (rootDir dfs) sourcePath in
  let destFullPath := filepath_Join (rootDir dfs) destPath in
  match os_Stat sourceFullPath with
  | None => (Err err_stat, dfs)
  | Some _ =>
      if negb (os_MkdirAll (filepath_Dir destFullPath)) then (Err err_mkdir, dfs)
      else if negb (os_Rename sourceFullPath destFullPath) then (Err err_rename, dfs)
      else
        match fileInfo dfs !! sourcePath with
        | Some info =>
            let info :=
              mkFileInfo (filepath_Base destPath) destPath (Size info)
                         (IsDir info) (ModTime info) (Replicas info)
                         (Available info) in
            (Ok tt,
             mkDistributedFileSystem (rootDir dfs)
               (delete sourcePath (<[destPath := info]> (fileInfo dfs))))
        | None => (Ok tt, dfs)
        end
  end.

End Files.

End DFSMore.

(** ** Broadcasting *)

Module OverlayBroadcast.
Import Overlay OverlayMore.

(** [peer.Send(data)] on the connections of the process, each handle with
    its sending side; a peer with no connection writes nowhere. *)
Definition send_to (pr : Peer) (data : list byte) (wires : gmap nat Wire)
    : gmap nat Wire :=
  match Conn pr with
  | Some c => alter (fun w => (Send pr data w).2) c wires
  | None => wires
  end.

Section Broadcast.

Variable range_order : forall A, gmap string A -> list (string * A).

(** [EncodeMessage], that is [json.Marshal]: [None] when it returns an
    error. *)
Variable EncodeMessage : Message -> option (list byte).

(** [BroadcastMessage]: what [Send] returns is dropped. *)
Definition BroadcastMessage (msg : Message) (p : P2PNetwork)
    (wires : gmap nat Wire) : gmap nat Wire :=
  foldl (fun wires pr =>
           if IsActive pr
           then match EncodeMessage msg with
                | None => wires
                | Some encodedMsg => send_to pr encodedMsg wires
                end
           else wires)
        wires (snd <$> range_order Peer (peers p)).

(** What a broadcast of [msg] does to the sending side of the connection of
    peer [pr]. *)
Definition on_wire (msg : Message) (pr : Peer) (w : Wire) : Wire :=
  if IsActive pr
  then match EncodeMessage msg with
       | None => w
       | Some encodedMsg => (Send pr encodedMsg w).2
       end
  else w.

End Broadcast.

(** No two peers of the network hold the same connection. *)
Definition distinct_connections (p : P2PNetwork) : Prop :=
  NoDup (omap Conn (snd <$> map_to_list (peers p))).

(** Two peers, the second one on a connection that takes no write. *)
Definition two_peers : P2PNetwork :=
  {| peers := {[ "10.0.0.2:9000" := mkPeer "" "10.0.0.2:9000" (Some 1%nat) 0 true;
                 "10.0.0.3:9000" := mkPeer "" "10.0.0.3:9000" (Some 2%nat) 0 true ]};
     sockets := ∅ |}.

Definition two_wires : gmap nat Wire :=
  {[ 1%nat := mkWire [] None; 2%nat := mkWire [] (Some 0%nat) ]}.

End OverlayBroadcast.

(** ** Addresses and capacities the registry takes *)

Module RegistryCases.
Import Registry.

(** The specification leaves open what a well-formed address is.  Whatever
    it is, the addresses of the system are dialled and have a host and a
    port (an address is the node's own when its host is a local one and its
    port is the listener's): [host_and_port] asks for that much. *)
Definition host_and_port (address : string) : Prop :=
  exists host port,
    host ≠ "" /\ port ≠ "" /\ address = String.append host (String.append ":" port).

(** Every address the registry holds is one [url.Parse] accepts. *)
Definition parsed (url_Parse : string -> bool) (nm : NodeManager) : Prop :=
  (forall id n, nodes nm !! id = Some n -> url_Parse (Address n) = true)
  /\ (forall address id,
        nodeAddrs nm !! address = Some id -> url_Parse address = true).

(** A registry the operations reach: [n1] registers with a capacity of 100
    and reports 80 in use, then registers again with the capacity [-2^63];
    [n2] registers with a capacity of 5000. *)
Definition wrapped_registry : NodeManager :=
  let nm :=
    (RegisterNode sample_url_Parse 1 "n1" "tcp://10.0.0.1:9000" 100
                  NewNodeManager).2 in
  let nm := (UpdateNodeStorage 2 "n1" 80 nm).2 in
  let nm :=
    (RegisterNode sample_url_Parse 3 "n1" "tcp://10.0.0.1:9000" (- 2 ^ 63) nm).2 in
  (RegisterNode sample_url_Parse 4 "n2" "tcp://10.0.0.2:9000" 5000 nm).2.

End RegistryCases.

(** * Properties *)

Lemma wrap64_id z : int64_range z -> wrap64 z = z.
Proof.
  unfold int64_range, wrap64. intros H.
  rewrite Z.mod_small; lia.
Qed.

Lemma RangeOrder_map_to_list : RangeOrder (fun A m => map_to_list m).
Proof. intros A m. reflexivity. Qed.

(** ** Node registry *)

Module RegistryProps.
Import Registry.

Section Facts.

Variable url_Parse : string -> bool.

Lemma RegisterNode_ok now id address storageMax nm node nm' :
  RegisterNode url_Parse now id address storageMax nm = (Ok node, nm') ->
  url_Parse address = true
  /\ (nodeAddrs nm !! address = None \/ nodeAddrs nm !! address = Some id)
  /\ node = match nodes nm !! id with
            | None => mkNode id address "active" 0 storageMax now
            | Some n => mkNode (ID n) address "active" (StorageUsed n) storageMax now
            end
  /\ nodes nm' = <[id := node]> (nodes nm)
  /\ nodeAddrs nm' = <[address := id]> (nodeAddrs nm).
Proof.
  unfold RegisterNode. intros H.
  destruct (url_Parse address); simpl in H; [|discriminate].
  destruct (nodeAddrs nm !! address) as [existing|] eqn:Ha.
  - destruct (String.eqb_spec existing id) as [->|Hne]; simpl in H; [|discriminate].
    injection H as <- <-. simpl. auto.
  - injection H as <- <-. simpl. auto.
Qed.

Lemma RegisterNode_conflict now id id' address storageMax nm :
  url_Parse address = true ->
  nodeAddrs nm !! address = Some id ->
  id ≠ id' ->
  RegisterNode url_Parse now id' address storageMax nm = (Err err_address_taken, nm).
Proof.
  intros Hp Ha Hne. unfold RegisterNode. rewrite Hp, Ha. simpl.
  destruct (String.eqb_spec id id'); [contradiction|reflexivity].
Qed.

(** Registration keeps the capacity invariant when the declared capacity is
    not below what the node already uses. *)
Lemma RegisterNode_inv now id address storageMax nm res nm' :
  registry_inv nm ->
  0 <= storageMax ->
  (forall n, nodes nm !! id = Some n -> StorageUsed n <= storageMax) ->
  RegisterNode url_Parse now id address storageMax nm = (res, nm') ->
  registry_inv nm'.
Proof.
  intros Hinv Hmax Hused H. destruct res as [node|msg|msg].
  - apply RegisterNode_ok in H as (_ & _ & Hn & Hnodes & _).
    intros k n. rewrite Hnodes, lookup_insert. case_decide as Hk.
    + intros [= <-]. subst node. unfold node_inv.
      destruct (nodes nm !! id) as [n0|] eqn:E; simpl.
      * specialize (Hinv _ _ E). specialize (Hused _ eq_refl).
        unfold node_inv in Hinv. lia.
      * lia.
    + apply Hinv.
  - unfold RegisterNode in H. repeat case_match; simplify_eq; done.
  - unfold RegisterNode in H. repeat case_match; simplify_eq.
Qed.

End Facts.

Lemma HeartbeatNode_inv now id nm res nm' :
  registry_inv nm -> HeartbeatNode now id nm = (res, nm') -> registry_inv nm'.
Proof.
  unfold HeartbeatNode. intros Hinv H.
  destruct (nodes nm !! id) as [n|] eqn:E; simplify_eq; [|done].
  intros k n'. simpl. rewrite lookup_insert. case_decide.
  - intros [= <-]. apply (Hinv _ _ E).
  - apply Hinv.
Qed.

Lemma UpdateNodeStatus_inv now id status nm res nm' :
  registry_inv nm -> UpdateNodeStatus now id status nm = (res, nm') -> registry_inv nm'.
Proof.
  unfold UpdateNodeStatus. intros Hinv H.
  destruct (nodes nm !! id) as [n|] eqn:E; simplify_eq; [|done].
  case_match; simplify_eq; [done|].
  intros k n'. simpl. rewrite lookup_insert. case_decide.
  - intros [= <-]. apply (Hinv _ _ E).
  - apply Hinv.
Qed.

Lemma UpdateNodeStorage_inv now id used nm res nm' :
  registry_inv nm -> UpdateNodeStorage now id used nm = (res, nm') -> registry_inv nm'.
Proof.
  unfold UpdateNodeStorage. intros Hinv H.
  destruct (nodes nm !! id) as [n|] eqn:E; simplify_eq; [|done].
  destruct (Z.ltb_spec used 0); simplify_eq; [done|].
  destruct (Z.gtb_spec used (StorageMax n)); simplify_eq; [done|].
  intros k n'. simpl. rewrite lookup_insert. case_decide.
  - intros [= <-]. unfold node_inv. simpl. lia.
  - apply Hinv.
Qed.

Lemma RemoveNode_inv id nm res nm' :
  registry_inv nm -> RemoveNode id nm = (res, nm') -> registry_inv nm'.
Proof.
  unfold RemoveNode. intros Hinv H.
  destruct (nodes nm !! id) as [n|] eqn:E; simplify_eq; [|done].
  intros k n'. simpl. rewrite lookup_delete. case_decide; [done|]. apply Hinv.
Qed.

Lemma after_call_parsed url_Parse nm c :
  RegistryCases.parsed url_Parse nm ->
  RegistryCases.parsed url_Parse (RegistryMore.after_call url_Parse nm c).
Proof.
  intros [Hn Ha]. destruct c as [now id address storageMax|now id status
                                 |now id used|id|now id]; cbn [RegistryMore.after_call].
  - unfold RegisterNode. destruct (url_Parse address) eqn:Hp; [|by split].
    cbn [negb].
    assert (Hok : RegistryCases.parsed url_Parse
              {| nodes :=
                   <[id := match nodes nm !! id with
                           | None => mkNode id address "active" 0 storageMax now
                           | Some n => mkNode (ID n) address "active"
                                              (StorageUsed n) storageMax now
                           end]> (nodes nm);
                 nodeAddrs := <[address := id]> (nodeAddrs nm) |});
      [|by destruct (nodeAddrs nm !! address) as [e|];
           [destruct (negb (String.eqb e id))|]].
    split; cbn [nodes nodeAddrs].
    + intros k n [[<- <-]|[_ Hk]]%lookup_insert_Some; [|by eapply Hn].
      by destruct (nodes nm !! id).
    + by intros a k [[<- _]|[_ Hk]]%lookup_insert_Some; [|eapply Ha].
  - unfold UpdateNodeStatus. destruct (nodes nm !! id) as [n0|] eqn:E; [|by split].
    destruct (_ && _); [by split|]. split; cbn [snd nodes nodeAddrs]; [|done].
    intros k n [[<- <-]|[_ Hk]]%lookup_insert_Some; [|by eapply Hn].
    cbn [Address]. by eapply Hn.
  - unfold UpdateNodeStorage. destruct (nodes nm !! id) as [n0|] eqn:E; [|by split].
    destruct (used <? 0); [by split|].
    destruct (used >? StorageMax n0); [by split|].
    split; cbn [snd nodes nodeAddrs]; [|done].
    intros k n [[<- <-]|[_ Hk]]%lookup_insert_Some; [|by eapply Hn].
    cbn [Address]. by eapply Hn.
  - unfold RemoveNode. destruct (nodes nm !! id) as [n0|] eqn:E; [|by split].
    split; cbn [snd nodes nodeAddrs].
    + intros k n [_ Hk]%lookup_delete_Some. by eapply Hn.
    + intros a k [_ Hk]%lookup_delete_Some. by eapply Ha.
  - unfold HeartbeatNode. destruct (nodes nm !! id) as [n0|] eqn:E; [|by split].
    split; cbn [snd nodes nodeAddrs]; [|done].
    intros k n [[<- <-]|[_ Hk]]%lookup_insert_Some; [|by eapply Hn].
    cbn [Address]. by eapply Hn.
Qed.

Lemma after_calls_parsed url_Parse cs :
  RegistryCases.parsed url_Parse (RegistryMore.after_calls url_Parse cs).
Proof.
  unfold RegistryMore.after_calls.
  assert (H : RegistryCases.parsed url_Parse NewNodeManager) by (by split).
  revert H. generalize NewNodeManager.
  induction cs as [|c cs IH]; intros nm H; [done|].
  cbn [foldl]. apply IH. by apply after_call_parsed.
Qed.

(** C6, as the code has it.  [RegisterNode] fails with InvalidInput exactly
    for the addresses [url.Parse] returns an error for, before it looks at
    the registry, and the registry is then as it was: no node is created.
    Since this is the only place that stores an address, no sequence of
    calls on a new node manager ever leaves a node, or an entry of the
    address index, with an address [url.Parse] refuses. *)
Theorem register_rejects_unparsed_address
    url_Parse now id address storageMax nm :
  ((RegisterNode url_Parse now id address storageMax nm).1 = Err err_invalid_address
   <-> url_Parse address = false)
  /\ (url_Parse address = false ->
      RegisterNode url_Parse now id address storageMax nm
      = (Err err_invalid_address, nm))
  /\ error_kind err_invalid_address = Some InvalidInput
  /\ (forall cs,
        RegistryCases.parsed url_Parse (RegistryMore.after_calls url_Parse cs)).
Proof.
  split; [|split; [|split; [reflexivity|apply after_calls_parsed]]].
  - unfold RegisterNode. destruct (url_Parse address); [|done].
    cbn [negb]. split; [|done].
    by destruct (nodeAddrs nm !! address) as [e|];
      [destruct (negb (String.eqb e id))|].
  - unfold RegisterNode. by intros ->.
Qed.

(** C6 as the specification states it fails on the empty address: it
    names no host and no port, [url.Parse] returns no error for it, and
    [RegisterNode] creates a node with it. *)
Lemma register_empty_address_counterexample :
  ¬ RegistryCases.host_and_port ""
  /\ RegisterNode sample_url_Parse 7 "n1" "" 100 NewNodeManager
     = (Ok (mkNode "n1" "" "active" 0 100 7),
        {| nodes := {[ "n1" := mkNode "n1" "" "active" 0 100 7 ]};
           nodeAddrs := {[ "" := "n1" ]} |})
  /\ ¬ (forall address,
          ¬ RegistryCases.host_and_port address ->
          RegisterNode sample_url_Parse 7 "n1" address 100 NewNodeManager
          = (Err err_invalid_address, NewNodeManager)).
Proof.
  assert (H : ¬ RegistryCases.host_and_port "").
  { intros (host & port & Hh & _ & Heq). by destruct host. }
  split; [exact H|]. split; [reflexivity|].
  intros Hall. specialize (Hall "" H). discriminate Hall.
Qed.

(** C4. Registering [id] under [addrA] and then under a different [addrB]
    updates the one node of [id]: its address is [addrB], the registry holds
    the same ids as after the first call and every other node is as it was.
    Registering another id under [addrB] then fails with Conflict and
    changes nothing. *)
Theorem register_twice_updates_same_node
    url_Parse now1 now2 now3 id addrA addrB nm n1 nm1 n2 nm2 :
  addrA ≠ addrB ->
  RegisterNode url_Parse now1 id addrA 100 nm = (Ok n1, nm1) ->
  RegisterNode url_Parse now2 id addrB 100 nm1 = (Ok n2, nm2) ->
  (nodes nm2 !! id = Some n2
   /\ n2 = mkNode (ID n1) addrB "active" (StorageUsed n1) 100 now2
   /\ dom (nodes nm2) = dom (nodes nm1)
   /\ size (nodes nm2) = size (nodes nm1)
   /\ (forall k, k ≠ id -> nodes nm2 !! k = nodes nm1 !! k))
  /\ (forall id' storageMax, id' ≠ id ->
        RegisterNode url_Parse now3 id' addrB storageMax nm2
        = (Err err_address_taken, nm2))
  /\ error_kind err_address_taken = Some Conflict.
Proof.
  intros Hne H1 H2.
  apply RegisterNode_ok in H1 as (_ & _ & Hn1 & Hnodes1 & _).
  apply RegisterNode_ok in H2 as (Hp2 & _ & Hn2 & Hnodes2 & Haddrs2).
  assert (Hid : nodes nm1 !! id = Some n1) by (rewrite Hnodes1; apply lookup_insert_eq).
  rewrite Hid in Hn2.
  assert (Hdom : dom (nodes nm2) = dom (nodes nm1)).
  { rewrite Hnodes2, dom_insert_L.
    apply subseteq_union_1_L, singleton_subseteq_l, elem_of_dom. eauto. }
  repeat split.
  - rewrite Hnodes2. apply lookup_insert_eq.
  - exact Hn2.
  - exact Hdom.
  - rewrite <- !size_dom. by rewrite Hdom.
  - intros k Hk. rewrite Hnodes2. by apply lookup_insert_ne.
  - intros id' storageMax Hid'.
    apply RegisterNode_conflict with (id := id); [done| |done].
    rewrite Haddrs2. apply lookup_insert_eq.
Qed.

Lemma register_twice_updates_same_node_witness :
  let n1 := mkNode "n1" "10.0.0.1:9000" "active" 0 100 1 in
  let nm1 := {| nodes := <["n1" := n1]> ∅;
                nodeAddrs := <["10.0.0.1:9000" := "n1"]> ∅ |} in
  let n2 := mkNode "n1" "10.0.0.2:9000" "active" 0 100 2 in
  let nm2 := {| nodes := <["n1" := n2]> (nodes nm1);
                nodeAddrs := <["10.0.0.2:9000" := "n1"]> (nodeAddrs nm1) |} in
  "10.0.0.1:9000" ≠ "10.0.0.2:9000"
  /\ RegisterNode sample_url_Parse 1 "n1" "10.0.0.1:9000" 100 NewNodeManager
     = (Ok n1, nm1)
  /\ RegisterNode sample_url_Parse 2 "n1" "10.0.0.2:9000" 100 nm1 = (Ok n2, nm2)
  /\ ((nodes nm2 !! "n1" = Some n2
       /\ n2 = mkNode (ID n1) "10.0.0.2:9000" "active" (StorageUsed n1) 100 2
       /\ dom (nodes nm2) = dom (nodes nm1)
       /\ size (nodes nm2) = size (nodes nm1)
       /\ (forall k, k ≠ "n1" -> nodes nm2 !! k = nodes nm1 !! k))
      /\ (forall id' storageMax, id' ≠ "n1" ->
            RegisterNode sample_url_Parse 3 id' "10.0.0.2:9000" storageMax nm2
            = (Err err_address_taken, nm2))
      /\ error_kind err_address_taken = Some Conflict).
Proof.
  intros n1 nm1 n2 nm2.
  assert (Hne : "10.0.0.1:9000" ≠ "10.0.0.2:9000") by discriminate.
  assert (H1 : RegisterNode sample_url_Parse 1 "n1" "10.0.0.1:9000" 100 NewNodeManager
               = (Ok n1, nm1)) by reflexivity.
  assert (H2 : RegisterNode sample_url_Parse 2 "n1" "10.0.0.2:9000" 100 nm1
               = (Ok n2, nm2)) by reflexivity.
  split; [exact Hne|]. split; [exact H1|]. split; [exact H2|].
  exact (register_twice_updates_same_node sample_url_Parse 1 2 3 "n1"
           "10.0.0.1:9000" "10.0.0.2:9000" NewNodeManager n1 nm1 n2 nm2 Hne H1 H2).
Defined.

(** C9. Registering [id] again under a new address leaves the former
    address bound to [id] in the reverse index, and [RemoveNode] deletes the
    binding of the node's current address only.  So there are call sequences
    after which no node holds [addrA], or no node is left at all, and
    registering another id under [addrA] still fails with Conflict. *)
Theorem stale_address_binding
    url_Parse now1 now2 now3 id id' addrA addrB maxA maxB maxC :
  well_formed url_Parse addrA ->
  well_formed url_Parse addrB ->
  addrA ≠ addrB ->
  id ≠ id' ->
  (forall nm n1 nm1 n2 nm2,
      RegisterNode url_Parse now1 id addrA maxA nm = (Ok n1, nm1) ->
      RegisterNode url_Parse now2 id addrB maxB nm1 = (Ok n2, nm2) ->
      Address n2 = addrB /\ nodeAddrs nm2 !! addrA = Some id)
  /\ (forall nm nm',
        RemoveNode id nm = (Ok tt, nm') ->
        exists n, nodes nm !! id = Some n
                  /\ nodes nm' = delete id (nodes nm)
                  /\ nodeAddrs nm' = delete (Address n) (nodeAddrs nm))
  /\ (let nm1 := (RegisterNode url_Parse now1 id addrA maxA NewNodeManager).2 in
      let nm2 := (RegisterNode url_Parse now2 id addrB maxB nm1).2 in
      let nm3 := (RemoveNode id nm2).2 in
      (forall k n, nodes nm2 !! k = Some n -> Address n ≠ addrA)
      /\ RegisterNode url_Parse now3 id' addrA maxC nm2 = (Err err_address_taken, nm2)
      /\ nodes nm3 = ∅
      /\ RegisterNode url_Parse now3 id' addrA maxC nm3 = (Err err_address_taken, nm3)
      /\ error_kind err_address_taken = Some Conflict).
Proof.
  unfold well_formed. intros HA HB Hne Hid. split; [|split].
  - intros nm n1 nm1 n2 nm2 H1 H2.
    apply RegisterNode_ok in H1 as (_ & _ & _ & _ & Haddrs1).
    apply RegisterNode_ok in H2 as (_ & _ & Hn2 & _ & Haddrs2).
    split.
    + subst n2. by destruct (nodes nm1 !! id).
    + rewrite Haddrs2, lookup_insert_ne by done.
      rewrite Haddrs1. apply lookup_insert_eq.
  - intros nm nm' H. unfold RemoveNode in H.
    destruct (nodes nm !! id) as [n|] eqn:E; [|discriminate].
    injection H as <-. by exists n.
  - assert (H1 : RegisterNode url_Parse now1 id addrA maxA NewNodeManager
                 = (Ok (mkNode id addrA "active" 0 maxA now1),
                    {| nodes := <[id := mkNode id addrA "active" 0 maxA now1]> ∅;
                       nodeAddrs := <[addrA := id]> ∅ |})).
    { unfold RegisterNode, NewNodeManager. simpl. by rewrite HA, !lookup_empty. }
    rewrite H1. simpl.
    assert (H2 : RegisterNode url_Parse now2 id addrB maxB
                   {| nodes := <[id := mkNode id addrA "active" 0 maxA now1]> ∅;
                      nodeAddrs := <[addrA := id]> ∅ |}
                 = (Ok (mkNode id addrB "active" 0 maxB now2),
                    {| nodes := <[id := mkNode id addrB "active" 0 maxB now2]>
                                  (<[id := mkNode id addrA "active" 0 maxA now1]> ∅);
                       nodeAddrs := <[addrB := id]> (<[addrA := id]> ∅) |})).
    { unfold RegisterNode. simpl.
      rewrite HB, lookup_insert_ne, lookup_empty, lookup_insert_eq by done.
      reflexivity. }
    rewrite H2. simpl.
    assert (H3 : RemoveNode id
                   {| nodes := <[id := mkNode id addrB "active" 0 maxB now2]>
                                 (<[id := mkNode id addrA "active" 0 maxA now1]> ∅);
                      nodeAddrs := <[addrB := id]> (<[addrA := id]> ∅) |}
                 = (Ok tt,
                    {| nodes := ∅; nodeAddrs := <[addrA := id]> ∅ |})).
    { unfold RemoveNode. simpl. rewrite lookup_insert_eq. simpl. f_equal. f_equal.
      - rewrite insert_insert_eq, delete_insert_eq. apply delete_empty.
      - rewrite delete_insert_eq. rewrite delete_insert_ne by done.
        by rewrite delete_empty. }
    rewrite H3. simpl. repeat split.
    + intros k n. rewrite insert_insert_eq, lookup_insert. case_decide.
      * intros [= <-]. simpl. congruence.
      * by rewrite lookup_empty.
    + apply RegisterNode_conflict with (id := id); [done| |done]. simpl.
      rewrite lookup_insert_ne by done. apply lookup_insert_eq.
    + apply RegisterNode_conflict with (id := id); [done| |done]. simpl.
      apply lookup_insert_eq.
Qed.

Lemma stale_address_binding_witness :
  well_formed sample_url_Parse "10.0.0.1:9000"
  /\ well_formed sample_url_Parse "10.0.0.2:9000"
  /\ "10.0.0.1:9000" ≠ "10.0.0.2:9000"
  /\ "n1" ≠ "n2"
  /\ (let nm1 := (RegisterNode sample_url_Parse 1 "n1" "10.0.0.1:9000" 100
                               NewNodeManager).2 in
      let nm2 := (RegisterNode sample_url_Parse 2 "n1" "10.0.0.2:9000" 100 nm1).2 in
      let nm3 := (RemoveNode "n1" nm2).2 in
      (forall k n, nodes nm2 !! k = Some n -> Address n ≠ "10.0.0.1:9000")
      /\ RegisterNode sample_url_Parse 3 "n2" "10.0.0.1:9000" 100 nm2
         = (Err err_address_taken, nm2)
      /\ nodes nm3 = ∅
      /\ RegisterNode sample_url_Parse 3 "n2" "10.0.0.1:9000" 100 nm3
         = (Err err_address_taken, nm3)
      /\ error_kind err_address_taken = Some Conflict).
Proof.
  assert (HA : well_formed sample_url_Parse "10.0.0.1:9000") by reflexivity.
  assert (HB : well_formed sample_url_Parse "10.0.0.2:9000") by reflexivity.
  assert (Hne : "10.0.0.1:9000" ≠ "10.0.0.2:9000") by discriminate.
  assert (Hid : "n1" ≠ "n2") by discriminate.
  split; [exact HA|]. split; [exact HB|]. split; [exact Hne|]. split; [exact Hid|].
  exact (proj2 (proj2 (stale_address_binding sample_url_Parse 1 2 3 "n1" "n2"
                         "10.0.0.1:9000" "10.0.0.2:9000" 100 100 100 HA HB Hne Hid))).
Defined.

(** C3. The capacity invariant [0 <= storageUsed <= storageMax] does not
    survive registration: a node that uses 80 of 100 and is registered again
    with capacity 50 uses more than its capacity, the registry before that
    call satisfying the invariant. *)
Theorem reregister_breaks_capacity_invariant url_Parse address :
  well_formed url_Parse address ->
  let nm1 := (RegisterNode url_Parse 1 "n1" address 100 NewNodeManager).2 in
  let nm2 := (UpdateNodeStorage 2 "n1" 80 nm1).2 in
  let nm3 := (RegisterNode url_Parse 3 "n1" address 50 nm2).2 in
  registry_inv nm2
  /\ RegisterNode url_Parse 3 "n1" address 50 nm2
     = (Ok (mkNode "n1" address "active" 80 50 3), nm3)
  /\ nodes nm3 !! "n1" = Some (mkNode "n1" address "active" 80 50 3)
  /\ ¬ registry_inv nm3.
Proof.
  unfold well_formed. intros HA.
  assert (H1 : RegisterNode url_Parse 1 "n1" address 100 NewNodeManager
               = (Ok (mkNode "n1" address "active" 0 100 1),
                  {| nodes := <["n1" := mkNode "n1" address "active" 0 100 1]> ∅;
                     nodeAddrs := <[address := "n1"]> ∅ |})).
  { unfold RegisterNode, NewNodeManager. simpl. by rewrite HA, !lookup_empty. }
  rewrite H1. simpl.
  assert (Hinv1 : registry_inv
                    {| nodes := <["n1" := mkNode "n1" address "active" 0 100 1]> ∅;
                       nodeAddrs := <[address := "n1"]> ∅ |}).
  { intros k n. simpl. rewrite lookup_insert. case_decide.
    - intros [= <-]. unfold node_inv. simpl. lia.
    - by rewrite lookup_empty. }
  assert (Hinv2 := UpdateNodeStorage_inv 2 "n1" 80 _ _ _ Hinv1 (surjective_pairing _)).
  unfold UpdateNodeStorage in *. simpl in *. rewrite lookup_insert_eq in *.
  simpl in *. split; [exact Hinv2|].
  unfold RegisterNode. simpl. rewrite HA, !lookup_insert_eq. simpl.
  split; [reflexivity|]. split; [apply lookup_insert_eq|].
  intros Hinv. specialize (Hinv "n1" _ (lookup_insert_eq _ _ _)).
  unfold node_inv in Hinv. simpl in Hinv. lia.
Qed.

Lemma reregister_breaks_capacity_invariant_witness :
  well_formed sample_url_Parse "10.0.0.1:9000"
  /\ (let nm1 := (RegisterNode sample_url_Parse 1 "n1" "10.0.0.1:9000" 100
                               NewNodeManager).2 in
      let nm2 := (UpdateNodeStorage 2 "n1" 80 nm1).2 in
      let nm3 := (RegisterNode sample_url_Parse 3 "n1" "10.0.0.1:9000" 50 nm2).2 in
      registry_inv nm2
      /\ RegisterNode sample_url_Parse 3 "n1" "10.0.0.1:9000" 50 nm2
         = (Ok (mkNode "n1" "10.0.0.1:9000" "active" 80 50 3), nm3)
      /\ nodes nm3 !! "n1" = Some (mkNode "n1" "10.0.0.1:9000" "active" 80 50 3)
      /\ ¬ registry_inv nm3).
Proof.
  assert (HA : well_formed sample_url_Parse "10.0.0.1:9000") by reflexivity.
  split; [exact HA|].
  exact (reregister_breaks_capacity_invariant sample_url_Parse "10.0.0.1:9000" HA).
Defined.

End RegistryProps.

(** ** Placement selector *)

Module PlacementProps.
Import Registry.

(** *** The sort *)

Lemma swap_if_greater_middle (pre mid rest : list Node) (h x : Node) :
  swap_if_greater (length pre) (pre ++ h :: mid ++ x :: rest)
                  (length pre + S (length mid))
  = if avail x >? avail h
    then pre ++ x :: mid ++ h :: rest
    else pre ++ h :: mid ++ x :: rest.
Proof.
  unfold swap_if_greater.
  rewrite list_lookup_middle by done.
  assert (Hj : (pre ++ h :: mid ++ x :: rest) !! (length pre + S (length mid))%nat
               = Some x).
  { rewrite lookup_app_r by lia.
    replace (length pre + S (length mid) - length pre)%nat
      with (S (length mid)) by lia.
    simpl. by rewrite list_lookup_middle. }
  rewrite Hj. destruct (avail x >? avail h); [|done].
  rewrite insert_app_r. simpl. rewrite insert_app_r_alt by lia.
  rewrite Nat.sub_diag. simpl.
  rewrite insert_app_r_alt by lia.
  by rewrite Nat.sub_diag.
Qed.

Lemma sort_inner_from (rest : list Node) : forall (pre mid : list Node) (h : Node),
  foldl (swap_if_greater (length pre)) (pre ++ h :: mid ++ rest)
        (seq (length pre + S (length mid)) (length rest))
  = pre ++ (pass h rest).1 :: mid ++ (pass h rest).2.
Proof.
  induction rest as [|x rest IH]; intros pre mid h; [done|].
  cbn [length seq foldl]. rewrite swap_if_greater_middle.
  cbn [pass]. destruct (avail x >? avail h).
  - specialize (IH pre (mid ++ [h]) x).
    rewrite length_app, <- !app_assoc in IH. cbn [length app] in IH.
    replace (length pre + S (length mid + 1))%nat
      with (S (length pre + S (length mid))) in IH by lia.
    rewrite IH. by destruct (pass x rest).
  - specialize (IH pre (mid ++ [x]) h).
    rewrite length_app, <- !app_assoc in IH. cbn [length app] in IH.
    replace (length pre + S (length mid + 1))%nat
      with (S (length pre + S (length mid))) in IH by lia.
    rewrite IH. by destruct (pass h rest).
Qed.

Lemma sort_inner_pass (pre t : list Node) (h : Node) :
  sort_inner (pre ++ h :: t) (length pre)
  = pre ++ (pass h t).1 :: (pass h t).2.
Proof.
  unfold sort_inner. rewrite length_app. cbn [length].
  replace (length pre + S (length t) - S (length pre))%nat with (length t) by lia.
  replace (S (length pre)) with (length pre + S (length (@nil Node)))%nat
    by (simpl; lia).
  apply (sort_inner_from t pre [] h).
Qed.

Lemma pass_perm (t : list Node) : forall h, (pass h t).1 :: (pass h t).2 ≡ₚ h :: t.
Proof.
  induction t as [|x t IH]; intros h; [done|].
  cbn [pass]. destruct (avail x >? avail h).
  - specialize (IH x). destruct (pass x t) as [h' t']. simpl in *.
    by rewrite (Permutation_swap h h' t'), IH.
  - specialize (IH h). destruct (pass h t) as [h' t']. simpl in *.
    rewrite (Permutation_swap x h' t'), IH. apply Permutation_swap.
Qed.

Lemma pass_length (t : list Node) h : length (pass h t).2 = length t.
Proof.
  pose proof (Permutation_length (pass_perm t h)) as H. simpl in H. lia.
Qed.

Lemma pass_max (t : list Node) : forall h,
  avail (pass h t).1 >= avail h
  /\ Forall (by_avail_desc (pass h t).1) (pass h t).2.
Proof.
  induction t as [|x t IH]; intros h; [split; [simpl; lia|constructor]|].
  cbn [pass]. destruct (Z.gtb_spec (avail x) (avail h)) as [Hgt|Hle].
  - destruct (IH x) as [Hx Hall]. destruct (pass x t) as [h' t']. simpl in *.
    split; [lia|]. constructor; [unfold by_avail_desc; lia|done].
  - destruct (IH h) as [Hh Hall]. destruct (pass h t) as [h' t']. simpl in *.
    split; [lia|]. constructor; [unfold by_avail_desc; lia|done].
Qed.

Lemma sort_outer_from (n : nat) : forall (pre l : list Node),
  length l = n ->
  exists l',
    foldl sort_inner (pre ++ l) (seq (length pre) (n - 1)) = pre ++ l'
    /\ l' ≡ₚ l
    /\ Sorted by_avail_desc l'.
Proof.
  induction n as [|n IH]; intros pre l Hlen.
  { destruct l; [|done]. exists []. simpl. by repeat split. }
  destruct l as [|h t]; [done|]. simpl in Hlen.
  destruct n as [|n].
  { destruct t; [|done]. exists [h]. simpl. repeat split; [done|].
    by repeat constructor. }
  replace (S (S n) - 1)%nat with (S n) by lia. cbn [seq foldl].
  rewrite sort_inner_pass.
  destruct (pass_max t h) as [_ Hall]. pose proof (pass_perm t h) as Hperm.
  pose proof (pass_length t h) as Hlen'.
  destruct (pass h t) as [h' t']. simpl in *.
  destruct (IH (pre ++ [h']) t') as (l' & Hfold & Hp & Hs); [lia|].
  rewrite length_app, <- !app_assoc, Nat.sub_0_r in Hfold. simpl in Hfold.
  replace (length pre + 1)%nat with (S (length pre)) in Hfold by lia.
  exists (h' :: l'). split; [|split].
  - exact Hfold.
  - by rewrite Hp.
  - constructor; [done|].
    rewrite <- Hp in Hall. destruct l'; constructor.
    by inversion Hall.
Qed.

Lemma sort_by_avail_spec (l : list Node) :
  sort_by_avail l ≡ₚ l /\ Sorted by_avail_desc (sort_by_avail l).
Proof.
  destruct (sort_outer_from (length l) [] l eq_refl) as (l' & Hfold & Hp & Hs).
  simpl in Hfold. unfold sort_by_avail. rewrite Hfold. by split.
Qed.

(** *** The selection *)

Lemma min_Zmin a b : min a b = Z.min a b.
Proof. unfold min. destruct (Z.ltb_spec a b); lia. Qed.

Lemma filter_eligible (fileSize : Z) (l : list Node) :
  Forall (fun n => int64_range (free n)) l ->
  List.filter (eligible fileSize) l = filter (Eligible fileSize) l.
Proof.
  induction 1 as [|n l Hn _ IH]; [done|].
  rewrite filter_cons. simpl. rewrite IH.
  unfold eligible, Eligible, avail. fold (free n). rewrite (wrap64_id _ Hn).
  destruct (String.eqb_spec (Status n) "active") as [Hs|Hs];
    destruct (Z.geb_spec (free n) fileSize) as [Hf|Hf]; simpl;
    case_decide as Hd; try done; destruct Hd; try done; lia.
Qed.

Lemma Sorted_by_free (l : list Node) :
  Forall (fun n => int64_range (free n)) l ->
  Sorted by_avail_desc l -> Sorted by_free_desc l.
Proof.
  intros Hall Hs. induction Hs as [|n l Hs IH Hhd]; [constructor|].
  apply Forall_cons in Hall as [Hn Hall]. constructor; [by apply IH|].
  destruct Hhd as [|m l Hm]; constructor.
  apply Forall_cons in Hall as [Hm' _].
  unfold by_avail_desc, by_free_desc, avail in *. fold (free n) (free m) in Hm.
  by rewrite !wrap64_id in Hm.
Qed.

(** A registry that satisfies the capacity invariant, with capacities that
    are [int64] values, has no free space that overflows. *)
Lemma registry_inv_no_overflow nm :
  registry_inv nm ->
  (forall id n, nodes nm !! id = Some n -> int64_range (StorageMax n)) ->
  no_overflow nm.
Proof.
  intros Hinv Hmax id n Hn. specialize (Hinv id n Hn). specialize (Hmax id n Hn).
  unfold node_inv, int64_range, free in *. lia.
Qed.

Section Select.

Variable range_order : forall A, gmap string A -> list (string * A).
Hypothesis range_order_perm : RangeOrder range_order.

Lemma GetOptimalStorageNodes_ranked fileSize replicaCount nm :
  no_overflow nm ->
  0 <= replicaCount ->
  exists ranked,
    ranked ≡ₚ filter (Eligible fileSize) (snd <$> map_to_list (nodes nm))
    /\ Sorted by_free_desc ranked
    /\ GetOptimalStorageNodes range_order fileSize replicaCount nm
       = Ok (ID <$> take (Z.to_nat (Z.min replicaCount (Z.of_nat (length ranked))))
                        ranked).
Proof.
  intros Hno Hrc. unfold GetOptimalStorageNodes.
  set (visited := snd <$> range_order Node (nodes nm)).
  assert (Hvis : visited ≡ₚ snd <$> map_to_list (nodes nm)).
  { unfold visited. by rewrite (range_order_perm Node (nodes nm)). }
  assert (Hrange : Forall (fun n => int64_range (free n)) visited).
  { rewrite Hvis. apply Forall_forall. intros n Hn.
    apply list_elem_of_fmap in Hn as ([k n'] & -> & Hin).
    apply elem_of_map_to_list in Hin. by apply (Hno k). }
  destruct (sort_by_avail_spec (List.filter (eligible fileSize) visited))
    as [Hperm Hsorted].
  exists (sort_by_avail (List.filter (eligible fileSize) visited)).
  split; [|split].
  - rewrite Hperm, filter_eligible by done. by rewrite Hvis.
  - apply Sorted_by_free; [|done].
    rewrite Hperm, filter_eligible by done.
    apply Forall_forall. intros n Hn. apply list_elem_of_filter in Hn as [_ Hn].
    by apply (proj1 (Forall_forall _ _) Hrange).
  - rewrite min_Zmin. destruct (Z.ltb_spec (Z.min replicaCount
      (Z.of_nat (length (sort_by_avail (List.filter (eligible fileSize) visited)))))
      0); [lia|done].
Qed.

End Select.

Lemma example_no_overflow : no_overflow example_registry.
Proof.
  assert (H : map_Forall (fun _ n => int64_range (free n)) (nodes example_registry)).
  { apply (bool_decide_unpack _). vm_compute. reflexivity. }
  exact H.
Qed.

Lemma example_eligible :
  filter (Eligible 1000) (snd <$> map_to_list (nodes example_registry))
  = [ mkNode "n1" "10.0.0.1:9000" "active" 1000 6000 0;
      mkNode "n4" "10.0.0.4:9000" "active" 500 3500 0 ].
Proof. vm_compute. reflexivity. Qed.

(** C5. Whatever the order in which the registry is visited, and as long as
    no free space overflows [int64] and the replica count is not negative,
    the selection returns the ids of the first [min replicaCount
    eligibleCount] nodes of a ranking that lists exactly the nodes that are
    active with [storageMax - storageUsed >= fileSize], in descending order
    of free space.  On the four nodes of the example, a request of
    size 1000 with 3 replicas returns the node with 5000 free and then the
    node with 3000 free. *)
Theorem select_ranks_eligible_by_free_space
    (range_order : forall A, gmap string A -> list (string * A))
    fileSize replicaCount nm :
  RangeOrder range_order ->
  no_overflow nm ->
  0 <= replicaCount ->
  (exists ranked,
      ranked ≡ₚ filter (Eligible fileSize) (snd <$> map_to_list (nodes nm))
      /\ Sorted by_free_desc ranked
      /\ GetOptimalStorageNodes range_order fileSize replicaCount nm
         = Ok (ID <$> take (Z.to_nat (Z.min replicaCount (Z.of_nat (length ranked))))
                          ranked))
  /\ free <$> example_nodes = [5000; 0; 2000; 3000]
  /\ Status <$> example_nodes = ["active"; "active"; "failed"; "active"]
  /\ GetOptimalStorageNodes range_order 1000 3 example_registry = Ok ["n1"; "n4"].
Proof.
  intros Hord Hno Hrc. split; [by apply GetOptimalStorageNodes_ranked|].
  split; [reflexivity|]. split; [reflexivity|].
  pose proof example_no_overflow as Hex.
  destruct (GetOptimalStorageNodes_ranked range_order Hord 1000 3 example_registry
              Hex ltac:(lia)) as (ranked & Hperm & Hsorted & ->).
  f_equal. rewrite example_eligible in Hperm.
  pose proof (Permutation_length Hperm) as Hlen.
  destruct ranked as [|a [|b [|c ranked]]]; try done.
  apply Permutation_length_2 in Hperm as [[-> ->]|[-> ->]]; [reflexivity|].
  exfalso. apply Sorted_inv in Hsorted as [_ Hhd]. apply HdRel_inv in Hhd.
  unfold by_free_desc, free in Hhd. simpl in Hhd. lia.
Qed.

Lemma select_ranks_eligible_by_free_space_witness :
  RangeOrder (fun A m => map_to_list m)
  /\ no_overflow example_registry
  /\ 0 <= 3
  /\ GetOptimalStorageNodes (fun A m => map_to_list m) 1000 3 example_registry
     = Ok ["n1"; "n4"].
Proof.
  pose proof example_no_overflow as Hno.
  assert (Hrc : 0 <= 3) by lia.
  split; [exact RangeOrder_map_to_list|]. split; [exact Hno|]. split; [exact Hrc|].
  exact (proj2 (proj2 (proj2 (select_ranks_eligible_by_free_space
                                (fun A m => map_to_list m) 1000 3 example_registry
                                RangeOrder_map_to_list Hno Hrc)))).
Defined.

Lemma wrapped_registry_eligible :
  filter (Eligible 1000) (snd <$> map_to_list (nodes RegistryCases.wrapped_registry))
  = [ mkNode "n2" "tcp://10.0.0.2:9000" "active" 0 5000 4 ].
Proof. vm_compute. reflexivity. Qed.

Lemma wrapped_registry_selection :
  GetOptimalStorageNodes (fun A m => map_to_list m) 1000 2
                         RegistryCases.wrapped_registry
  = Ok ["n1"; "n2"].
Proof. vm_compute. reflexivity. Qed.

(** C5 as the specification states it fails in two places.  In a registry
    the operations reach, a node whose [storageMax - storageUsed] is below
    the size asked for is returned, ranked first, because the subtraction
    wraps around on [int64]: [n1] has 80 in use and, registered again, a
    capacity of [-2^63].  And with a negative replica count nothing is
    returned. *)
Lemma select_ranks_eligible_counterexample :
  let order := fun A (m : gmap string A) => map_to_list m in
  let n1 := mkNode "n1" "tcp://10.0.0.1:9000" "active" 80 (- 2 ^ 63) 3 in
  (nodes RegistryCases.wrapped_registry !! "n1" = Some n1
   /\ ¬ Eligible 1000 n1
   /\ avail n1 = 2 ^ 63 - 80
   /\ GetOptimalStorageNodes order 1000 2 RegistryCases.wrapped_registry
      = Ok ["n1"; "n2"]
   /\ ¬ (exists ranked,
           ranked ≡ₚ filter (Eligible 1000)
                       (snd <$> map_to_list (nodes RegistryCases.wrapped_registry))
           /\ Sorted by_free_desc ranked
           /\ GetOptimalStorageNodes order 1000 2 RegistryCases.wrapped_registry
              = Ok (ID <$> take (Z.to_nat (Z.min 2 (Z.of_nat (length ranked))))
                               ranked)))
  /\ ¬ (exists ranked,
          GetOptimalStorageNodes order 1000 (-1) example_registry
          = Ok (ID <$> take (Z.to_nat (Z.min (-1) (Z.of_nat (length ranked))))
                           ranked)).
Proof.
  intros order n1. split; [split; [|split; [|split; [|split]]]|].
  - vm_compute. reflexivity.
  - intros [_ Hfree]. unfold free in Hfree. simpl in Hfree. lia.
  - reflexivity.
  - exact wrapped_registry_selection.
  - intros (ranked & Hperm & _ & Hsel).
    rewrite wrapped_registry_eligible in Hperm.
    apply Permutation_singleton_r in Hperm as ->.
    unfold order in Hsel. rewrite wrapped_registry_selection in Hsel.
    discriminate Hsel.
  - intros (ranked & Hsel). vm_compute in Hsel. discriminate Hsel.
Qed.

(** C10. With a negative replica count the selection does not return: in
    every registry state, and whatever the size asked for, it panics when it
    allocates the result slice, whose length [min replicaCount
    eligibleCount] is negative. *)
Theorem select_negative_replicas_panics
    (range_order : forall A, gmap string A -> list (string * A))
    fileSize replicaCount nm :
  replicaCount < 0 ->
  GetOptimalStorageNodes range_order fileSize replicaCount nm
  = Panic "makeslice: len out of range"
  /\ (forall ids,
        GetOptimalStorageNodes range_order fileSize replicaCount nm ≠ Ok ids)
  /\ (forall msg,
        GetOptimalStorageNodes range_order fileSize replicaCount nm ≠ Err msg).
Proof.
  intros Hneg.
  assert (H : GetOptimalStorageNodes range_order fileSize replicaCount nm
              = Panic "makeslice: len out of range").
  { unfold GetOptimalStorageNodes. rewrite min_Zmin.
    match goal with |- context [?a <? 0] => destruct (Z.ltb_spec a 0) end;
      [done|lia]. }
  rewrite H. by repeat split.
Qed.

Lemma select_negative_replicas_panics_witness :
  -1 < 0
  /\ GetOptimalStorageNodes (fun A m => map_to_list m) 1000 (-1) example_registry
     = Panic "makeslice: len out of range".
Proof.
  assert (Hneg : -1 < 0) by lia.
  split; [exact Hneg|].
  exact (proj1 (select_negative_replicas_panics (fun A m => map_to_list m)
                  1000 (-1) example_registry Hneg)).
Defined.

(** The selection returns a list exactly when the replica count is not
    negative. *)
Lemma select_returns_iff
    (range_order : forall A, gmap string A -> list (string * A))
    fileSize replicaCount nm :
  (exists ids, GetOptimalStorageNodes range_order fileSize replicaCount nm = Ok ids)
  <-> 0 <= replicaCount.
Proof.
  unfold GetOptimalStorageNodes. rewrite min_Zmin.
  match goal with |- context [?a <? 0] => destruct (Z.ltb_spec a 0) end.
  - split; [by intros [ids ?]|lia].
  - split; [lia|eauto].
Qed.

End PlacementProps.

(** ** Chunk store *)

Module ChunkStoreProps.
Import ChunkStore.

(** *** Pieces of a byte stream *)

Lemma pieces_concat (fuel n : nat) : forall data : list byte,
  (0 < n)%nat -> (length data <= fuel)%nat -> concat (pieces fuel n data) = data.
Proof.
  induction fuel as [|fuel IH]; intros data Hn Hlen.
  - destruct data; [done|simpl in Hlen; lia].
  - destruct data as [|b data]; [done|].
    cbn [pieces concat]. rewrite IH; [apply take_drop|done|].
    rewrite length_drop. simpl in *. lia.
Qed.

Lemma pieces_fuel (n : nat) : forall (f1 f2 : nat) (data : list byte),
  (0 < n)%nat -> (length data <= f1)%nat -> (length data <= f2)%nat ->
  pieces f1 n data = pieces f2 n data.
Proof.
  induction f1 as [|f1 IH]; intros f2 data Hn H1 H2.
  - destruct data; [by destruct f2|simpl in H1; lia].
  - destruct data as [|b data]; [by destruct f2|].
    destruct f2 as [|f2]; [simpl in H2; lia|].
    cbn [pieces]. f_equal. apply IH; [done| |];
      rewrite length_drop; simpl in *; lia.
Qed.

Lemma split_bytes_nil n : split_bytes n [] = [].
Proof. done. Qed.

Lemma split_bytes_cons n (data : list byte) :
  (0 < n)%nat -> data ≠ [] ->
  split_bytes n data = take n data :: split_bytes n (drop n data).
Proof.
  intros Hn Hne. unfold split_bytes. destruct data as [|b data]; [done|].
  cbn [length pieces]. f_equal. apply pieces_fuel; [done| |done].
  rewrite length_drop. simpl. lia.
Qed.

Lemma split_bytes_concat n (data : list byte) :
  (0 < n)%nat -> concat (split_bytes n data) = data.
Proof. intros Hn. by apply pieces_concat. Qed.

(** Every piece holds at least one byte and at most [n]. *)
Lemma pieces_length (fuel n : nat) : forall data : list byte,
  (0 < n)%nat ->
  Forall (fun p => (0 < length p <= n)%nat) (pieces fuel n data).
Proof.
  induction fuel as [|fuel IH]; intros data Hn; [constructor|].
  destruct data as [|b data]; [constructor|].
  cbn [pieces]. constructor; [|by apply IH].
  rewrite length_take. simpl. lia.
Qed.

(** *** Splitting *)

Section Split.

Variable sha256_hex : list byte -> string.
Variable filepath_Join : string -> string -> string.

Lemma drop_after_chunk (n offset : nat) (F : list byte) :
  drop (offset + length (take n (drop offset F))) F = drop n (drop offset F).
Proof.
  rewrite drop_drop, length_take, length_drop.
  destruct (decide (n <= length F - offset)%nat) as [Hle|Hgt].
  - by rewrite Nat.min_l.
  - rewrite Nat.min_r by lia. rewrite !drop_ge; [done|lia|lia].
Qed.

Lemma chunk_loop_spec (filePath fileID dir : string) (F : list byte) :
  (forall id, filePath ≠ filepath_Join dir id) ->
  forall (fuel offset : nat) (index : Z) (chunks : list ChunkInfo)
         (fc : FileChunker) (st : disk),
    st !! filePath = Some F ->
    0 < chunkSize fc ->
    (length F - offset < fuel)%nat ->
    let ps := split_bytes (Z.to_nat (chunkSize fc)) (drop offset F) in
    chunk_loop sha256_hex filepath_Join fuel filePath fileID dir
               offset index chunks fc st
    = Some (Ok (chunks ++ chunk_infos sha256_hex fileID index ps),
            store_meta (chunk_infos sha256_hex fileID index ps) fc,
            store_pieces sha256_hex filepath_Join dir ps st).
Proof.
  intros Hpath. induction fuel as [|fuel IH];
    intros offset index chunks fc st Hst Hsize Hfuel ps; [lia|].
  cbn [chunk_loop]. unfold file_Read. rewrite Hst.
  destruct (decide (Z.to_nat (chunkSize fc) = 0%nat)) as [|_]; [lia|].
  destruct (decide (length F <= offset)%nat) as [Hend|Hmore].
  - subst ps. rewrite drop_ge by done. by rewrite split_bytes_nil, app_nil_r.
  - set (n := Z.to_nat (chunkSize fc)) in *.
    assert (Hps : ps = take n (drop offset F) :: split_bytes n (drop n (drop offset F))).
    { subst ps. apply split_bytes_cons; [lia|].
      intros Hnil. apply (f_equal length) in Hnil.
      rewrite length_drop in Hnil. simpl in Hnil. lia. }
    rewrite Hps. set (chunk := take n (drop offset F)).
    assert (Hlen : (0 < length chunk)%nat).
    { unfold chunk. rewrite length_take, length_drop. lia. }
    rewrite IH; cbn [chunkSize].
    + fold n.
      replace (drop (offset + length chunk) F) with (drop n (drop offset F))
        by (symmetry; apply drop_after_chunk).
      cbn [chunk_infos store_pieces store_meta foldl ID].
      by rewrite <- app_assoc.
    + by rewrite lookup_insert_ne.
    + done.
    + lia.
Qed.

Lemma ChunkFile_spec (fuel : nat) (filePath : string) (F : list byte)
    (fc : FileChunker) (st : disk) :
  let fileID := sha256_hex F in
  let dir := filepath_Join (chunksDir fc) fileID in
  let ps := split_bytes (Z.to_nat (chunkSize fc)) F in
  st !! filePath = Some F ->
  (forall id, filePath ≠ filepath_Join dir id) ->
  0 < chunkSize fc ->
  (length F < fuel)%nat ->
  ChunkFile sha256_hex filepath_Join fuel filePath fc st
  = Some (Ok (fileID, chunk_infos sha256_hex fileID 0 ps),
          store_meta (chunk_infos sha256_hex fileID 0 ps) fc,
          store_pieces sha256_hex filepath_Join dir ps st).
Proof.
  intros fileID dir ps Hst Hpath Hsize Hfuel. unfold ChunkFile. rewrite Hst.
  destruct (Z.ltb_spec (chunkSize fc) 0) as [|_]; [lia|].
  rewrite (chunk_loop_spec filePath (sha256_hex F) dir F Hpath) by (done || lia).
  by rewrite drop_0.
Qed.

Lemma store_meta_chunksDir infos fc : chunksDir (store_meta infos fc) = chunksDir fc.
Proof. revert fc. induction infos as [|i infos IH]; intros fc; [done|]. simpl. by rewrite IH. Qed.

(** Once [q] is on the disk under its own name, or is one of the pieces to
    store, it is there after the pieces are stored, provided no other piece
    goes under the same name. *)
Lemma store_pieces_lookup (dir : string) (q : list byte) :
  forall (ps : list (list byte)) (st : disk),
    (forall p, p ∈ ps ->
       filepath_Join dir (sha256_hex p) = filepath_Join dir (sha256_hex q) -> p = q) ->
    q ∈ ps \/ st !! filepath_Join dir (sha256_hex q) = Some q ->
    store_pieces sha256_hex filepath_Join dir ps st
      !! filepath_Join dir (sha256_hex q) = Some q.
Proof.
  induction ps as [|p ps IH]; intros st Hinj Hq.
  - destruct Hq as [Hq|Hq]; [by apply elem_of_nil in Hq|done].
  - cbn [store_pieces foldl]. apply IH.
    + intros p' Hp'. apply Hinj. by right.
    + destruct Hq as [Hq|Hq].
      * apply elem_of_cons in Hq as [->|Hq]; [right; apply lookup_insert_eq|by left].
      * right. rewrite lookup_insert. case_decide as Heq; [|done].
        f_equal. apply Hinj; [by left|done].
Qed.

Lemma store_pieces_cons (dir : string) (p : list byte) ps (st : disk) :
  store_pieces sha256_hex filepath_Join dir (p :: ps) st
  = store_pieces sha256_hex filepath_Join dir ps
                 (<[filepath_Join dir (sha256_hex p) := p]> st).
Proof. reflexivity. Qed.

Lemma store_pieces_other (dir path : string) :
  forall (ps : list (list byte)) (st : disk),
    (forall id, path ≠ filepath_Join dir id) ->
    store_pieces sha256_hex filepath_Join dir ps st !! path = st !! path.
Proof.
  induction ps as [|p ps IH]; intros st Hpath; [done|].
  rewrite store_pieces_cons, IH by done. by rewrite lookup_insert_ne.
Qed.

(** *** The chunk list of a split *)

Lemma chunk_infos_length fileID index ps :
  length (chunk_infos sha256_hex fileID index ps) = length ps.
Proof. revert index. induction ps as [|p ps IH]; intros index; [done|]. simpl. by rewrite IH. Qed.

Lemma chunk_infos_Index fileID ps : forall k : nat,
  Index <$> chunk_infos sha256_hex fileID (Z.of_nat k) ps
  = Z.of_nat <$> seq k (length ps).
Proof.
  induction ps as [|p ps IH]; intros k; [done|].
  cbn [chunk_infos length seq fmap list_fmap Index]. f_equal.
  replace (Z.of_nat k + 1) with (Z.of_nat (S k)) by lia. apply IH.
Qed.

Lemma chunk_infos_ID fileID index ps :
  ID <$> chunk_infos sha256_hex fileID index ps = sha256_hex <$> ps.
Proof. revert index. induction ps as [|p ps IH]; intros index; [done|]. simpl. by rewrite IH. Qed.

Lemma chunk_infos_lookup fileID ps : forall index (i : nat) c,
  chunk_infos sha256_hex fileID index ps !! i = Some c ->
  exists p, ps !! i = Some p
            /\ c = mkChunkInfo (sha256_hex p) (index + Z.of_nat i)
                               (Z.of_nat (length p)) fileID "".
Proof.
  induction ps as [|p ps IH]; intros index i c Hc; [done|].
  destruct i as [|i]; simpl in Hc.
  - injection Hc as <-. exists p. split; [done|]. f_equal. lia.
  - apply IH in Hc as (q & Hq & ->). exists q. split; [done|]. f_equal. lia.
Qed.

(** *** Reassembly *)

Lemma place_chunks_dense fileID : forall (ps : list (list byte)) (placed : list ChunkInfo),
  place_chunks (Z.of_nat (length placed + length ps))
               (chunk_infos sha256_hex fileID (Z.of_nat (length placed)) ps)
               ((Some <$> placed) ++ replicate (length ps) None)
  = Ok (Some <$> (placed ++ chunk_infos sha256_hex fileID
                                        (Z.of_nat (length placed)) ps)).
Proof.
  induction ps as [|p ps IH]; intros placed.
  - simpl. by rewrite !app_nil_r.
  - cbn [chunk_infos place_chunks Index length replicate].
    destruct (Z.ltb_spec (Z.of_nat (length placed)) 0) as [|_]; [lia|].
    destruct (Z.geb_spec (Z.of_nat (length placed))
                (Z.of_nat (length placed + S (length ps)))) as [|_]; [lia|].
    cbn [orb]. rewrite Nat2Z.id.
    rewrite insert_app_r_alt by (rewrite length_fmap; lia).
    rewrite length_fmap, Nat.sub_diag. cbn [insert list_insert].
    set (info := mkChunkInfo _ _ _ _ _).
    specialize (IH (placed ++ [info])).
    rewrite length_app in IH. cbn [length] in IH.
    replace (length placed + 1 + length ps)%nat
      with (length placed + S (length ps))%nat in IH by lia.
    replace (Z.of_nat (length placed + 1)) with (Z.of_nat (length placed) + 1)
      in IH by lia.
    rewrite fmap_app, <- !app_assoc in IH. cbn [fmap list_fmap app] in IH.
    rewrite IH. do 2 f_equal.
Qed.

Lemma write_chunks_spec fileID (dir out : string) :
  (forall id, out ≠ filepath_Join dir id) ->
  forall (ps : list (list byte)) (index : Z) (st : disk) (written : list byte),
    st !! out = Some written ->
    (forall p, p ∈ ps -> st !! filepath_Join dir (sha256_hex p) = Some p) ->
    write_chunks filepath_Join dir out
                 (Some <$> chunk_infos sha256_hex fileID index ps) st
    = (Ok tt, <[out := written ++ concat ps]> st).
Proof.
  intros Hout. induction ps as [|p ps IH]; intros index st written Hw Hps.
  - simpl. rewrite app_nil_r. by rewrite insert_id.
  - cbn [chunk_infos fmap list_fmap write_chunks ID].
    rewrite (Hps p) by (by left).
    unfold file_Write. rewrite Hw. cbn [default].
    rewrite (IH _ _ (written ++ p)).
    + by rewrite insert_insert_eq, <- app_assoc.
    + apply lookup_insert_eq.
    + intros q Hq. rewrite lookup_insert_ne by done. apply Hps. by right.
Qed.

End Split.

Lemma NewFileChunker_chunkSize dir size :
  0 < chunkSize (NewFileChunker dir size) <= MaxChunkSize.
Proof.
  unfold NewFileChunker, DefaultChunkSize, MaxChunkSize. simpl.
  destruct (Z.leb_spec size 0);
    repeat match goal with |- context [?a >? ?b] => destruct (Z.gtb_spec a b) end;
    lia.
Qed.


Lemma sample_Join_inj dir a b : sample_Join dir a = sample_Join dir b -> a = b.
Proof.
  unfold sample_Join. induction dir as [|c dir IH]; simpl.
  - by intros [= H].
  - intros [= H]. by apply IH.
Qed.

Lemma sample_hash_inj p q : sample_hash p = sample_hash q -> p = q.
Proof.
  unfold sample_hash. intros H.
  apply (f_equal String.list_byte_of_string) in H.
  by rewrite !String.list_byte_of_string_of_list_byte in H.
Qed.


(** *** Chunk indices that [ReassembleFile] is given *)

Section Indices.

Variable filepath_Join : string -> string -> string.

Lemma place_chunks_out_of_range (n : Z) : forall chunks sortedChunks,
  Exists (fun c => Index c < 0 \/ n <= Index c) chunks ->
  place_chunks n chunks sortedChunks = Err err_invalid_index.
Proof.
  induction chunks as [|c chunks IH]; intros sortedChunks Hex.
  - by apply Exists_nil in Hex.
  - cbn [place_chunks].
    destruct (Z.ltb_spec (Index c) 0) as [|Hlo]; [done|].
    destruct (Z.geb_spec (Index c) n) as [|Hhi]; [done|]. cbn [orb].
    apply IH. apply Exists_cons in Hex as [[?|?]|Hex]; [lia|lia|done].
Qed.

Lemma place_chunks_in_range (n : Z) : forall chunks sortedChunks,
  Forall (fun c => 0 <= Index c < n) chunks ->
  exists placed, place_chunks n chunks sortedChunks = Ok placed.
Proof.
  induction chunks as [|c chunks IH]; intros sortedChunks Hall; [by eexists|].
  apply Forall_cons in Hall as [Hc Hall]. cbn [place_chunks].
  destruct (Z.ltb_spec (Index c) 0) as [|_]; [lia|].
  destruct (Z.geb_spec (Index c) n) as [|_]; [lia|]. by apply IH.
Qed.

Lemma write_chunks_never_invalid_index dir out : forall sortedChunks (st : disk),
  (write_chunks filepath_Join dir out sortedChunks st).1 ≠ Err err_invalid_index.
Proof.
  induction sortedChunks as [|[c|] sortedChunks IH]; intros st; simpl; [done| |done].
  destruct (st !! filepath_Join dir (ID c)); [apply IH|done].
Qed.

(** An index outside [0, N) is refused with InvalidInput; the output file
    has been created by then, and is empty. *)
Lemma reassemble_index_out_of_range fileID chunks outputPath fc (st : disk) :
  Exists (fun c => Index c < 0 \/ Z.of_nat (length chunks) <= Index c) chunks ->
  ReassembleFile filepath_Join fileID chunks outputPath fc st
  = (Err err_invalid_index, <[outputPath := []]> st)
  /\ error_kind err_invalid_index = Some InvalidInput.
Proof.
  intros Hex. split; [|done]. unfold ReassembleFile.
  by rewrite place_chunks_out_of_range.
Qed.

(** Indices that all lie in [0, N) are never refused with InvalidInput,
    dense or not. *)
Lemma reassemble_in_range_not_refused fileID chunks outputPath fc (st : disk) :
  Forall (fun c => 0 <= Index c < Z.of_nat (length chunks)) chunks ->
  (ReassembleFile filepath_Join fileID chunks outputPath fc st).1
  ≠ Err err_invalid_index.
Proof.
  intros Hall. unfold ReassembleFile.
  destruct (place_chunks_in_range _ chunks (replicate (length chunks) None) Hall)
    as [placed ->].
  apply write_chunks_never_invalid_index.
Qed.

End Indices.

(** C2. [ReassembleFile] refuses an index outside [0, N) with InvalidInput,
    but not every list whose indices are not a dense permutation: given the
    same chunk of index 0 twice, it writes that chunk and then panics on the
    entry of index 1, which was never assigned. *)
Theorem reassemble_duplicate_index_panics
    (filepath_Join : string -> string -> string)
    fileID outputPath fc (st : disk) c data :
  Index c = 0 ->
  st !! filepath_Join (filepath_Join (chunksDir fc) fileID) (ID c) = Some data ->
  outputPath ≠ filepath_Join (filepath_Join (chunksDir fc) fileID) (ID c) ->
  ¬ dense_indices [c; c]
  /\ ReassembleFile filepath_Join fileID [c; c] outputPath fc st
     = (Panic "invalid memory address or nil pointer dereference",
        <[outputPath := data]> st).
Proof.
  intros Hidx Hdata Hout. split.
  - unfold dense_indices. simpl. rewrite Hidx. intros Hperm.
    apply Permutation_length_2 in Hperm as [[_ ?]|[? _]]; lia.
  - unfold ReassembleFile. cbn [length place_chunks replicate]. rewrite Hidx.
    change (0 >=? Z.of_nat 2) with false. change (Z.to_nat 0) with 0%nat.
    cbn [orb Z.ltb Z.compare insert list_insert write_chunks].
    rewrite lookup_insert_ne by done. rewrite Hdata.
    unfold file_Write. rewrite lookup_insert_eq. cbn [default app].
    by rewrite insert_insert_eq.
Qed.

Lemma reassemble_duplicate_index_panics_witness :
  let c := mkChunkInfo "ab" 0 2 "abcde" "" in
  let st : disk := {[ "chunks/abcde/ab" := [x61; x62]%byte ]} in
  let fc := NewFileChunker "chunks" 2 in
  Index c = 0
  /\ st !! sample_Join (sample_Join (chunksDir fc) "abcde") (ID c)
     = Some [x61; x62]%byte
  /\ "out.bin" ≠ sample_Join (sample_Join (chunksDir fc) "abcde") (ID c)
  /\ (¬ dense_indices [c; c]
      /\ ReassembleFile sample_Join "abcde" [c; c] "out.bin" fc st
         = (Panic "invalid memory address or nil pointer dereference",
            <["out.bin" := [x61; x62]%byte]> st)).
Proof.
  intros c st fc.
  assert (H1 : Index c = 0) by reflexivity.
  assert (H2 : st !! sample_Join (sample_Join (chunksDir fc) "abcde") (ID c)
               = Some [x61; x62]%byte) by reflexivity.
  assert (H3 : "out.bin" ≠ sample_Join (sample_Join (chunksDir fc) "abcde") (ID c))
    by discriminate.
  split; [exact H1|]. split; [exact H2|]. split; [exact H3|].
  exact (reassemble_duplicate_index_panics sample_Join "abcde" "out.bin" fc st c
           [x61; x62]%byte H1 H2 H3).
Defined.

End ChunkStoreProps.

(** ** Overlay *)

Module OverlayProps.
Import Overlay.

(** *** Disconnecting *)

Lemma find_no_match (peerID : string) (l : list Peer) :
  Forall (fun pr => ID pr ≠ peerID) l ->
  List.find (fun pr => String.eqb (ID pr) peerID) l = None.
Proof.
  induction 1 as [|pr l Hpr _ IH]; [done|]. simpl.
  by destruct (String.eqb_spec (ID pr) peerID).
Qed.

(** C8. Disconnecting a peer id that no peer has fails with NotFound, and
    the network is returned as it was: the peer map, every peer in it and
    every socket are unchanged. *)
Theorem disconnect_unknown_peer
    (range_order : forall A, gmap string A -> list (string * A))
    (peerID : string) (p : P2PNetwork) :
  RangeOrder range_order ->
  (forall address pr, peers p !! address = Some pr -> ID pr ≠ peerID) ->
  DisconnectPeer range_order peerID p = (Err err_peer_not_found, p)
  /\ error_kind err_peer_not_found = Some NotFound.
Proof.
  intros Hord Hnone. split; [|done]. unfold DisconnectPeer.
  rewrite find_no_match; [done|].
  apply Forall_forall. intros pr Hpr.
  apply list_elem_of_fmap in Hpr as ([address pr'] & -> & Hin).
  rewrite (Hord Peer (peers p)) in Hin.
  apply elem_of_map_to_list in Hin. by apply (Hnone address).
Qed.

Lemma disconnect_unknown_peer_witness :
  RangeOrder (fun A m => map_to_list m)
  /\ (forall address pr,
        peers sample_network !! address = Some pr -> ID pr ≠ "node-7")
  /\ (DisconnectPeer (fun A m => map_to_list m) "node-7" sample_network
      = (Err err_peer_not_found, sample_network)
      /\ error_kind err_peer_not_found = Some NotFound).
Proof.
  assert (H : forall address pr,
             peers sample_network !! address = Some pr -> ID pr ≠ "node-7").
  { intros address pr Hpr. simpl in Hpr.
    apply lookup_singleton_Some in Hpr as [_ <-]. discriminate. }
  split; [exact RangeOrder_map_to_list|]. split; [exact H|].
  exact (disconnect_unknown_peer (fun A m => map_to_list m) "node-7" sample_network
           RangeOrder_map_to_list H).
Defined.

(** *** The read loop *)

Lemma ReadFull_prefix (data rest : list byte) :
  ReadFull (length data) (mkSocket (data ++ rest) false)
  = (Some data, mkSocket rest false).
Proof.
  unfold ReadFull. cbn [closed inbound].
  destruct (decide (length data <= length (data ++ rest))%nat) as [_|Hn].
  - by rewrite take_app_length, drop_app_length.
  - rewrite length_app in Hn. lia.
Qed.

Section ReadLoop.

Variable World : Type.
Variable DecodeMessage : list byte -> option Message.
Variable handlers : Z -> option (MessageHandler World).
Variable clock : nat -> Z.

(** Reading one well-framed frame off an open socket. *)
Lemma read_frame (st : conn_state World) (lenBuf envelope rest : list byte) :
  closed (sock st) = false ->
  inbound (sock st) = lenBuf ++ envelope ++ rest ->
  framed lenBuf envelope ->
  ReadFull 4 (sock st) = (Some lenBuf, mkSocket (envelope ++ rest) false)
  /\ ReadFull (Z.to_nat (Uint32 lenBuf)) (mkSocket (envelope ++ rest) false)
     = (Some envelope, mkSocket rest false).
Proof.
  intros Hopen Hin [Hlen Hval]. split.
  - destruct (sock st) as [inb cl]. simpl in *. subst inb cl.
    rewrite <- Hlen. apply ReadFull_prefix.
  - rewrite Hval, Nat2Z.id. apply ReadFull_prefix.
Qed.

(** An iteration that goes on to the next one has taken a whole frame off
    the stream. *)
Lemma read_iteration_consumes (st st' : conn_state World) :
  read_iteration DecodeMessage handlers clock st = (Continue, st') ->
  (length (inbound (sock st')) + 4 <= length (inbound (sock st)))%nat.
Proof.
  unfold Overlay.read_iteration, ReadFull.
  destruct (closed (sock st)); [by intros [=]|].
  destruct (decide (4 <= length (inbound (sock st)))%nat) as [H4|]; [|by intros [=]].
  cbn [closed inbound].
  destruct (decide _) as [Hm|]; [|by intros [=]].
  assert (Hgoal : (length (drop (Z.to_nat (Uint32 (take 4 (inbound (sock st)))))
                     (drop 4 (inbound (sock st)))) + 4
                   <= length (inbound (sock st)))%nat).
  { rewrite !length_drop. lia. }
  destruct (DecodeMessage _) as [msg|]; [|by intros [= <-]].
  destruct (handlers (Type_ msg)) as [h|]; [|by intros [= <-]].
  destruct (h _ msg (world st)) as [[pr w] err]. by intros [= <-].
Qed.

(** The loop returns, and it leaves the peer inactive. *)
Lemma handleConnection_returns : forall (fuel : nat) (st : conn_state World),
  (length (inbound (sock st)) < fuel)%nat ->
  exists final,
    handleConnection DecodeMessage handlers clock fuel st = Some final
    /\ IsActive (peer final) = false.
Proof.
  induction fuel as [|fuel IH]; intros st Hfuel; [lia|].
  cbn [Overlay.handleConnection].
  destruct (read_iteration DecodeMessage handlers clock st) as [[|] st'] eqn:Hit.
  - apply read_iteration_consumes in Hit. apply IH. lia.
  - by eexists.
Qed.


End ReadLoop.


End OverlayProps.

(** * Further properties *)

(** ** Node registry: reading back, removal, and what every state satisfies *)

Module RegistryMoreProps.
Import Registry RegistryMore.

(** X1. [UpdateNodeStorage] succeeds exactly when the node exists and
    [0 <= storageUsed <= StorageMax].  When it succeeds the node read back
    has the new usage and the new time and is otherwise as before, and
    nothing else changes; when it fails the registry is unchanged. *)
Theorem UpdateNodeStorage_read_back now id storageUsed nm :
  ((exists nm', UpdateNodeStorage now id storageUsed nm = (Ok tt, nm'))
   <-> exists n, nodes nm !! id = Some n /\ 0 <= storageUsed <= StorageMax n)
  /\ (forall res nm',
        UpdateNodeStorage now id storageUsed nm = (res, nm') ->
        match res with
        | Ok _ =>
            exists n, nodes nm !! id = Some n
              /\ GetNode id nm'
                 = Ok (mkNode (ID n) (Address n) (Status n) storageUsed
                              (StorageMax n) now)
              /\ (forall id', id' ≠ id -> GetNode id' nm' = GetNode id' nm)
              /\ nodeAddrs nm' = nodeAddrs nm
        | _ => nm' = nm
        end).
Proof.
  unfold UpdateNodeStorage, GetNode. split.
  - destruct (nodes nm !! id) as [n|] eqn:E.
    + destruct (Z.ltb_spec storageUsed 0);
        [|destruct (Z.gtb_spec storageUsed (StorageMax n))].
      * split; [by intros [? [=]]|]. intros (n' & [= <-] & ?). lia.
      * split; [by intros [? [=]]|]. intros (n' & [= <-] & ?). lia.
      * split; [|by eauto]. intros _. exists n. split; [done|lia].
    + split; [by intros [? [=]]|]. by intros (n' & [=] & ?).
  - intros res nm'. destruct (nodes nm !! id) as [n|] eqn:E.
    + destruct (Z.ltb_spec storageUsed 0);
        [|destruct (Z.gtb_spec storageUsed (StorageMax n))];
        intros [= <- <-]; try done.
      exists n. simpl. split; [done|]. split; [by rewrite lookup_insert_eq|].
      split; [|done]. intros id' Hne. by rewrite lookup_insert_ne.
    + by intros [= <- <-].
Qed.

Lemma status_test_valid status :
  negb (String.eqb status "active") && negb (String.eqb status "inactive")
  && negb (String.eqb status "failed") = false
  <-> valid_status status.
Proof.
  unfold valid_status.
  destruct (String.eqb_spec status "active");
    destruct (String.eqb_spec status "inactive");
    destruct (String.eqb_spec status "failed"); simpl; intuition congruence.
Qed.

(** X2. [UpdateNodeStatus] succeeds exactly when the node exists and the
    status is one of "active", "inactive" and "failed"; an unknown node is
    reported before a bad status is.  When it succeeds the node read back
    has the new status and time and is otherwise as before; when it fails
    the registry is unchanged. *)
Theorem UpdateNodeStatus_read_back now id status nm :
  ((exists nm', UpdateNodeStatus now id status nm = (Ok tt, nm'))
   <-> is_Some (nodes nm !! id) /\ valid_status status)
  /\ (nodes nm !! id = None ->
      UpdateNodeStatus now id status nm = (Err err_node_not_found, nm))
  /\ (forall res nm',
        UpdateNodeStatus now id status nm = (res, nm') ->
        match res with
        | Ok _ =>
            exists n, nodes nm !! id = Some n
              /\ GetNode id nm'
                 = Ok (mkNode (ID n) (Address n) status (StorageUsed n)
                              (StorageMax n) now)
              /\ (forall id', id' ≠ id -> GetNode id' nm' = GetNode id' nm)
              /\ nodeAddrs nm' = nodeAddrs nm
        | _ => nm' = nm
        end).
Proof.
  unfold UpdateNodeStatus, GetNode.
  pose proof (status_test_valid status) as Hvalid.
  destruct (nodes nm !! id) as [n|] eqn:E.
  - destruct (negb (String.eqb status "active") && negb (String.eqb status "inactive")
              && negb (String.eqb status "failed")).
    + split; [|split; [done|]].
      * split; [by intros [? [=]]|]. intros [_ Hv]. by apply Hvalid in Hv.
      * by intros res nm' [= <- <-].
    + split; [|split; [done|]].
      * split; [|by eauto]. intros _. split; [by eauto|by apply Hvalid].
      * intros res nm' [= <- <-]. exists n. simpl. split; [done|].
        split; [by rewrite lookup_insert_eq|]. split; [|done].
        intros id' Hne. by rewrite lookup_insert_ne.
  - split; [|split; [done|by intros res nm' [= <- <-]]].
    split; [by intros [? [=]]|]. by intros [[? [=]] _].
Qed.

Section Facts.

Variable url_Parse : string -> bool.

(** X3. Registering a node under an id and an address the registry does
    not know, and removing it, gives the registry back as it was. *)
Theorem register_remove_round_trip now id address storageMax nm :
  well_formed url_Parse address ->
  nodes nm !! id = None ->
  nodeAddrs nm !! address = None ->
  exists node nm1,
    RegisterNode url_Parse now id address storageMax nm = (Ok node, nm1)
    /\ GetNode id nm1 = Ok node
    /\ RemoveNode id nm1 = (Ok tt, nm)
    /\ GetNode id nm = Err err_node_not_found.
Proof.
  unfold well_formed. intros Hp Hid Ha.
  unfold RegisterNode, RemoveNode, GetNode. rewrite Hp, Ha, Hid. simpl.
  eexists _, _. split; [reflexivity|]. simpl. rewrite lookup_insert_eq.
  split; [done|]. split; [|done]. simpl.
  rewrite !delete_insert_id by done. by destruct nm.
Qed.

(** Every operation keeps the registry consistent. *)
Lemma after_call_consistent nm c :
  consistent nm -> consistent (after_call url_Parse nm c).
Proof.
  intros Hc. destruct c as [now id address storageMax|now id status
                            |now id storageUsed|id|now id]; cbn [after_call].
  - destruct (RegisterNode url_Parse now id address storageMax nm)
      as [[node|msg|msg] nm'] eqn:Hreg; cbn [snd].
    + apply RegistryProps.RegisterNode_ok in Hreg as (_ & Hfree & -> & Hnodes & Haddrs).
      intros k n. rewrite Hnodes, Haddrs, lookup_insert. case_decide as Hk.
      * subst k. intros [= <-].
        destruct (nodes nm !! id) as [n0|] eqn:E; cbn.
        -- destruct (Hc _ _ E) as (Hid & _ & Hused & _).
           rewrite lookup_insert_eq. unfold valid_status. auto.
        -- rewrite lookup_insert_eq. unfold valid_status. repeat split; auto; lia.
      * intros Hn. destruct (Hc _ _ Hn) as (Hid & Ha & Hrest).
        split; [done|]. split; [|done].
        rewrite lookup_insert_ne; [done|]. intros Heq. rewrite Heq in Hfree.
        destruct Hfree as [Hfree|Hfree]; congruence.
    + unfold RegisterNode in Hreg. repeat case_match; by simplify_eq.
    + unfold RegisterNode in Hreg. repeat case_match; by simplify_eq.
  - unfold UpdateNodeStatus. destruct (nodes nm !! id) as [n0|] eqn:E; [|done].
    pose proof (status_test_valid status) as Hvalid.
    destruct (negb _ && negb _ && negb _); [done|]. cbn.
    intros k n. cbn [nodes nodeAddrs]. rewrite lookup_insert. case_decide as Hk.
    + subst k. intros [= <-]. cbn. destruct (Hc _ _ E) as (? & ? & ? & _).
      repeat split; try done; by apply Hvalid.
    + apply Hc.
  - unfold UpdateNodeStorage. destruct (nodes nm !! id) as [n0|] eqn:E; [|done].
    destruct (Z.ltb_spec storageUsed 0); [done|].
    destruct (Z.gtb_spec storageUsed (StorageMax n0)); [done|]. cbn.
    intros k n. cbn [nodes nodeAddrs]. rewrite lookup_insert. case_decide as Hk.
    + subst k. intros [= <-]. cbn. destruct (Hc _ _ E) as (? & ? & _ & ?).
      by repeat split.
    + apply Hc.
  - unfold RemoveNode. destruct (nodes nm !! id) as [n0|] eqn:E; [|done]. cbn.
    intros k n. cbn [nodes nodeAddrs]. rewrite lookup_delete. case_decide as Hk; [done|].
    intros Hn. destruct (Hc _ _ Hn) as (Hid & Ha & Hrest).
    split; [done|]. split; [|done].
    rewrite lookup_delete_ne; [done|]. intros Heq.
    destruct (Hc _ _ E) as (_ & Ha0 & _). congruence.
  - unfold HeartbeatNode. destruct (nodes nm !! id) as [n0|] eqn:E; [|done]. cbn.
    intros k n. cbn [nodes nodeAddrs]. rewrite lookup_insert. case_decide as Hk.
    + subst k. intros [= <-]. cbn. apply (Hc _ _ E).
    + apply Hc.
Qed.

Lemma after_calls_consistent (cs : list call) :
  consistent (after_calls url_Parse cs).
Proof.
  unfold after_calls.
  assert (Hgen : forall nm, consistent nm -> consistent (foldl (after_call url_Parse) nm cs)).
  { induction cs as [|c cs IH]; intros nm Hc; [done|].
    cbn [foldl]. by apply IH, after_call_consistent. }
  apply Hgen. by intros id n.
Qed.

(** X4. After any sequence of calls on a new node manager, the reverse
    index binds the address of every node to the id of that node, and so no
    two nodes have the same address. *)
Theorem reachable_addresses_unique (cs : list call) :
  let nm := after_calls url_Parse cs in
  (forall id n, nodes nm !! id = Some n -> nodeAddrs nm !! Address n = Some id)
  /\ (forall id1 id2 n1 n2,
        nodes nm !! id1 = Some n1 -> nodes nm !! id2 = Some n2 ->
        Address n1 = Address n2 -> id1 = id2).
Proof.
  intros nm. pose proof (after_calls_consistent cs) as Hc. fold nm in Hc. split.
  - intros id n Hn. by destruct (Hc _ _ Hn) as (_ & ? & _).
  - intros id1 id2 n1 n2 H1 H2 Heq.
    destruct (Hc _ _ H1) as (_ & Ha1 & _). destruct (Hc _ _ H2) as (_ & Ha2 & _).
    congruence.
Qed.

(** X5. After any sequence of calls on a new node manager, every node is
    filed under its own id, uses no negative amount of storage, and has one
    of the statuses "active", "inactive" and "failed". *)
Theorem reachable_nodes_well_formed (cs : list call) :
  forall id n,
    nodes (after_calls url_Parse cs) !! id = Some n ->
    ID n = id /\ 0 <= StorageUsed n /\ valid_status (Status n).
Proof.
  intros id n Hn.
  by destruct (after_calls_consistent cs _ _ Hn) as (? & _ & ? & ?).
Qed.

End Facts.

Lemma reachable_nodes_well_formed_witness :
  let cs := [CallRegisterNode 1 "n1" "10.0.0.1:9000" 100;
             CallUpdateNodeStorage 2 "n1" 40] in
  let n := mkNode "n1" "10.0.0.1:9000" "active" 40 100 2 in
  nodes (after_calls sample_url_Parse cs) !! "n1" = Some n
  /\ (ID n = "n1" /\ 0 <= StorageUsed n /\ valid_status (Status n)).
Proof.
  intros cs n.
  assert (H : nodes (after_calls sample_url_Parse cs) !! "n1" = Some n)
    by reflexivity.
  split; [exact H|].
  exact (reachable_nodes_well_formed sample_url_Parse cs "n1" n H).
Defined.

Lemma register_remove_round_trip_witness :
  well_formed sample_url_Parse "10.0.0.1:9000"
  /\ nodes NewNodeManager !! "n1" = None
  /\ nodeAddrs NewNodeManager !! "10.0.0.1:9000" = None
  /\ exists node nm1,
       RegisterNode sample_url_Parse 1 "n1" "10.0.0.1:9000" 100 NewNodeManager
       = (Ok node, nm1)
       /\ GetNode "n1" nm1 = Ok node
       /\ RemoveNode "n1" nm1 = (Ok tt, NewNodeManager)
       /\ GetNode "n1" NewNodeManager = Err err_node_not_found.
Proof.
  assert (H1 : well_formed sample_url_Parse "10.0.0.1:9000") by reflexivity.
  assert (H2 : nodes NewNodeManager !! "n1" = None) by reflexivity.
  assert (H3 : nodeAddrs NewNodeManager !! "10.0.0.1:9000" = None) by reflexivity.
  split; [exact H1|]. split; [exact H2|]. split; [exact H3|].
  exact (register_remove_round_trip sample_url_Parse 1 "n1" "10.0.0.1:9000" 100 NewNodeManager
           H1 H2 H3).
Defined.

End RegistryMoreProps.

(** ** The status report *)

Module ApiProps.
Import Registry RegistryMore Api.

Lemma wrap64_range z : int64_range (wrap64 z).
Proof.
  unfold int64_range, wrap64.
  pose proof (Z.mod_pos_bound (z + 2 ^ 63) (2 ^ 64) ltac:(lia)). lia.
Qed.

Lemma wrap64_add_l a b : wrap64 (wrap64 a + b) = wrap64 (a + b).
Proof.
  unfold wrap64. f_equal.
  replace ((a + 2 ^ 63) mod 2 ^ 64 - 2 ^ 63 + b + 2 ^ 63)
    with ((a + 2 ^ 63) mod 2 ^ 64 + b) by lia.
  rewrite Zplus_mod_idemp_l. f_equal. lia.
Qed.

Lemma Zsum_perm : Proper (Permutation ==> eq) Zsum.
Proof.
  intros l1 l2 H. induction H as [|x l1 l2 _ IH|x y l|l1 l2 l3 _ IH1 _ IH2];
    simpl; lia.
Qed.

Lemma count_status_perm status : Proper (Permutation ==> eq) (count_status status).
Proof. intros l1 l2 H. unfold count_status. by rewrite H. Qed.

Lemma count_status_cons status n l :
  count_status status (n :: l)
  = (if decide (Status n = status) then 1 else 0) + count_status status l.
Proof.
  unfold count_status. rewrite filter_cons. case_decide; simpl length; lia.
Qed.

(** The loop variables in closed form. *)
Lemma tally_closed (l : list Node) : forall t,
  int64_range (tTotalStorage t) -> int64_range (tUsedStorage t) ->
  foldl tally_node t l
  = mkTally (wrap64 (tTotalStorage t + Zsum (StorageMax <$> l)))
            (wrap64 (tUsedStorage t + Zsum (StorageUsed <$> l)))
            (tActive t + count_status "active" l)
            (tInactive t + count_status "inactive" l)
            (tFailed t + count_status "failed" l).
Proof.
  induction l as [|n l IH]; intros t Ht Hu.
  - destruct t. cbn. rewrite !Z.add_0_r, !wrap64_id by done. done.
  - cbn [foldl]. rewrite IH.
    + rewrite !count_status_cons. cbn [fmap list_fmap Zsum foldr].
      fold (Zsum (StorageMax <$> l)). fold (Zsum (StorageUsed <$> l)).
      unfold tally_node.
      destruct (String.eqb_spec (Status n) "active") as [E1|E1];
        [|destruct (String.eqb_spec (Status n) "inactive") as [E2|E2];
          [|destruct (String.eqb_spec (Status n) "failed") as [E3|E3]]];
        cbn [tTotalStorage tUsedStorage tActive tInactive tFailed];
        rewrite !wrap64_add_l;
        repeat case_decide; try congruence;
        f_equal; try lia; f_equal; lia.
    + unfold tally_node. repeat case_match; apply wrap64_range.
    + unfold tally_node. repeat case_match; apply wrap64_range.
Qed.

Lemma status_of_closed (l : list Node) :
  status_of l
  = {| totalNodes := Z.of_nat (length l);
       activeNodes := count_status "active" l;
       inactiveNodes := count_status "inactive" l;
       failedNodes := count_status "failed" l;
       totalStorage := wrap64 (Zsum (StorageMax <$> l));
       usedStorage := wrap64 (Zsum (StorageUsed <$> l));
       availableStorage :=
         wrap64 (wrap64 (Zsum (StorageMax <$> l))
                 - wrap64 (Zsum (StorageUsed <$> l))) |}.
Proof.
  unfold status_of. rewrite tally_closed by (cbn; unfold int64_range; lia).
  reflexivity.
Qed.

Lemma status_of_perm : Proper (Permutation ==> eq) status_of.
Proof.
  intros l1 l2 H. rewrite !status_of_closed.
  rewrite (Permutation_length H).
  rewrite !(count_status_perm _ _ _ H).
  by rewrite !(Zsum_perm _ _ (fmap_Permutation _ _ _ H)).
Qed.

(** X6. The status report does not depend on the order in which the
    registry is visited: its sums are the [int64] sums of the capacities and
    of the usages of all nodes, and its counters count the nodes of each
    status. *)
Theorem GetSystemStatus_order_independent
    (order1 order2 : forall A, gmap string A -> list (string * A)) nm :
  RangeOrder order1 ->
  RangeOrder order2 ->
  GetSystemStatus order1 nm = GetSystemStatus order2 nm
  /\ totalStorage (GetSystemStatus order1 nm)
     = wrap64 (Zsum (StorageMax <$> (snd <$> map_to_list (nodes nm))))
  /\ usedStorage (GetSystemStatus order1 nm)
     = wrap64 (Zsum (StorageUsed <$> (snd <$> map_to_list (nodes nm))))
  /\ totalNodes (GetSystemStatus order1 nm) = Z.of_nat (size (nodes nm)).
Proof.
  intros H1 H2. unfold GetSystemStatus, ListNodes.
  assert (Hc : forall order, RangeOrder order ->
            status_of (snd <$> order Node (nodes nm))
            = status_of (snd <$> map_to_list (nodes nm))).
  { intros order Ho. apply status_of_perm. by rewrite (Ho Node (nodes nm)). }
  rewrite (Hc order1 H1), (Hc order2 H2). split; [done|].
  rewrite status_of_closed. cbn. repeat split.
  by rewrite length_fmap, length_map_to_list.
Qed.

Lemma GetSystemStatus_order_independent_witness :
  RangeOrder (fun A m => map_to_list m)
  /\ RangeOrder (fun A m => reverse (map_to_list m))
  /\ GetSystemStatus (fun A m => map_to_list m) example_registry
     = GetSystemStatus (fun A m => reverse (map_to_list m)) example_registry.
Proof.
  assert (H2 : RangeOrder (fun A m => reverse (map_to_list m)))
    by (intros A m; apply reverse_Permutation).
  split; [exact RangeOrder_map_to_list|]. split; [exact H2|].
  exact (proj1 (GetSystemStatus_order_independent (fun A m => map_to_list m)
                  (fun A m => reverse (map_to_list m)) example_registry
                  RangeOrder_map_to_list H2)).
Defined.

Lemma count_status_partition (l : list Node) :
  Forall (fun n => valid_status (Status n)) l ->
  count_status "active" l + count_status "inactive" l + count_status "failed" l
  = Z.of_nat (length l).
Proof.
  induction 1 as [|n l Hn _ IH]; [done|].
  rewrite !count_status_cons. cbn [length].
  destruct Hn as [E|[E|E]]; rewrite E;
    repeat case_decide; try congruence; lia.
Qed.

(** X7. After any sequence of calls on a new node manager, the three
    counters of the status report add up to the number of nodes: no node is
    left out of the count. *)
Theorem GetSystemStatus_counts_add_up
    (order : forall A, gmap string A -> list (string * A))
    (url_Parse : string -> bool) (cs : list call) :
  RangeOrder order ->
  let report := GetSystemStatus order (after_calls url_Parse cs) in
  activeNodes report + inactiveNodes report + failedNodes report
  = totalNodes report.
Proof.
  intros Ho report. subst report. unfold GetSystemStatus, ListNodes.
  rewrite status_of_closed. cbn. apply count_status_partition.
  apply Forall_forall. intros n Hn.
  apply list_elem_of_fmap in Hn as ([k n'] & -> & Hin).
  rewrite (Ho Node _) in Hin. apply elem_of_map_to_list in Hin.
  by destruct (RegistryMoreProps.after_calls_consistent url_Parse cs _ _ Hin)
    as (_ & _ & _ & ?).
Qed.

Lemma GetSystemStatus_counts_add_up_witness :
  RangeOrder (fun A m => map_to_list m)
  /\ (let report :=
        GetSystemStatus (fun A m => map_to_list m)
          (after_calls sample_url_Parse
             [CallRegisterNode 1 "n1" "10.0.0.1:9000" 100;
              CallRegisterNode 2 "n2" "10.0.0.2:9000" 100;
              CallUpdateNodeStatus 3 "n2" "failed"]) in
      activeNodes report + inactiveNodes report + failedNodes report
      = totalNodes report).
Proof.
  split; [exact RangeOrder_map_to_list|].
  exact (GetSystemStatus_counts_add_up (fun A m => map_to_list m) sample_url_Parse
           [CallRegisterNode 1 "n1" "10.0.0.1:9000" 100;
            CallRegisterNode 2 "n2" "10.0.0.2:9000" 100;
            CallUpdateNodeStatus 3 "n2" "failed"] RangeOrder_map_to_list).
Defined.

End ApiProps.

(** ** What the selection returns *)

Module SelectionProps.
Import Registry.

Lemma List_filter_sublist {A} (f : A -> bool) (l : list A) :
  sublist (List.filter f l) l.
Proof.
  induction l as [|x l IH]; [constructor|]. simpl.
  destruct (f x); by constructor.
Qed.

Lemma List_filter_elem_of {A} (f : A -> bool) (l : list A) x :
  x ∈ List.filter f l -> x ∈ l /\ f x = true.
Proof.
  rewrite !list_elem_of_In. intros H. by apply List.filter_In in H.
Qed.

Lemma List_filter_length_perm {A} (f : A -> bool) (l1 l2 : list A) :
  l1 ≡ₚ l2 -> length (List.filter f l1) = length (List.filter f l2).
Proof.
  induction 1 as [|x l1 l2 _ IH|x y l|l1 l2 l3 _ IH1 _ IH2]; simpl;
    [done| | |congruence].
  - destruct (f x); simpl; congruence.
  - by destruct (f x), (f y).
Qed.

(** X8. When the selection returns, it returns at most [replicaCount] ids,
    as many as there are eligible nodes if these are fewer; each id is the
    id under which the registry holds a node that is active and has room
    for the file; and no id comes twice.  The registry files every node
    under its own id. *)
Theorem selection_sound
    (range_order : forall A, gmap string A -> list (string * A))
    fileSize replicaCount nm ids :
  RangeOrder range_order ->
  (forall id n, nodes nm !! id = Some n -> ID n = id) ->
  GetOptimalStorageNodes range_order fileSize replicaCount nm = Ok ids ->
  Z.of_nat (length ids)
  = Z.min replicaCount
      (Z.of_nat (length (List.filter (eligible fileSize)
                           (snd <$> map_to_list (nodes nm)))))
  /\ NoDup ids
  /\ (forall id, id ∈ ids ->
        exists n, nodes nm !! id = Some n
                  /\ Status n = "active" /\ avail n >= fileSize).
Proof.
  intros Hord Hkeys. unfold GetOptimalStorageNodes.
  set (visited := snd <$> range_order Node (nodes nm)).
  set (elig := List.filter (eligible fileSize) visited).
  destruct (PlacementProps.sort_by_avail_spec elig) as [Hperm _].
  rewrite PlacementProps.min_Zmin.
  destruct (Z.ltb_spec (Z.min replicaCount (Z.of_nat (length (sort_by_avail elig)))) 0)
    as [|Hnn]; [done|].
  intros [= <-].
  assert (Hvis : visited ≡ₚ snd <$> map_to_list (nodes nm)).
  { unfold visited. by rewrite (Hord Node (nodes nm)). }
  assert (Hin : forall n, n ∈ visited -> nodes nm !! ID n = Some n).
  { intros n Hn. rewrite Hvis in Hn.
    apply list_elem_of_fmap in Hn as ([k n'] & -> & Hn).
    apply elem_of_map_to_list in Hn. cbn. by rewrite (Hkeys _ _ Hn). }
  split; [|split].
  - rewrite length_fmap, length_take.
    rewrite <- (List_filter_length_perm _ _ _ Hvis). fold elig.
    rewrite (Permutation_length Hperm). lia.
  - apply (sublist_NoDup _ (ID <$> sort_by_avail elig));
      [|apply fmap_sublist, sublist_take].
    rewrite Hperm.
    apply (sublist_NoDup _ (ID <$> visited));
      [|apply fmap_sublist, List_filter_sublist].
    rewrite Hvis.
    assert (Hfst : ID <$> (snd <$> map_to_list (nodes nm))
                   = fst <$> map_to_list (nodes nm)).
    { rewrite <- list_fmap_compose. apply Forall_fmap_ext_1, Forall_forall.
      intros [k n] Hkn. apply elem_of_map_to_list in Hkn. cbn. by apply Hkeys. }
    rewrite Hfst. apply NoDup_fst_map_to_list.
  - intros id Hid. apply list_elem_of_fmap in Hid as (n & -> & Hn).
    apply (subseteq_take _ _ n) in Hn. rewrite Hperm in Hn.
    apply List_filter_elem_of in Hn as [Hv He].
    exists n. split; [by apply Hin|].
    unfold eligible in He. apply andb_true_iff in He as [Hs Ha].
    split; [by apply String.eqb_eq|]. apply Z.geb_le in Ha. lia.
Qed.

Lemma selection_sound_witness :
  RangeOrder (fun A m => map_to_list m)
  /\ (forall id n, nodes example_registry !! id = Some n -> ID n = id)
  /\ GetOptimalStorageNodes (fun A m => map_to_list m) 1000 1 example_registry
     = Ok ["n1"]
  /\ NoDup ["n1"].
Proof.
  assert (H2 : forall id n, nodes example_registry !! id = Some n -> ID n = id).
  { assert (H : map_Forall (fun id n => ID n = id) (nodes example_registry)).
    { apply (bool_decide_unpack _). vm_compute. reflexivity. }
    exact H. }
  assert (H3 : GetOptimalStorageNodes (fun A m => map_to_list m) 1000 1
                 example_registry = Ok ["n1"]) by (vm_compute; reflexivity).
  split; [exact RangeOrder_map_to_list|]. split; [exact H2|]. split; [exact H3|].
  exact (proj1 (proj2 (selection_sound (fun A m => map_to_list m) 1000 1
                         example_registry ["n1"] RangeOrder_map_to_list H2 H3))).
Defined.

End SelectionProps.

(** ** The metadata cache and the replication endpoint *)

Module DFSProps.
Import DFS.

Section Cache.

Variable os_Stat : string -> option StatInfo.
Variable filepath_Join : string -> string -> string.
Variable filepath_Base : string -> string.

(** X9. [SetReplicationFactor] succeeds exactly when the factor is at least
    1 and [os.Stat] finds the file; a factor below 1 is refused before the
    file is looked at.  After a success [GetFileInfo] answers from the cache
    with that factor, every other cached entry being as before; after a
    failure the cache is unchanged. *)
Theorem SetReplicationFactor_read_back filePath replicas dfs :
  ((exists dfs', SetReplicationFactor os_Stat filepath_Join filepath_Base
                   filePath replicas dfs = (Ok tt, dfs'))
   <-> 1 <= replicas
       /\ is_Some (os_Stat (filepath_Join (rootDir dfs) filePath)))
  /\ (replicas < 1 ->
      SetReplicationFactor os_Stat filepath_Join filepath_Base
        filePath replicas dfs = (Err err_replicas, dfs))
  /\ (forall res dfs',
        SetReplicationFactor os_Stat filepath_Join filepath_Base
          filePath replicas dfs = (res, dfs') ->
        match res with
        | Ok _ =>
            exists info,
              GetFileInfo os_Stat filepath_Join filepath_Base filePath dfs'
              = (Ok info, dfs')
              /\ Replicas info = replicas
              /\ rootDir dfs' = rootDir dfs
              /\ (forall other, other ≠ filePath ->
                    fileInfo dfs' !! other = fileInfo dfs !! other)
        | _ => dfs' = dfs
        end).
Proof.
  unfold SetReplicationFactor, GetFileInfo.
  destruct (Z.ltb_spec replicas 1) as [Hlt|Hge].
  { split; [|split; [done|by intros res dfs' [= <- <-]]].
    split; [by intros [? [=]]|]. intros [? _]. lia. }
  split; [|split; [lia|]].
  - destruct (os_Stat (filepath_Join (rootDir dfs) filePath)) as [st|].
    + split; [by eauto|]. intros _. destruct (fileInfo dfs !! filePath); by eauto.
    + split; [by intros [? [=]]|]. by intros [_ [? [=]]].
  - intros res dfs'.
    destruct (os_Stat (filepath_Join (rootDir dfs) filePath)) as [st|];
      [|by intros [= <- <-]].
    destruct (fileInfo dfs !! filePath) as [info|]; intros [= <- <-];
      cbn [fileInfo rootDir]; rewrite lookup_insert_eq;
      (eexists; split; [reflexivity|]; split; [done|]; split; [done|];
       intros other Hne; by rewrite lookup_insert_ne).
Qed.

(** X10. [GetFileInfo] answers from the cache when the path is cached, even
    if [os.Stat] no longer finds the file; otherwise it answers what
    [os.Stat] reports, with one replica, and caches it, so that asking again
    gives the same answer and changes nothing. *)
Theorem GetFileInfo_cache filePath dfs :
  (forall info, fileInfo dfs !! filePath = Some info ->
     GetFileInfo os_Stat filepath_Join filepath_Base filePath dfs = (Ok info, dfs))
  /\ (fileInfo dfs !! filePath = None ->
      os_Stat (filepath_Join (rootDir dfs) filePath) = None ->
      GetFileInfo os_Stat filepath_Join filepath_Base filePath dfs
      = (Err err_stat, dfs))
  /\ (forall info dfs',
        GetFileInfo os_Stat filepath_Join filepath_Base filePath dfs
        = (Ok info, dfs') ->
        GetFileInfo os_Stat filepath_Join filepath_Base filePath dfs'
        = (Ok info, dfs')
        /\ (fileInfo dfs !! filePath = None ->
            Replicas info = 1
            /\ exists st, os_Stat (filepath_Join (rootDir dfs) filePath) = Some st
                          /\ Size info = statSize st /\ IsDir info = statIsDir st)).
Proof.
  unfold GetFileInfo. split; [|split].
  - by intros info ->.
  - by intros -> ->.
  - intros info dfs'. destruct (fileInfo dfs !! filePath) as [cached|] eqn:E.
    + intros [= <- <-]. rewrite E. by split.
    + destruct (os_Stat (filepath_Join (rootDir dfs) filePath)) as [st|];
        [|by intros [=]].
      intros [= <- <-]. cbn [fileInfo]. rewrite lookup_insert_eq.
      split; [done|]. intros _. split; [done|]. by exists st.
Qed.

End Cache.

End DFSProps.

Module ControllerProps.
Import Registry DFS Controller.

(** X11. The replication endpoint never panics: a replica count below 1 is
    answered with status 500 by the file system before the placement is
    asked, so the negative count on which the placement panics does not
    reach it.  An answer with status 200 carries at most as many node ids as
    the count asked for, which is then at least 1. *)
Theorem SetReplicationFactor_never_panics
    (range_order : forall A, gmap string A -> list (string * A))
    os_Stat filepath_Join filepath_Base strconv_Atoi
    filePath replicasStr fs nm :
  exists resp fs',
    Controller.SetReplicationFactor range_order os_Stat filepath_Join
      filepath_Base strconv_Atoi filePath replicasStr fs nm = (Ok resp, fs')
    /\ (forall replicas,
          strconv_Atoi replicasStr = Some replicas -> replicas < 1 ->
          replicasStr ≠ "" ->
          resp = RespError 500 err_replicas /\ fs' = fs)
    /\ (forall code ids,
          resp = RespNodes code ids ->
          code = 200
          /\ exists replicas,
               strconv_Atoi replicasStr = Some replicas
               /\ 1 <= replicas
               /\ Z.of_nat (length ids) <= replicas).
Proof.
  unfold Controller.SetReplicationFactor.
  destruct (String.eqb_spec replicasStr "") as [Hempty|Hne].
  { eexists _, _. split; [reflexivity|]. split; [done|]. by intros code ids [=]. }
  destruct (strconv_Atoi replicasStr) as [replicas|].
  2:{ eexists _, _. split; [reflexivity|]. split; [done|]. by intros code ids [=]. }
  unfold DFS.SetReplicationFactor.
  destruct (Z.ltb_spec replicas 1) as [Hlt|Hge].
  { eexists _, _. split; [reflexivity|]. split; [by intros ? [= <-]|].
    by intros code ids [=]. }
  assert (Hsel : forall size,
            exists ids, GetOptimalStorageNodes range_order size replicas nm = Ok ids
                        /\ Z.of_nat (length ids) <= replicas).
  { intros size. unfold GetOptimalStorageNodes. rewrite PlacementProps.min_Zmin.
    match goal with |- context [?a <? 0] => destruct (Z.ltb_spec a 0) end; [lia|].
    eexists. split; [reflexivity|]. rewrite length_fmap, length_take. lia. }
  destruct (os_Stat (filepath_Join (rootDir fs) filePath)) as [st|].
  2:{ eexists _, _. split; [reflexivity|]. split; [intros ? [= <-]; lia|].
      by intros code ids [=]. }
  unfold GetFileInfo.
  destruct (fileInfo fs !! filePath) as [info|]; cbn [fileInfo];
    rewrite lookup_insert_eq;
    match goal with
    | |- context [GetOptimalStorageNodes _ ?size _ _] =>
        destruct (Hsel size) as (ids & -> & Hlen)
    end;
    (eexists _, _; split; [reflexivity|]; split; [intros ? [= <-]; lia|];
     intros code ids' [= <- <-]; split; [done|]; by exists replicas).
Qed.

End ControllerProps.

(** ** Chunk store: sizes, addressing, order of the chunks, stored chunks *)

Module ChunkStoreMoreProps.
Import ChunkStore ChunkStoreMore ChunkStoreProps.

(** *** The sizes of the pieces *)

Lemma pieces_sizes (n : nat) : forall (fuel : nat) (data : list byte),
  (0 < n)%nat -> (length data <= fuel)%nat ->
  let ps := pieces fuel n data in
  Forall (fun p => (0 < length p <= n)%nat) ps
  /\ Forall (fun p => length p = n) (removelast ps)
  /\ length (concat ps) = length data
  /\ length ps = ((length data + n - 1) / n)%nat.
Proof.
  induction fuel as [|fuel IH]; intros data Hn Hlen.
  { destruct data; [|simpl in Hlen; lia]. cbn.
    repeat split; try constructor.
    symmetry. apply Nat.div_small. lia. }
  destruct data as [|b data].
  { cbn. repeat split; try constructor. symmetry. apply Nat.div_small. lia. }
  cbn [pieces]. set (d := b :: data) in *.
  assert (Hd : (0 < length d)%nat) by (unfold d; simpl; lia).
  destruct (IH (drop n d) Hn) as (H1 & H2 & H3 & H4).
  { rewrite length_drop. unfold d in *. simpl in *. lia. }
  cbv zeta. split; [|split; [|split]].
  - constructor; [|done]. rewrite length_take. lia.
  - destruct (pieces fuel n (drop n d)) as [|q qs] eqn:Eq; [constructor|].
    change (removelast (take n d :: q :: qs))
      with (take n d :: removelast (q :: qs)).
    constructor; [|done]. rewrite length_take.
    destruct (decide (n <= length d)%nat) as [|Hshort]; [lia|].
    rewrite length_drop, Nat.div_small in H4 by lia. done.
  - cbn [concat]. rewrite length_app, H3, length_take, length_drop. lia.
  - cbn [length]. rewrite H4, length_drop.
    destruct (decide (n <= length d)%nat) as [Hle|Hshort].
    + replace (length d + n - 1)%nat with ((length d - n + n - 1) + 1 * n)%nat by lia.
      rewrite Nat.div_add by lia. lia.
    + rewrite (Nat.div_small (length d - n + n - 1)) by lia.
      apply (Nat.div_unique _ _ 1 (length d - 1)); lia.
Qed.

(** *** Placing chunks that come in any order *)

Lemma place_chunks_lookup (n : nat) : forall chunks sortedChunks,
  Forall (fun c => 0 <= Index c < Z.of_nat n) chunks ->
  length sortedChunks = n ->
  NoDup (Index <$> chunks) ->
  exists placed,
    place_chunks (Z.of_nat n) chunks sortedChunks = Ok placed
    /\ length placed = n
    /\ (forall c, c ∈ chunks -> placed !! Z.to_nat (Index c) = Some (Some c))
    /\ (forall i, (forall c, c ∈ chunks -> Z.to_nat (Index c) ≠ i) ->
          placed !! i = sortedChunks !! i).
Proof.
  induction chunks as [|c chunks IH]; intros sortedChunks Hrange Hlen Hnodup.
  { exists sortedChunks. split; [done|]. split; [done|]. split; [|done].
    intros c Hc. by apply elem_of_nil in Hc. }
  apply Forall_cons in Hrange as [Hc Hrange].
  cbn [fmap list_fmap] in Hnodup. apply NoDup_cons in Hnodup as [Hfresh Hnodup].
  cbn [place_chunks].
  destruct (Z.ltb_spec (Index c) 0) as [|_]; [lia|].
  destruct (Z.geb_spec (Index c) (Z.of_nat n)) as [|_]; [lia|]. cbn [orb].
  destruct (IH (<[Z.to_nat (Index c) := Some c]> sortedChunks) Hrange)
    as (placed & Hplaced & Hlen' & Hin & Hout);
    [by rewrite length_insert|done|].
  exists placed. split; [done|]. split; [done|]. split.
  - intros c' Hc'. apply elem_of_cons in Hc' as [->|Hc']; [|by apply Hin].
    rewrite Hout.
    + apply list_lookup_insert_eq. lia.
    + intros c' Hc' Heq. apply Hfresh. apply list_elem_of_fmap.
      exists c'. split; [|done].
      pose proof (proj1 (Forall_forall _ _) Hrange c' Hc') as Hc'r.
      cbn beta in Hc'r. lia.
  - intros i Hi. rewrite Hout.
    + apply list_lookup_insert_ne. apply Hi. by left.
    + intros c' Hc'. apply Hi. by right.
Qed.

Section Order.

Variable sha256_hex : list byte -> string.
Variable filepath_Join : string -> string -> string.

(** Whatever the order in which the chunks of the pieces [ps] are given,
    the first loop of [ReassembleFile] puts them in index order. *)
Lemma place_chunks_perm fileID (ps : list (list byte)) (shuffled : list ChunkInfo) :
  shuffled ≡ₚ chunk_infos sha256_hex fileID 0 ps ->
  place_chunks (Z.of_nat (length shuffled)) shuffled
               (replicate (length shuffled) None)
  = Ok (Some <$> chunk_infos sha256_hex fileID 0 ps).
Proof.
  intros Hperm. set (infos := chunk_infos sha256_hex fileID 0 ps) in *.
  assert (Hlen : length shuffled = length ps).
  { rewrite (Permutation_length Hperm). apply chunk_infos_length. }
  assert (Hidx : Index <$> infos = Z.of_nat <$> seq 0 (length ps))
    by apply (chunk_infos_Index sha256_hex fileID ps 0).
  assert (Hat : forall i c, infos !! i = Some c -> Index c = Z.of_nat i).
  { intros i c Hc. apply chunk_infos_lookup in Hc as (p & _ & ->). cbn. lia. }
  destruct (place_chunks_lookup (length shuffled) shuffled
              (replicate (length shuffled) None)) as (placed & -> & Hpl & Hin & _).
  - rewrite Hperm. apply Forall_forall. intros c Hc.
    apply list_elem_of_lookup in Hc as [i Hi]. rewrite (Hat _ _ Hi).
    apply lookup_lt_Some in Hi. unfold infos in Hi.
    rewrite chunk_infos_length in Hi. lia.
  - apply length_replicate.
  - rewrite Hperm, Hidx. apply NoDup_fmap; [|apply NoDup_seq].
    intros x y Hxy. lia.
  - f_equal. apply list_eq. intros i. rewrite list_lookup_fmap.
    destruct (infos !! i) as [c|] eqn:Hc; cbn.
    + rewrite <- (Nat2Z.id i), <- (Hat _ _ Hc). apply Hin.
      rewrite Hperm. by apply list_elem_of_lookup_2 in Hc.
    + apply lookup_ge_None. apply lookup_ge_None in Hc.
      unfold infos in Hc. rewrite chunk_infos_length in Hc. lia.
Qed.

(** Reassembly from a disk that holds every piece under its hash. *)
Lemma reassemble_present fileID outputPath (ps : list (list byte))
    (shuffled : list ChunkInfo) (fc : FileChunker) (st : disk) :
  let dir := filepath_Join (chunksDir fc) fileID in
  shuffled ≡ₚ chunk_infos sha256_hex fileID 0 ps ->
  (forall id, outputPath ≠ filepath_Join dir id) ->
  (forall p, p ∈ ps -> st !! filepath_Join dir (sha256_hex p) = Some p) ->
  ReassembleFile filepath_Join fileID shuffled outputPath fc st
  = (Ok tt, <[outputPath := concat ps]> st).
Proof.
  intros dir Hperm Hout Hps. unfold ReassembleFile.
  rewrite (place_chunks_perm fileID ps shuffled Hperm). fold dir.
  rewrite (write_chunks_spec sha256_hex filepath_Join fileID dir outputPath Hout
             ps 0 _ []).
  - cbn [app]. by rewrite insert_insert_eq.
  - apply lookup_insert_eq.
  - intros p Hp. rewrite lookup_insert_ne by done. by apply Hps.
Qed.

End Order.

Section Store.

Variable sha256_hex : list byte -> string.
Variable filepath_Join : string -> string -> string.

Lemma store_meta_chunkSize infos fc : chunkSize (store_meta infos fc) = chunkSize fc.
Proof.
  revert fc. induction infos as [|i infos IH]; intros fc; [done|].
  simpl. by rewrite IH.
Qed.

Lemma chunk_infos_Size fileID index ps :
  Size <$> chunk_infos sha256_hex fileID index ps
  = (fun p => Z.of_nat (length p)) <$> ps.
Proof.
  revert index. induction ps as [|p ps IH]; intros index; [done|].
  simpl. by rewrite IH.
Qed.

Lemma chunk_infos_removelast fileID ps : forall index,
  removelast (chunk_infos sha256_hex fileID index ps)
  = chunk_infos sha256_hex fileID index (removelast ps).
Proof.
  induction ps as [|p [|q ps] IH]; intros index; [done|done|].
  change (removelast (p :: q :: ps)) with (p :: removelast (q :: ps)).
  cbn [chunk_infos]. rewrite <- IH. reflexivity.
Qed.

(** X12. The chunks [ChunkFile] returns have between one byte and
    [chunkSize] bytes each, all but the last have [chunkSize] bytes, their
    sizes add up to the length of the file, and there are
    [ceil(len / chunkSize)] of them; the chunker keeps its chunk size and
    its directory. *)
Theorem ChunkFile_chunk_sizes
    (fuel : nat) (filePath : string) (F : list byte)
    (fc : FileChunker) (st : disk) :
  st !! filePath = Some F ->
  (forall id, filePath ≠
     filepath_Join (filepath_Join (chunksDir fc) (sha256_hex F)) id) ->
  0 < chunkSize fc ->
  (length F < fuel)%nat ->
  exists chunks fc' st',
    ChunkFile sha256_hex filepath_Join fuel filePath fc st
    = Some (Ok (sha256_hex F, chunks), fc', st')
    /\ Forall (fun c => 0 < Size c <= chunkSize fc) chunks
    /\ Forall (fun c => Size c = chunkSize fc) (removelast chunks)
    /\ foldr Z.add 0 (Size <$> chunks) = Z.of_nat (length F)
    /\ length chunks
       = ((length F + Z.to_nat (chunkSize fc) - 1) / Z.to_nat (chunkSize fc))%nat
    /\ chunkSize fc' = chunkSize fc
    /\ chunksDir fc' = chunksDir fc.
Proof.
  intros Hst Hpath Hsize Hfuel.
  eexists _, _, _. split; [by apply ChunkFile_spec|].
  set (n := Z.to_nat (chunkSize fc)).
  destruct (pieces_sizes n (length F) F ltac:(lia) ltac:(lia))
    as (Hall & Hfull & Hcat & Hcount).
  fold (split_bytes n F) in Hall, Hfull, Hcat, Hcount.
  set (ps := split_bytes n F) in *.
  split; [|split; [|split; [|split; [|split]]]].
  - apply Forall_forall. intros c Hc.
    apply list_elem_of_lookup in Hc as [i Hi].
    apply chunk_infos_lookup in Hi as (p & Hp & ->). cbn.
    apply list_elem_of_lookup_2 in Hp.
    pose proof (proj1 (Forall_forall _ _) Hall p Hp) as Hlen. cbn beta in Hlen. lia.
  - rewrite chunk_infos_removelast. apply Forall_forall. intros c Hc.
    apply list_elem_of_lookup in Hc as [i Hi].
    apply chunk_infos_lookup in Hi as (p & Hp & ->). cbn.
    apply list_elem_of_lookup_2 in Hp.
    pose proof (proj1 (Forall_forall _ _) Hfull p Hp) as Hlen. cbn beta in Hlen. lia.
  - rewrite chunk_infos_Size, <- Hcat. clear.
    induction ps as [|p ps IH]; [done|].
    cbn [fmap list_fmap foldr concat]. rewrite length_app.
    fold (fmap (M:=list) (fun p => Z.of_nat (length p)) ps). lia.
  - by rewrite chunk_infos_length.
  - apply store_meta_chunkSize.
  - apply store_meta_chunksDir.
Qed.

(** X13. Chunk ids are content addresses: two files with the same bytes,
    wherever they are and whatever else the disks and the chunk directories
    hold, split with the same chunk size into the same file id and the same
    list of chunks. *)
Theorem split_content_addressed
    (fuel1 fuel2 : nat) (path1 path2 : string) (F : list byte)
    (fc1 fc2 : FileChunker) (st1 st2 : disk) :
  0 < chunkSize fc1 ->
  chunkSize fc2 = chunkSize fc1 ->
  st1 !! path1 = Some F ->
  st2 !! path2 = Some F ->
  (length F < fuel1)%nat ->
  (length F < fuel2)%nat ->
  (forall id, path1 ≠
     filepath_Join (filepath_Join (chunksDir fc1) (sha256_hex F)) id) ->
  (forall id, path2 ≠
     filepath_Join (filepath_Join (chunksDir fc2) (sha256_hex F)) id) ->
  exists fileID chunks fc1' st1' fc2' st2',
    ChunkFile sha256_hex filepath_Join fuel1 path1 fc1 st1
    = Some (Ok (fileID, chunks), fc1', st1')
    /\ ChunkFile sha256_hex filepath_Join fuel2 path2 fc2 st2
       = Some (Ok (fileID, chunks), fc2', st2')
    /\ fileID = sha256_hex F.
Proof.
  intros Hsize Heq H1 H2 Hf1 Hf2 Hp1 Hp2.
  eexists _, _, _, _, _, _. split; [by apply ChunkFile_spec|]. split; [|done].
  rewrite (ChunkFile_spec sha256_hex filepath_Join fuel2 path2 F fc2 st2)
    by (done || lia).
  by rewrite Heq.
Qed.

(** What the disk holds under a path after the pieces are stored. *)
Lemma store_pieces_written (dir path : string) : forall ps (st : disk),
  store_pieces sha256_hex filepath_Join dir ps st !! path
  = match written sha256_hex filepath_Join dir path ps with
    | Some q => Some q
    | None => st !! path
    end.
Proof.
  induction ps as [|p ps IH]; intros st; [done|].
  rewrite store_pieces_cons, IH. cbn [written].
  destruct (written sha256_hex filepath_Join dir path ps); [done|].
  rewrite lookup_insert. by case_decide.
Qed.

Lemma store_pieces_idempotent (dir : string) ps (st : disk) :
  store_pieces sha256_hex filepath_Join dir ps
    (store_pieces sha256_hex filepath_Join dir ps st)
  = store_pieces sha256_hex filepath_Join dir ps st.
Proof.
  apply map_eq. intros path. rewrite !store_pieces_written.
  by destruct (written sha256_hex filepath_Join dir path ps).
Qed.

(** X14. Splitting a file again changes nothing on the disk: the second
    split returns the same file id and the same chunks, and leaves the disk
    as the first split left it. *)
Theorem split_twice_same_disk
    (fuel : nat) (filePath : string) (F : list byte)
    (fc : FileChunker) (st : disk) :
  st !! filePath = Some F ->
  (forall id, filePath ≠
     filepath_Join (filepath_Join (chunksDir fc) (sha256_hex F)) id) ->
  0 < chunkSize fc ->
  (length F < fuel)%nat ->
  exists fileID chunks fc1 st1 fc2,
    ChunkFile sha256_hex filepath_Join fuel filePath fc st
    = Some (Ok (fileID, chunks), fc1, st1)
    /\ ChunkFile sha256_hex filepath_Join fuel filePath fc1 st1
       = Some (Ok (fileID, chunks), fc2, st1)
    /\ st1 !! filePath = Some F.
Proof.
  intros Hst Hpath Hsize Hfuel.
  set (dir := filepath_Join (chunksDir fc) (sha256_hex F)).
  set (ps := split_bytes (Z.to_nat (chunkSize fc)) F).
  set (chunks := chunk_infos sha256_hex (sha256_hex F) 0 ps).
  set (st1 := store_pieces sha256_hex filepath_Join dir ps st).
  assert (Hst1 : st1 !! filePath = Some F).
  { unfold st1. by rewrite store_pieces_other. }
  exists (sha256_hex F), chunks, (store_meta chunks fc), st1,
    (store_meta chunks (store_meta chunks fc)).
  split; [by apply ChunkFile_spec|]. split; [|done].
  rewrite (ChunkFile_spec sha256_hex filepath_Join fuel filePath F
             (store_meta chunks fc) st1);
    rewrite ?store_meta_chunkSize, ?store_meta_chunksDir; try done.
  fold dir ps chunks. unfold st1. by rewrite store_pieces_idempotent.
Qed.




End Store.

Lemma sample_outside_in id :
  "in.bin" ≠ sample_Join (sample_Join (chunksDir sample_chunker)
                                      (sample_hash sample_file)) id.
Proof. discriminate. Qed.

Lemma sample_outside_out id :
  "out.bin" ≠ sample_Join (sample_Join (chunksDir sample_chunker)
                                       (sample_hash sample_file)) id.
Proof. discriminate. Qed.

Lemma ChunkFile_chunk_sizes_witness :
  sample_disk !! "in.bin" = Some sample_file
  /\ (forall id, "in.bin" ≠
        sample_Join (sample_Join (chunksDir sample_chunker)
                                 (sample_hash sample_file)) id)
  /\ 0 < chunkSize sample_chunker
  /\ (length sample_file < 10)%nat
  /\ exists chunks fc' st',
       ChunkFile sample_hash sample_Join 10 "in.bin" sample_chunker sample_disk
       = Some (Ok (sample_hash sample_file, chunks), fc', st')
       /\ foldr Z.add 0 (Size <$> chunks) = 5
       /\ length chunks = 3%nat.
Proof.
  assert (H1 : sample_disk !! "in.bin" = Some sample_file) by reflexivity.
  assert (H3 : 0 < chunkSize sample_chunker) by reflexivity.
  assert (H4 : (length sample_file < 10)%nat) by (simpl; lia).
  split; [exact H1|]. split; [exact sample_outside_in|].
  split; [exact H3|]. split; [exact H4|].
  destruct (ChunkFile_chunk_sizes sample_hash sample_Join 10 "in.bin" sample_file
              sample_chunker sample_disk H1 sample_outside_in H3 H4)
    as (chunks & fc' & st' & Hc & _ & _ & Hsum & Hlen & _).
  exists chunks, fc', st'. split; [exact Hc|]. split; [exact Hsum|exact Hlen].
Defined.

Lemma split_content_addressed_witness :
  let st2 : disk := {[ "copy.bin" := sample_file; "other.bin" := [x7a]%byte ]} in
  let fc2 := NewFileChunker "elsewhere" 2 in
  0 < chunkSize sample_chunker
  /\ chunkSize fc2 = chunkSize sample_chunker
  /\ sample_disk !! "in.bin" = Some sample_file
  /\ st2 !! "copy.bin" = Some sample_file
  /\ (length sample_file < 10)%nat
  /\ (length sample_file < 20)%nat
  /\ (forall id, "in.bin" ≠
        sample_Join (sample_Join (chunksDir sample_chunker)
                                 (sample_hash sample_file)) id)
  /\ (forall id, "copy.bin" ≠
        sample_Join (sample_Join (chunksDir fc2) (sample_hash sample_file)) id)
  /\ exists fileID chunks fc1' st1' fc2' st2',
       ChunkFile sample_hash sample_Join 10 "in.bin" sample_chunker sample_disk
       = Some (Ok (fileID, chunks), fc1', st1')
       /\ ChunkFile sample_hash sample_Join 20 "copy.bin" fc2 st2
          = Some (Ok (fileID, chunks), fc2', st2')
       /\ fileID = sample_hash sample_file.
Proof.
  intros st2 fc2.
  assert (H1 : 0 < chunkSize sample_chunker) by reflexivity.
  assert (H2 : chunkSize fc2 = chunkSize sample_chunker) by reflexivity.
  assert (H3 : sample_disk !! "in.bin" = Some sample_file) by reflexivity.
  assert (H4 : st2 !! "copy.bin" = Some sample_file) by reflexivity.
  assert (H5 : (length sample_file < 10)%nat) by (simpl; lia).
  assert (H6 : (length sample_file < 20)%nat) by (simpl; lia).
  assert (H8 : forall id, "copy.bin" ≠
            sample_Join (sample_Join (chunksDir fc2) (sample_hash sample_file)) id)
    by (intros id; discriminate).
  split; [exact H1|]. split; [exact H2|]. split; [exact H3|]. split; [exact H4|].
  split; [exact H5|]. split; [exact H6|]. split; [exact sample_outside_in|].
  split; [exact H8|].
  exact (split_content_addressed sample_hash sample_Join 10 20 "in.bin" "copy.bin"
           sample_file sample_chunker fc2 sample_disk st2
           H1 H2 H3 H4 H5 H6 sample_outside_in H8).
Defined.

Lemma split_twice_same_disk_witness :
  sample_disk !! "in.bin" = Some sample_file
  /\ (forall id, "in.bin" ≠
        sample_Join (sample_Join (chunksDir sample_chunker)
                                 (sample_hash sample_file)) id)
  /\ 0 < chunkSize sample_chunker
  /\ (length sample_file < 10)%nat
  /\ exists fileID chunks fc1 st1 fc2,
       ChunkFile sample_hash sample_Join 10 "in.bin" sample_chunker sample_disk
       = Some (Ok (fileID, chunks), fc1, st1)
       /\ ChunkFile sample_hash sample_Join 10 "in.bin" fc1 st1
          = Some (Ok (fileID, chunks), fc2, st1)
       /\ st1 !! "in.bin" = Some sample_file.
Proof.
  assert (H1 : sample_disk !! "in.bin" = Some sample_file) by reflexivity.
  assert (H3 : 0 < chunkSize sample_chunker) by reflexivity.
  assert (H4 : (length sample_file < 10)%nat) by (simpl; lia).
  split; [exact H1|]. split; [exact sample_outside_in|].
  split; [exact H3|]. split; [exact H4|].
  exact (split_twice_same_disk sample_hash sample_Join 10 "in.bin" sample_file
           sample_chunker sample_disk H1 sample_outside_in H3 H4).
Defined.




(** X19. Whatever chunk size is asked of [NewFileChunker] (zero, negative,
    or above the maximum), the chunker it builds has a chunk size in
    (0, 1MiB]: the size asked when that is in range, 64KiB when it is not
    positive, 1MiB when it is too large.  With such a chunker [ChunkFile]
    returns on every file, and no chunk has more than 1MiB. *)
Theorem NewFileChunker_clamps
    (sha256_hex : list byte -> string) (filepath_Join : string -> string -> string)
    (chunksDir requested : _) (fuel : nat) (filePath : string) (F : list byte)
    (st : disk) :
  let fc := NewFileChunker chunksDir requested in
  st !! filePath = Some F ->
  (forall id, filePath ≠
     filepath_Join (filepath_Join chunksDir (sha256_hex F)) id) ->
  (length F < fuel)%nat ->
  chunkSize fc
  = (if requested <=? 0 then DefaultChunkSize else Z.min requested MaxChunkSize)
  /\ 0 < chunkSize fc <= MaxChunkSize
  /\ exists chunks fc' st',
       ChunkFile sha256_hex filepath_Join fuel filePath fc st
       = Some (Ok (sha256_hex F, chunks), fc', st')
       /\ Forall (fun c => 0 < Size c <= MaxChunkSize) chunks.
Proof.
  intros fc Hst Hpath Hfuel.
  pose proof (NewFileChunker_chunkSize chunksDir requested) as Hrange. fold fc in Hrange.
  split; [|split; [done|]].
  - unfold fc, NewFileChunker, DefaultChunkSize, MaxChunkSize. cbn [chunkSize].
    destruct (Z.leb_spec requested 0);
      repeat match goal with |- context [?a >? ?b] => destruct (Z.gtb_spec a b) end;
      lia.
  - eexists _, _, _. split; [apply ChunkFile_spec; (done || lia)|].
    apply Forall_forall. intros c Hc.
    apply list_elem_of_lookup in Hc as [i Hi].
    apply chunk_infos_lookup in Hi as (p & Hp & ->). cbn [Size].
    apply list_elem_of_lookup_2 in Hp.
    pose proof (pieces_length (length F) (Z.to_nat (chunkSize fc)) F ltac:(lia))
      as Hall.
    pose proof (proj1 (Forall_forall _ _) Hall p Hp) as Hlen. cbn beta in Hlen. lia.
Qed.

Lemma NewFileChunker_clamps_witness :
  let fc := NewFileChunker "chunks" (-5) in
  sample_disk !! "in.bin" = Some sample_file
  /\ (forall id, "in.bin" ≠
        sample_Join (sample_Join "chunks" (sample_hash sample_file)) id)
  /\ (length sample_file < 10)%nat
  /\ chunkSize fc = 65536
  /\ exists chunks fc' st',
       ChunkFile sample_hash sample_Join 10 "in.bin" fc sample_disk
       = Some (Ok (sample_hash sample_file, chunks), fc', st')
       /\ Forall (fun c => 0 < Size c <= MaxChunkSize) chunks.
Proof.
  intros fc.
  assert (H1 : sample_disk !! "in.bin" = Some sample_file) by reflexivity.
  assert (H3 : (length sample_file < 10)%nat) by (simpl; lia).
  split; [exact H1|]. split; [exact sample_outside_in|]. split; [exact H3|].
  destruct (NewFileChunker_clamps sample_hash sample_Join "chunks" (-5) 10 "in.bin"
              sample_file sample_disk H1 sample_outside_in H3) as (Hsize & _ & Hrun).
  split; [exact Hsize|exact Hrun].
Defined.

Section Frame.

Variable filepath_Join : string -> string -> string.

Lemma write_chunks_frame dir out path : forall sortedChunks (st : disk),
  path ≠ out ->
  (write_chunks filepath_Join dir out sortedChunks st).2 !! path = st !! path.
Proof.
  induction sortedChunks as [|[c|] sortedChunks IH]; intros st Hne; [done| |done].
  cbn [write_chunks]. destruct (st !! filepath_Join dir (ID c)); [|done].
  rewrite IH by done. unfold file_Write. by rewrite lookup_insert_ne.
Qed.

Lemma write_chunks_output dir out : forall sortedChunks (st : disk),
  is_Some (st !! out) ->
  is_Some ((write_chunks filepath_Join dir out sortedChunks st).2 !! out).
Proof.
  induction sortedChunks as [|[c|] sortedChunks IH]; intros st Hs; [done| |done].
  cbn [write_chunks]. destruct (st !! filepath_Join dir (ID c)); [|done].
  apply IH. unfold file_Write. rewrite lookup_insert_eq. by eexists.
Qed.

Lemma place_chunks_error n : forall chunks sortedChunks msg,
  place_chunks n chunks sortedChunks = Err msg -> msg = err_invalid_index.
Proof.
  induction chunks as [|c chunks IH]; intros sortedChunks msg; cbn [place_chunks];
    [by intros [=]|].
  destruct (_ || _); [by intros [= <-]|]. apply IH.
Qed.

Lemma write_chunks_error dir out : forall sortedChunks (st : disk) msg,
  (write_chunks filepath_Join dir out sortedChunks st).1 = Err msg ->
  msg = err_read_chunk.
Proof.
  induction sortedChunks as [|[c|] sortedChunks IH]; intros st msg;
    cbn [write_chunks]; [by intros [=]| |by intros [=]].
  destruct (st !! filepath_Join dir (ID c)); [apply IH|by intros [= <-]].
Qed.

(** X16. Whatever chunks it is given and however it ends, [ReassembleFile]
    changes nothing on the disk but the output file.  When [os.Create]
    fails it returns that error, which it returns in no other case, and the
    disk is as it was; when [os.Create] succeeds the output file is there
    when the function returns, and it is empty when the indices are
    refused. *)
Theorem ReassembleFile_frame os_Create fileID chunks outputPath fc (st : disk) :
  let out :=
    ReassembleFile_from_create filepath_Join os_Create fileID chunks outputPath
                               fc st in
  (forall path, path ≠ outputPath -> out.2 !! path = st !! path)
  /\ (os_Create outputPath = false -> out = (Err err_create, st))
  /\ (out.1 = Err err_create -> os_Create outputPath = false)
  /\ (os_Create outputPath = true -> is_Some (out.2 !! outputPath))
  /\ (out.1 = Err err_invalid_index -> out.2 !! outputPath = Some []).
Proof.
  unfold ReassembleFile_from_create.
  destruct (os_Create outputPath); cbn zeta; [|by repeat split].
  unfold ReassembleFile.
  destruct (place_chunks _ chunks _) as [sorted|msg|msg] eqn:Hplace; cbn zeta.
  - split; [|split; [done|split; [|split]]].
    + intros path Hne. rewrite write_chunks_frame by done.
      by rewrite lookup_insert_ne.
    + by intros Herr%write_chunks_error.
    + intros _. apply write_chunks_output. rewrite lookup_insert_eq. by eexists.
    + intros Herr. by apply write_chunks_never_invalid_index in Herr.
  - apply place_chunks_error in Hplace as ->. cbn.
    split; [|split; [done|split; [done|split]]].
    + intros path Hne. by rewrite lookup_insert_ne.
    + intros _. rewrite lookup_insert_eq. by eexists.
    + intros _. apply lookup_insert_eq.
  - cbn. split; [|split; [done|split; [done|split; [|done]]]].
    + intros path Hne. by rewrite lookup_insert_ne.
    + intros _. rewrite lookup_insert_eq. by eexists.
Qed.

End Frame.

End ChunkStoreMoreProps.

(** ** Overlay: frames on the wire, whole streams, connecting and disconnecting *)

Module OverlayMoreProps.
Import Registry Overlay OverlayMore OverlayProps.

(** *** The length prefix *)

Lemma byte_val_byte_of v : byte_val (byte_of v) = Z.land v 255.
Proof.
  unfold byte_val, byte_of.
  assert (Hr : 0 <= Z.land v 255 < 256).
  { change 255 with (Z.ones 8). rewrite Z.land_ones by lia.
    apply Z.mod_pos_bound. lia. }
  destruct (Byte.of_N (Z.to_N (Z.land v 255))) as [b|] eqn:E.
  - apply Byte.to_of_N in E. simpl. rewrite E. lia.
  - apply Byte.of_N_None_iff in E. lia.
Qed.

Lemma testbit_255 i : 0 <= i -> Z.testbit 255 i = (i <? 8).
Proof. intros Hi. change 255 with (Z.ones 8). by apply Z.testbit_ones_nonneg. Qed.

(** A bit of one byte of [v], moved to its place. *)
Lemma testbit_byte_at v k i :
  0 <= k -> 0 <= i ->
  Z.testbit (Z.shiftl (Z.land (Z.shiftr v k) 255) k) i
  = Z.testbit v i && (k <=? i) && (i <? k + 8).
Proof.
  intros Hk Hi. rewrite Z.shiftl_spec by lia.
  destruct (Z.leb_spec k i) as [Hle|Hlt].
  - rewrite Z.land_spec, Z.shiftr_spec, testbit_255 by lia.
    replace (i - k + k) with i by lia.
    destruct (Z.ltb_spec (i - k) 8), (Z.ltb_spec i (k + 8)); try lia;
      by rewrite ?andb_true_r, ?andb_false_r.
  - rewrite Z.testbit_neg_r by lia. by rewrite andb_false_r.
Qed.

Lemma Uint32_PutUint32 v : 0 <= v < 2 ^ 32 -> Uint32 (PutUint32 v) = v.
Proof.
  intros Hv. unfold Uint32, PutUint32. rewrite !byte_val_byte_of.
  rewrite <- (Z.shiftl_0_r (Z.land v 255)).
  rewrite <- (Z.shiftr_0_r v) at 4.
  apply Z.bits_inj'. intros i Hi.
  rewrite !Z.lor_spec, !testbit_byte_at by lia.
  destruct (Z.lt_ge_cases i 32) as [Hlt|Hge].
  - destruct (Z.testbit v i); [|done]. cbn [andb].
    destruct (Z.leb_spec 24 i), (Z.leb_spec 16 i), (Z.leb_spec 8 i),
      (Z.leb_spec 0 i), (Z.ltb_spec i (24 + 8)), (Z.ltb_spec i (16 + 8)),
      (Z.ltb_spec i (8 + 8)), (Z.ltb_spec i (0 + 8)); try lia; done.
  - assert (Hz : Z.testbit v i = false).
    { destruct (decide (v = 0)) as [->|Hnz]; [apply Z.testbit_0_l|].
      apply Z.bits_above_log2; [lia|].
      apply Z.lt_le_trans with 32; [|done]. apply Z.log2_lt_pow2; lia. }
    by rewrite Hz.
Qed.

(** *** Sending *)

(** X20. [Send] to a peer with no connection or an inactive peer fails and
    writes nothing.  Otherwise, on a connection that takes the writes, it
    puts on the wire four bytes and the data, and these four bytes are the
    big-endian length of the data, so that what is on the wire is a frame
    the read loop takes off a stream as that same data. *)
Theorem Send_writes_a_frame (pr : Peer) (data : list byte) (w : Wire) :
  (Conn pr = None \/ IsActive pr = false -> Send pr data w = (Err err_closed, w))
  /\ (is_Some (Conn pr) -> IsActive pr = true -> writes_left w = None ->
      Z.of_nat (length data) < 2 ^ 32 ->
      exists lenBuf,
        Send pr data w = (Ok tt, mkWire (sent w ++ lenBuf ++ data) None)
        /\ framed lenBuf data
        /\ forall rest,
             ReadFull 4 (mkSocket (lenBuf ++ data ++ rest) false)
             = (Some lenBuf, mkSocket (data ++ rest) false)
             /\ ReadFull (Z.to_nat (Uint32 lenBuf)) (mkSocket (data ++ rest) false)
                = (Some data, mkSocket rest false)).
Proof.
  unfold Send. split.
  - intros [Hc|Ha].
    + rewrite Hc. by rewrite bool_decide_eq_false_2 by (by intros [? ?]).
    + rewrite Ha. by rewrite orb_true_r.
  - intros Hc Ha Hw Hlen. rewrite bool_decide_eq_true_2, Ha by done. cbn [negb orb].
    unfold Write. rewrite Hw. cbn [writes_left sent].
    exists (PutUint32 (uint32 (Z.of_nat (length data)))).
    assert (Hframed : framed (PutUint32 (uint32 (Z.of_nat (length data)))) data).
    { split; [done|]. unfold uint32. rewrite Z.mod_small by lia.
      apply Uint32_PutUint32. lia. }
    split; [by rewrite <- app_assoc|]. split; [done|].
    intros rest. destruct Hframed as [H4 Hval]. split.
    + rewrite <- H4. apply ReadFull_prefix.
    + rewrite Hval, Nat2Z.id. apply ReadFull_prefix.
Qed.

(** *** Whole streams *)

Section Streams.

Variable World : Type.
Variable DecodeMessage : list byte -> option Message.
Variable handlers : Z -> option (MessageHandler World).
Variable clock : nat -> Z.

Lemma deliver_with_inbound rest envelope (st : conn_state World) :
  deliver DecodeMessage handlers clock envelope (with_inbound rest st)
  = with_inbound rest (deliver DecodeMessage handlers clock envelope st).
Proof.
  unfold deliver, with_inbound. cbn [peer world log iteration sock].
  destruct (DecodeMessage envelope) as [msg|]; [|done].
  destruct (handlers (Type_ msg)) as [h|]; [|done].
  by destruct (h _ msg (world st)) as [[pr w] err].
Qed.

Lemma foldl_deliver_with_inbound rest (frames : list (list byte * list byte)) :
  forall st : conn_state World,
    foldl (fun st f => deliver DecodeMessage handlers clock f.2 st)
          (with_inbound rest st) frames
    = with_inbound rest
        (foldl (fun st f => deliver DecodeMessage handlers clock f.2 st) st frames).
Proof.
  induction frames as [|f frames IH]; intros st; [done|].
  cbn [foldl]. by rewrite deliver_with_inbound, IH.
Qed.

(** An iteration on a well-framed frame delivers its envelope. *)
Lemma read_iteration_deliver (st : conn_state World)
    (lenBuf envelope rest : list byte) :
  closed (sock st) = false ->
  inbound (sock st) = lenBuf ++ envelope ++ rest ->
  framed lenBuf envelope ->
  read_iteration DecodeMessage handlers clock st
  = (Continue,
     with_inbound rest (deliver DecodeMessage handlers clock envelope st)).
Proof.
  intros Hopen Hin Hf. unfold read_iteration.
  destruct (read_frame World st lenBuf envelope rest Hopen Hin Hf) as [-> ->].
  unfold deliver, with_inbound.
  destruct (DecodeMessage envelope) as [msg|]; [|done].
  destruct (handlers (Type_ msg)) as [h|]; [|done].
  by destruct (h _ msg (world st)) as [[pr w] err].
Qed.

Lemma handleConnection_frames (frames : list (list byte * list byte)) :
  forall (st : conn_state World) (rest : list byte) (fuel : nat),
    closed (sock st) = false ->
    inbound (sock st) = stream_of frames ++ rest ->
    Forall (fun f => framed f.1 f.2) frames ->
    handleConnection DecodeMessage handlers clock (length frames + fuel) st
    = handleConnection DecodeMessage handlers clock fuel
        (with_inbound rest
           (foldl (fun st f => deliver DecodeMessage handlers clock f.2 st)
                  st frames)).
Proof.
  induction frames as [|[lenBuf envelope] frames IH];
    intros st rest fuel Hopen Hin Hall.
  - cbn [length foldl Nat.add]. f_equal.
    destruct st as [pr [inb cl] w l k]. cbn in *. by subst.
  - apply Forall_cons in Hall as [Hf Hall]. cbn [length Nat.add handleConnection].
    unfold stream_of in Hin. cbn [fmap list_fmap concat fst snd] in Hin.
    rewrite <- !app_assoc in Hin.
    rewrite (read_iteration_deliver st lenBuf envelope _ Hopen Hin Hf).
    rewrite (IH _ rest); [|done|done|done].
    cbn [foldl snd]. rewrite foldl_deliver_with_inbound. f_equal.
Qed.

(** X21. On a stream made of well-framed frames and nothing else, the loop
    delivers every envelope once, in the order of the stream: the ones that
    decode to their handlers, the others to the log.  It then finds the end
    of the stream and returns without a read error in the log, the peer
    being marked inactive and the connection closed. *)
Theorem handleConnection_whole_stream
    (frames : list (list byte * list byte)) (st : conn_state World) (fuel : nat) :
  closed (sock st) = false ->
  inbound (sock st) = stream_of frames ->
  Forall (fun f => framed f.1 f.2) frames ->
  (length frames < fuel)%nat ->
  handleConnection DecodeMessage handlers clock fuel st
  = Some (on_return
            (at_eof (foldl (fun st f => deliver DecodeMessage handlers clock f.2 st)
                           st frames))).
Proof.
  intros Hopen Hin Hall Hfuel.
  replace fuel with (length frames + S (fuel - S (length frames)))%nat by lia.
  rewrite (handleConnection_frames frames st []);
    [|done|by rewrite app_nil_r|done].
  reflexivity.
Qed.

Lemma read_iteration_log (st st' : conn_state World) c :
  read_iteration DecodeMessage handlers clock st = (c, st') ->
  exists lines, log st' = log st ++ lines.
Proof.
  unfold read_iteration.
  destruct (ReadFull 4 (sock st)) as [[lenBuf|] s].
  - destruct (ReadFull _ s) as [[msgBuf|] s'].
    + destruct (DecodeMessage msgBuf) as [msg|]; [|intros [= <- <-]; by eexists].
      destruct (handlers (Type_ msg)) as [h|]; [|intros [= <- <-]; by eexists].
      destruct (h _ msg (world st)) as [[pr w] [e|]]; intros [= <- <-];
        [by eexists|]. exists []. cbn. by rewrite app_nil_r.
    + intros [= <- <-]. by eexists.
  - destruct (negb _ && _); intros [= <- <-]; [|by eexists].
    exists []. cbn. by rewrite app_nil_r.
Qed.

(** X22. Whatever bytes come in, the loop returns: every iteration that
    goes on has taken at least four bytes off the stream.  When it returns
    the peer is inactive, its connection is closed, and the log is the log
    it started with and what it added. *)
Theorem handleConnection_always_returns : forall (fuel : nat) (st : conn_state World),
  (length (inbound (sock st)) < fuel)%nat ->
  exists final lines,
    handleConnection DecodeMessage handlers clock fuel st = Some final
    /\ IsActive (peer final) = false
    /\ (is_Some (Conn (peer final)) -> closed (sock final) = true)
    /\ log final = log st ++ lines.
Proof.
  induction fuel as [|fuel IH]; intros st Hfuel; [lia|].
  cbn [handleConnection].
  destruct (read_iteration DecodeMessage handlers clock st) as [[|] st'] eqn:Hit.
  - pose proof (read_iteration_consumes World _ _ _ _ _ Hit) as Hless.
    destruct (read_iteration_log _ _ _ Hit) as [l1 Hl1].
    destruct (IH st' ltac:(lia)) as (final & l2 & Hrun & Hinactive & Hclosed & Hlog).
    exists final, (l1 ++ l2). split; [done|]. split; [done|]. split; [done|].
    by rewrite Hlog, Hl1, <- app_assoc.
  - destruct (read_iteration_log _ _ _ Hit) as [l1 Hl1].
    exists (on_return st'), l1. split; [done|]. split; [done|]. split; [|done].
    unfold on_return. cbn. intros [c Hc]. by rewrite Hc.
Qed.

End Streams.

Lemma handleConnection_whole_stream_witness :
  let frames := [([x00; x00; x00; x01], [x00]);
                 ([x00; x00; x00; x02], [x7b; x7b]);
                 ([x00; x00; x00; x01], [x00])]%byte in
  let st : conn_state (list Message) :=
    mkConnState sample_peer (mkSocket (stream_of frames) false) [] [] 0 in
  closed (sock st) = false
  /\ inbound (sock st) = stream_of frames
  /\ Forall (fun f => framed f.1 f.2) frames
  /\ (length frames < 4)%nat
  /\ handleConnection sample_Decode sample_handlers Z.of_nat 4 st
     = Some (on_return
               (at_eof (foldl (fun st f => deliver sample_Decode sample_handlers
                                             Z.of_nat f.2 st) st frames))).
Proof.
  intros frames st.
  assert (H1 : closed (sock st) = false) by reflexivity.
  assert (H2 : inbound (sock st) = stream_of frames) by reflexivity.
  assert (H3 : Forall (fun f => framed f.1 f.2) frames)
    by (repeat constructor).
  assert (H4 : (length frames < 4)%nat) by (simpl; lia).
  split; [exact H1|]. split; [exact H2|]. split; [exact H3|]. split; [exact H4|].
  exact (handleConnection_whole_stream (list Message) sample_Decode sample_handlers
           Z.of_nat frames st 4 H1 H2 H3 H4).
Defined.

Lemma handleConnection_always_returns_witness :
  let st : conn_state (list Message) :=
    mkConnState sample_peer (mkSocket [x00; x00; x00; x09; x7b]%byte false)
                [] [] 0 in
  (length (inbound (sock st)) < 6)%nat
  /\ exists final lines,
       handleConnection sample_Decode sample_handlers Z.of_nat 6 st = Some final
       /\ IsActive (peer final) = false
       /\ (is_Some (Conn (peer final)) -> closed (sock final) = true)
       /\ log final = log st ++ lines.
Proof.
  intros st.
  assert (H : (length (inbound (sock st)) < 6)%nat) by (simpl; lia).
  split; [exact H|].
  exact (handleConnection_always_returns (list Message) sample_Decode
           sample_handlers Z.of_nat 6 st H).
Defined.

(** *** Disconnecting and connecting *)

Section Peers.

Variable range_order : forall A, gmap string A -> list (string * A).
Hypothesis range_order_perm : RangeOrder range_order.

Lemma visited_peer (p : P2PNetwork) (pr : Peer) :
  pr ∈ snd <$> range_order Peer (peers p) <->
  exists address, peers p !! address = Some pr.
Proof.
  rewrite (range_order_perm Peer (peers p)). rewrite list_elem_of_fmap. split.
  - intros ([address pr'] & -> & Hin). exists address.
    by apply elem_of_map_to_list in Hin.
  - intros [address Hpr]. exists (address, pr). split; [done|].
    by apply elem_of_map_to_list.
Qed.

(** X23. Disconnecting a peer id that some peer has succeeds: one peer with
    that id is taken out of the map and its connection is closed, every
    other peer stays as it was.  The peers are filed under their
    addresses. *)
Theorem disconnect_known_peer (peerID : string) (p : P2PNetwork) :
  keyed_by_address p ->
  (exists address pr, peers p !! address = Some pr /\ Overlay.ID pr = peerID) ->
  exists pr,
    peers p !! Overlay.Address pr = Some pr
    /\ Overlay.ID pr = peerID
    /\ DisconnectPeer range_order peerID p
       = (Ok tt,
          {| peers := delete (Overlay.Address pr) (peers p);
             sockets := match Conn pr with
                        | Some c => alter Close c (sockets p)
                        | None => sockets p
                        end |})
    /\ (forall address, address ≠ Overlay.Address pr ->
          delete (Overlay.Address pr) (peers p) !! address = peers p !! address)
    /\ size (peers p) = S (size (delete (Overlay.Address pr) (peers p))).
Proof.
  intros Hkeyed (address & pr0 & Hpr0 & Hid0). unfold DisconnectPeer.
  destruct (List.find _ _) as [pr|] eqn:Hfind.
  - apply List.find_some in Hfind as [Hin Hid].
    apply list_elem_of_In, visited_peer in Hin as [a Ha].
    rewrite <- (Hkeyed _ _ Ha) in Ha. apply String.eqb_eq in Hid.
    exists pr. split; [done|]. split; [done|]. split; [done|]. split.
    + intros a' Hne. by rewrite lookup_delete_ne.
    + rewrite <- (insert_delete_id (peers p) _ _ Ha) at 1.
      apply map_size_insert_None, lookup_delete_eq.
  - exfalso. pose proof (List.find_none _ _ Hfind pr0) as Hnone.
    rewrite String.eqb_neq in Hnone. apply Hnone; [|done].
    apply list_elem_of_In, visited_peer. eauto.
Qed.

End Peers.

Lemma disconnect_known_peer_witness :
  RangeOrder (fun A m => map_to_list m)
  /\ keyed_by_address sample_network
  /\ (exists address pr,
        peers sample_network !! address = Some pr /\ Overlay.ID pr = "")
  /\ exists pr,
       peers sample_network !! Overlay.Address pr = Some pr
       /\ Overlay.ID pr = ""
       /\ DisconnectPeer (fun A m => map_to_list m) "" sample_network
          = (Ok tt,
             {| peers := delete (Overlay.Address pr) (peers sample_network);
                sockets := match Conn pr with
                           | Some c => alter Close c (sockets sample_network)
                           | None => sockets sample_network
                           end |}).
Proof.
  assert (H2 : keyed_by_address sample_network).
  { intros address pr Hpr. simpl in Hpr.
    by apply lookup_singleton_Some in Hpr as [<- <-]. }
  assert (H3 : exists address pr,
             peers sample_network !! address = Some pr /\ Overlay.ID pr = "").
  { exists "10.0.0.2:9000", sample_peer. split; reflexivity. }
  split; [exact RangeOrder_map_to_list|]. split; [exact H2|]. split; [exact H3|].
  destruct (disconnect_known_peer (fun A m => map_to_list m) RangeOrder_map_to_list
              "" sample_network H2 H3) as (pr & Ha & Hid & Hd & _).
  exists pr. split; [exact Ha|]. split; [exact Hid|exact Hd].
Defined.

Section Connect.

Variable range_order : forall A, gmap string A -> list (string * A).
Variable url_Parse : string -> bool.
Variable net_DialTimeout : string -> option nat.

(** X24. [ConnectToPeer] is idempotent on an address that has an active
    peer: it returns that peer, dials nothing and changes nothing.  With no
    active peer at the address it dials; if the dial fails nothing changes,
    and if it succeeds the new peer, active and with no id, replaces the
    entry of the address, the other peers stay, and the address is
    registered under the empty node id with capacity 0. *)
Theorem ConnectToPeer_idempotent now now' address (o : Overlay) :
  RangeOrder range_order ->
  keyed_by_address (network o) ->
  (forall pr, peers (network o) !! address = Some pr -> IsActive pr = true ->
     ConnectToPeer range_order url_Parse net_DialTimeout now now' address o
     = (Ok pr, o))
  /\ ((forall pr, peers (network o) !! address = Some pr -> IsActive pr = false) ->
      match net_DialTimeout address with
      | None =>
          ConnectToPeer range_order url_Parse net_DialTimeout now now' address o
          = (Err err_dial, o)
      | Some conn =>
          let pr := mkPeer "" address (Some conn) now true in
          ConnectToPeer range_order url_Parse net_DialTimeout now now' address o
          = (Ok pr,
             mkOverlay
               (mkP2PNetwork (<[address := pr]> (peers (network o)))
                             (sockets (network o)))
               (RegisterNode url_Parse now' "" address 0 (nodeManager o)).2)
      end).
Proof.
  intros Hord Hkeyed. unfold ConnectToPeer. split.
  - intros pr Hpr Hactive.
    destruct (List.find _ _) as [found|] eqn:Hfind.
    + apply List.find_some in Hfind as [Hin Htest].
      apply list_elem_of_In, (visited_peer _ Hord) in Hin as [a Ha].
      apply andb_true_iff in Htest as [Haddr _]. apply String.eqb_eq in Haddr.
      rewrite (Hkeyed _ _ Ha) in Haddr. subst a. congruence.
    + exfalso. pose proof (List.find_none _ _ Hfind pr) as Hnone.
      cbn beta in Hnone.
      rewrite (Hkeyed _ _ Hpr), String.eqb_refl, Hactive in Hnone.
      assert (Hin : In pr (snd <$> range_order Peer (peers (network o)))).
      { apply list_elem_of_In, (visited_peer _ Hord). eauto. }
      by specialize (Hnone Hin).
  - intros Hinactive.
    destruct (List.find _ _) as [found|] eqn:Hfind.
    + exfalso. apply List.find_some in Hfind as [Hin Htest].
      apply list_elem_of_In, (visited_peer _ Hord) in Hin as [a Ha].
      apply andb_true_iff in Htest as [Haddr Hact]. apply String.eqb_eq in Haddr.
      rewrite (Hkeyed _ _ Ha) in Haddr. subst a.
      rewrite (Hinactive _ Ha) in Hact. done.
    + by destruct (net_DialTimeout address).
Qed.

Lemma ConnectToPeer_invariant now now' address (o : Overlay) :
  let o' := (ConnectToPeer range_order url_Parse net_DialTimeout now now'
               address o).2 in
  (keyed_by_address (network o) -> keyed_by_address (network o'))
  /\ ((forall a pr, peers (network o) !! a = Some pr -> Overlay.ID pr = "") ->
      forall a pr, peers (network o') !! a = Some pr -> Overlay.ID pr = "")
  /\ ((forall id, is_Some (nodes (nodeManager o) !! id) -> id = "") ->
      forall id, is_Some (nodes (nodeManager o') !! id) -> id = "").
Proof.
  cbv zeta. unfold ConnectToPeer.
  destruct (List.find _ _) as [found|]; [done|].
  destruct (net_DialTimeout address) as [conn|]; [|done].
  cbn [snd network nodeManager peers]. split; [|split].
  - intros Hk a pr. cbn [network peers]. rewrite lookup_insert.
    case_decide as Ha.
    + by intros [= <-].
    + apply Hk.
  - intros Hid a pr. cbn [network peers]. rewrite lookup_insert.
    case_decide as Ha.
    + by intros [= <-].
    + apply Hid.
  - intros Hn id. cbn [Overlay.ID].
    destruct (RegisterNode url_Parse now' "" address 0 (nodeManager o))
      as [[node|msg|msg] nm'] eqn:Hreg; cbn [snd].
    + apply RegistryProps.RegisterNode_ok in Hreg as (_ & _ & _ & -> & _).
      rewrite lookup_insert. case_decide as Hid; [done|]. apply Hn.
    + unfold RegisterNode in Hreg. repeat case_match; simplify_eq; apply Hn.
    + unfold RegisterNode in Hreg. repeat case_match; simplify_eq.
Qed.

(** X25. However many peers [ConnectToPeer] connects, all of them have the
    empty id and all are registered under the empty node id: the node
    registry never holds more than one node for them. *)
Theorem connects_register_one_node (addresses : list (Z * Z * string)) :
  let o := after_connects range_order url_Parse net_DialTimeout addresses in
  (forall id, is_Some (nodes (nodeManager o) !! id) -> id = "")
  /\ (size (nodes (nodeManager o)) <= 1)%nat
  /\ keyed_by_address (network o)
  /\ (forall address pr, peers (network o) !! address = Some pr ->
        Overlay.ID pr = "").
Proof.
  intros o.
  assert (Hinv : keyed_by_address (network o)
                 /\ (forall a pr, peers (network o) !! a = Some pr ->
                       Overlay.ID pr = "")
                 /\ (forall id, is_Some (nodes (nodeManager o) !! id) -> id = "")).
  { subst o. unfold after_connects.
    set (start := mkOverlay (mkP2PNetwork ∅ ∅) NewNodeManager).
    assert (Hstart : keyed_by_address (network start)
                     /\ (forall a pr, peers (network start) !! a = Some pr ->
                           Overlay.ID pr = "")
                     /\ (forall id, is_Some (nodes (nodeManager start) !! id) ->
                           id = "")).
    { split; [|split].
      - intros a pr H. cbn in H. by rewrite lookup_empty in H.
      - intros a pr H. cbn in H. by rewrite lookup_empty in H.
      - intros id [n H]. cbn in H. by rewrite lookup_empty in H. }
    clearbody start. revert start Hstart.
    induction addresses as [|[[now now'] a] addresses IH];
      intros start Hstart; [done|].
    cbn [foldl]. apply IH. cbn [fst snd].
    destruct (ConnectToPeer_invariant now now' a start) as (H1 & H2 & H3).
    destruct Hstart as (Ha & Hb & Hc).
    split; [by apply H1|]. split; [by apply H2|by apply H3]. }
  destruct Hinv as (Hk & Hid & Hn). split; [done|]. split; [|done].
  destruct (decide (size (nodes (nodeManager o)) <= 1)%nat) as [|Hbig]; [done|].
  exfalso.
  destruct (map_to_list (nodes (nodeManager o))) as [|[k1 n1] [|[k2 n2] l]] eqn:El.
  - rewrite <- length_map_to_list, El in Hbig. simpl in Hbig. lia.
  - rewrite <- length_map_to_list, El in Hbig. simpl in Hbig. lia.
  - pose proof (NoDup_fst_map_to_list (nodes (nodeManager o))) as Hnd.
    rewrite El in Hnd. cbn in Hnd.
    assert (H1 : k1 = "").
    { apply Hn. exists n1. apply elem_of_map_to_list. rewrite El. by left. }
    assert (H2 : k2 = "").
    { apply Hn. exists n2. apply elem_of_map_to_list. rewrite El. right. by left. }
    subst. apply NoDup_cons in Hnd as [Hnot _]. apply Hnot. by left.
Qed.

(** X26. In an overlay whose peers were all connected by [ConnectToPeer],
    disconnecting by a peer id that is not empty always fails with
    NotFound and changes nothing: no peer has such an id. *)
Theorem disconnect_by_id_never_finds (addresses : list (Z * Z * string))
    (peerID : string) :
  RangeOrder range_order ->
  peerID ≠ "" ->
  let o := after_connects range_order url_Parse net_DialTimeout addresses in
  DisconnectPeer range_order peerID (network o)
  = (Err err_peer_not_found, network o).
Proof.
  intros Hord Hne o. unfold DisconnectPeer.
  rewrite find_no_match; [done|].
  apply Forall_forall. intros pr Hpr.
  apply (visited_peer _ Hord) in Hpr as [a Ha].
  destruct (connects_register_one_node addresses) as (_ & _ & _ & Hid).
  fold o in Hid. by rewrite (Hid _ _ Ha).
Qed.

End Connect.

Lemma ConnectToPeer_idempotent_witness :
  let o := after_connects (fun A m => map_to_list m) sample_url_Parse sample_Dial
             [(1, 2, "10.0.0.2:9000")] in
  let pr := mkPeer "" "10.0.0.2:9000" (Some 13%nat) 1 true in
  RangeOrder (fun A m => map_to_list m)
  /\ keyed_by_address (network o)
  /\ peers (network o) !! "10.0.0.2:9000" = Some pr
  /\ IsActive pr = true
  /\ ConnectToPeer (fun A m => map_to_list m) sample_url_Parse sample_Dial 5 6
       "10.0.0.2:9000" o
     = (Ok pr, o).
Proof.
  intros o pr.
  assert (H2 : keyed_by_address (network o)).
  { exact (proj1 (proj2 (proj2 (connects_register_one_node
                                  (fun A m => map_to_list m) sample_url_Parse
                                  sample_Dial [(1, 2, "10.0.0.2:9000")])))). }
  assert (H3 : peers (network o) !! "10.0.0.2:9000" = Some pr) by reflexivity.
  assert (H4 : IsActive pr = true) by reflexivity.
  split; [exact RangeOrder_map_to_list|]. split; [exact H2|].
  split; [exact H3|]. split; [exact H4|].
  exact (proj1 (ConnectToPeer_idempotent (fun A m => map_to_list m)
                  sample_url_Parse sample_Dial 5 6 "10.0.0.2:9000" o
                  RangeOrder_map_to_list H2) pr H3 H4).
Defined.

Lemma disconnect_by_id_never_finds_witness :
  RangeOrder (fun A m => map_to_list m)
  /\ "node-7" ≠ ""
  /\ (let o := after_connects (fun A m => map_to_list m) sample_url_Parse
                 sample_Dial [(1, 2, "10.0.0.2:9000"); (3, 4, "10.0.0.3:9000")] in
      DisconnectPeer (fun A m => map_to_list m) "node-7" (network o)
      = (Err err_peer_not_found, network o)).
Proof.
  assert (H2 : "node-7" ≠ "") by discriminate.
  split; [exact RangeOrder_map_to_list|]. split; [exact H2|].
  exact (disconnect_by_id_never_finds (fun A m => map_to_list m) sample_url_Parse
           sample_Dial [(1, 2, "10.0.0.2:9000"); (3, 4, "10.0.0.3:9000")]
           "node-7" RangeOrder_map_to_list H2).
Defined.

End OverlayMoreProps.

Module DFSMoreProps.
Import DFS DFSMore.

Section Files.

(** The file system as the calls of [SetReplicationFactor], [MoveFile] and
    [DeleteFile] find it, and [os_Stat'] as a later [GetFileInfo] finds it. *)
Variable os_Stat : string -> option StatInfo.
Variable os_Stat' : string -> option StatInfo.
Variable os_ReadDir : string -> option (list string).
Variable os_Remove : string -> bool.
Variable os_MkdirAll : string -> bool.
Variable os_Rename : string -> string -> bool.
Variable filepath_Join : string -> string -> string.
Variable filepath_Base : string -> string.
Variable filepath_Dir : string -> string.

Lemma SetReplicationFactor_cached filePath replicas dfs dfs1 :
  SetReplicationFactor os_Stat filepath_Join filepath_Base filePath replicas dfs
  = (Ok tt, dfs1) ->
  rootDir dfs1 = rootDir dfs
  /\ (exists info, fileInfo dfs1 !! filePath = Some info
                   /\ Replicas info = replicas)
  /\ (forall other, other ≠ filePath ->
        fileInfo dfs1 !! other = fileInfo dfs !! other).
Proof.
  unfold SetReplicationFactor.
  destruct (replicas <? 1); [by intros [=]|].
  destruct (os_Stat (filepath_Join (rootDir dfs) filePath)) as [st|];
    [|by intros [=]].
  destruct (fileInfo dfs !! filePath) as [info|]; intros [= <-];
    cbn [fileInfo rootDir]; rewrite lookup_insert_eq;
    (split; [done|]; split; [by eexists|];
     intros other Hne; by rewrite lookup_insert_ne).
Qed.

(** X27. The replication factor set on a file follows it when the file is
    moved to another path: after a successful [SetReplicationFactor] and a
    successful [MoveFile], [GetFileInfo] of the new path answers from the
    cache, whatever the file system says by then, with that factor and the
    new path and name; the old path is no longer cached, and the entries of
    all other paths are as they were. *)
Theorem replication_factor_follows_move
    sourcePath destPath replicas dfs dfs1 dfs2 :
  sourcePath ≠ destPath ->
  SetReplicationFactor os_Stat filepath_Join filepath_Base
    sourcePath replicas dfs = (Ok tt, dfs1) ->
  MoveFile os_Stat os_MkdirAll os_Rename filepath_Join filepath_Base
    filepath_Dir sourcePath destPath dfs1 = (Ok tt, dfs2) ->
  (exists info,
     GetFileInfo os_Stat' filepath_Join filepath_Base destPath dfs2
     = (Ok info, dfs2)
     /\ Replicas info = replicas
     /\ Path info = destPath
     /\ Name info = filepath_Base destPath)
  /\ fileInfo dfs2 !! sourcePath = None
  /\ (forall other, other ≠ sourcePath -> other ≠ destPath ->
        fileInfo dfs2 !! other = fileInfo dfs !! other).
Proof.
  intros Hne Hset Hmove.
  destruct (SetReplicationFactor_cached _ _ _ _ Hset)
    as (_ & (info & Hinfo & Hrep) & Hframe).
  revert Hmove. unfold MoveFile, GetFileInfo.
  destruct (os_Stat (filepath_Join (rootDir dfs1) sourcePath)); [|by intros [=]].
  destruct (os_MkdirAll _); [|by intros [=]].
  destruct (os_Rename _ _); [|by intros [=]].
  cbn [negb]. rewrite Hinfo. intros [= <-]. cbn [fileInfo rootDir].
  split; [|split].
  - rewrite lookup_delete_ne, lookup_insert_eq by done. by eexists.
  - apply lookup_delete_eq.
  - intros other H1 H2.
    rewrite lookup_delete_ne, lookup_insert_ne by done. by apply Hframe.
Qed.

(** X28. Moving a file onto its own path forgets what the cache knew of it:
    when [MoveFile] succeeds with the same source and destination, the path
    is no longer cached, so that a replication factor set before is lost
    and a later [GetFileInfo] of a file that is still there reports one
    replica. *)
Theorem move_onto_itself_forgets_replication path replicas dfs dfs1 dfs2 :
  SetReplicationFactor os_Stat filepath_Join filepath_Base
    path replicas dfs = (Ok tt, dfs1) ->
  MoveFile os_Stat os_MkdirAll os_Rename filepath_Join filepath_Base
    filepath_Dir path path dfs1 = (Ok tt, dfs2) ->
  fileInfo dfs2 !! path = None
  /\ (is_Some (os_Stat' (filepath_Join (rootDir dfs2) path)) ->
      exists info dfs3,
        GetFileInfo os_Stat' filepath_Join filepath_Base path dfs2
        = (Ok info, dfs3)
        /\ Replicas info = 1).
Proof.
  intros Hset Hmove.
  destruct (SetReplicationFactor_cached _ _ _ _ Hset)
    as (_ & (info & Hinfo & Hrep) & _).
  assert (fileInfo dfs2 !! path = None) as Hgone.
  { revert Hmove. unfold MoveFile.
    destruct (os_Stat (filepath_Join (rootDir dfs1) path)); [|by intros [=]].
    destruct (os_MkdirAll _); [|by intros [=]].
    destruct (os_Rename _ _); [|by intros [=]].
    cbn [negb]. rewrite Hinfo. intros [= <-]. cbn [fileInfo].
    apply lookup_delete_eq. }
  split; [done|]. intros [st Hst]. unfold GetFileInfo.
  rewrite Hgone, Hst. by do 2 eexists.
Qed.

(** X29. [DeleteFile] and the cache.  A call that fails changes nothing.  A
    call succeeds only if [os.Stat] finds the path, [os.Remove] succeeds
    and, for a directory, [os.ReadDir] lists no entry; it then drops the
    path from the cache and leaves every other cached entry alone, so that
    a later [GetFileInfo] of the path is answered by the file system alone:
    an error when the file is gone. *)
Theorem DeleteFile_drops_cache_entry path dfs res dfs' :
  DeleteFile os_Stat os_ReadDir os_Remove filepath_Join path dfs = (res, dfs') ->
  match res with
  | Ok _ =>
      (exists st,
         os_Stat (filepath_Join (rootDir dfs) path) = Some st
         /\ os_Remove (filepath_Join (rootDir dfs) path) = true
         /\ (statIsDir st = true ->
             os_ReadDir (filepath_Join (rootDir dfs) path) = Some []))
      /\ rootDir dfs' = rootDir dfs
      /\ fileInfo dfs' !! path = None
      /\ (forall other, other ≠ path ->
            fileInfo dfs' !! other = fileInfo dfs !! other)
      /\ (os_Stat' (filepath_Join (rootDir dfs') path) = None ->
          GetFileInfo os_Stat' filepath_Join filepath_Base path dfs'
          = (Err err_stat, dfs'))
  | _ => dfs' = dfs
  end.
Proof.
  unfold DeleteFile.
  destruct (os_Stat (filepath_Join (rootDir dfs) path)) as [st|] eqn:Hst;
    [|by intros [= <- <-]].
  assert (forall entries,
            (statIsDir st = true ->
             os_ReadDir (filepath_Join (rootDir dfs) path) = Some entries) ->
            entries = [] ->
            (if os_Remove (filepath_Join (rootDir dfs) path)
             then (Ok tt, mkDistributedFileSystem (rootDir dfs)
                            (delete path (fileInfo dfs)))
             else (Err err_remove, dfs)) = (res, dfs') ->
            match res with
            | Ok _ =>
                (exists st0,
                   Some st = Some st0
                   /\ os_Remove (filepath_Join (rootDir dfs) path) = true
                   /\ (statIsDir st0 = true ->
                       os_ReadDir (filepath_Join (rootDir dfs) path) = Some []))
                /\ rootDir dfs' = rootDir dfs
                /\ fileInfo dfs' !! path = None
                /\ (forall other, other ≠ path ->
                      fileInfo dfs' !! other = fileInfo dfs !! other)
                /\ (os_Stat' (filepath_Join (rootDir dfs') path) = None ->
                    GetFileInfo os_Stat' filepath_Join filepath_Base path dfs'
                    = (Err err_stat, dfs'))
            | _ => dfs' = dfs
            end) as Hremove.
  { intros entries Hdir ->.
    destruct (os_Remove (filepath_Join (rootDir dfs) path)) eqn:Hrm;
      intros [= <- <-]; [|done].
    cbn [fileInfo rootDir].
    split; [by exists st|]. split; [done|].
    split; [apply lookup_delete_eq|].
    split; [intros other Hne; by rewrite lookup_delete_ne|].
    intros Hgone. unfold GetFileInfo. cbn [fileInfo rootDir].
    by rewrite lookup_delete_eq, Hgone. }
  destruct (statIsDir st) eqn:Hd.
  - destruct (os_ReadDir (filepath_Join (rootDir dfs) path)) as [entries|];
      [|by intros [= <- <-]].
    destruct entries as [|e entries]; [|by intros [= <- <-]].
    cbn [length Nat.ltb Nat.leb]. by apply (Hremove []).
  - by apply (Hremove []).
Qed.

End Files.

Lemma replication_factor_follows_move_witness :
  let stat := sample_Stat in
  let gone := fun _ : string => @None StatInfo in
  let yes := fun _ : string => true in
  let dfs1 :=
    mkDistributedFileSystem "./data"
      {[ "report.txt" := mkFileInfo "report.txt" "report.txt" 2500 false 7 3 true ]} in
  let dfs2 :=
    mkDistributedFileSystem "./data"
      {[ "old/report.txt" :=
           mkFileInfo "old/report.txt" "old/report.txt" 2500 false 7 3 true ]} in
  ("report.txt" ≠ "old/report.txt"
   /\ SetReplicationFactor stat ChunkStore.sample_Join id "report.txt" 3 sample_dfs
      = (Ok tt, dfs1)
   /\ MoveFile stat yes (fun _ => yes) ChunkStore.sample_Join id id
        "report.txt" "old/report.txt" dfs1 = (Ok tt, dfs2))
  /\ (exists info,
        GetFileInfo gone ChunkStore.sample_Join id "old/report.txt" dfs2
        = (Ok info, dfs2)
        /\ Replicas info = 3
        /\ Path info = "old/report.txt"
        /\ Name info = id "old/report.txt").
Proof.
  intros stat gone yes dfs1 dfs2.
  assert ("report.txt" ≠ "old/report.txt") as H0 by discriminate.
  assert (SetReplicationFactor stat ChunkStore.sample_Join id "report.txt" 3
            sample_dfs = (Ok tt, dfs1)) as H1 by (vm_compute; reflexivity).
  assert (MoveFile stat yes (fun _ => yes) ChunkStore.sample_Join id id
            "report.txt" "old/report.txt" dfs1 = (Ok tt, dfs2)) as H2
    by (vm_compute; reflexivity).
  split; [by repeat split|].
  exact (proj1 (replication_factor_follows_move stat gone yes (fun _ => yes)
                  ChunkStore.sample_Join id id _ _ _ _ _ _ H0 H1 H2)).
Defined.

Lemma move_onto_itself_forgets_replication_witness :
  let stat := sample_Stat in
  let yes := fun _ : string => true in
  let dfs1 :=
    mkDistributedFileSystem "./data"
      {[ "report.txt" := mkFileInfo "report.txt" "report.txt" 2500 false 7 3 true ]} in
  let dfs2 := mkDistributedFileSystem "./data" ∅ in
  (SetReplicationFactor stat ChunkStore.sample_Join id "report.txt" 3 sample_dfs
   = (Ok tt, dfs1)
   /\ MoveFile stat yes (fun _ => yes) ChunkStore.sample_Join id id
        "report.txt" "report.txt" dfs1 = (Ok tt, dfs2)
   /\ is_Some (stat (ChunkStore.sample_Join (rootDir dfs2) "report.txt")))
  /\ exists info dfs3,
       GetFileInfo stat ChunkStore.sample_Join id "report.txt" dfs2
       = (Ok info, dfs3)
       /\ Replicas info = 1.
Proof.
  intros stat yes dfs1 dfs2.
  assert (SetReplicationFactor stat ChunkStore.sample_Join id "report.txt" 3
            sample_dfs = (Ok tt, dfs1)) as H1 by (vm_compute; reflexivity).
  assert (MoveFile stat yes (fun _ => yes) ChunkStore.sample_Join id id
            "report.txt" "report.txt" dfs1 = (Ok tt, dfs2)) as H2
    by (vm_compute; reflexivity).
  assert (is_Some (stat (ChunkStore.sample_Join (rootDir dfs2) "report.txt")))
    as H3 by (vm_compute; eauto).
  split; [by repeat split|].
  exact (proj2 (move_onto_itself_forgets_replication stat stat yes (fun _ => yes)
                  ChunkStore.sample_Join id id _ _ _ _ _ H1 H2) H3).
Defined.

Lemma DeleteFile_drops_cache_entry_witness :
  let stat := sample_Stat in
  let gone := fun _ : string => @None StatInfo in
  let dfs :=
    mkDistributedFileSystem "./data"
      {[ "report.txt" := mkFileInfo "report.txt" "report.txt" 2500 false 7 3 true ]} in
  let dfs' := mkDistributedFileSystem "./data" ∅ in
  DeleteFile stat (fun _ => None) (fun _ => true) ChunkStore.sample_Join
    "report.txt" dfs = (Ok tt, dfs')
  /\ fileInfo dfs' !! "report.txt" = None
  /\ GetFileInfo gone ChunkStore.sample_Join id "report.txt" dfs'
     = (Err err_stat, dfs').
Proof.
  intros stat gone dfs dfs'.
  assert (DeleteFile stat (fun _ => None) (fun _ => true) ChunkStore.sample_Join
            "report.txt" dfs = (Ok tt, dfs')) as H1 by (vm_compute; reflexivity).
  split; [exact H1|].
  destruct (DeleteFile_drops_cache_entry stat gone (fun _ => None)
              (fun _ => true) ChunkStore.sample_Join id _ _ _ _ H1)
    as (_ & _ & Hnone & _ & Hget).
  split; [exact Hnone|]. by apply Hget.
Defined.

End DFSMoreProps.

Module OverlayBroadcastProps.
Import Overlay OverlayMore OverlayBroadcast.

Section Broadcast.

Variable range_order : forall A, gmap string A -> list (string * A).
Variable EncodeMessage : Message -> option (list byte).
Hypothesis range_order_ok : RangeOrder range_order.

Lemma broadcast_list msg (l : list Peer) (wires : gmap nat Wire) (c : nat) :
  NoDup (omap Conn l) ->
  let wires' :=
    foldl (fun wires pr =>
             if IsActive pr
             then match EncodeMessage msg with
                  | None => wires
                  | Some encodedMsg => send_to pr encodedMsg wires
                  end
             else wires) wires l in
  (forall pr, pr ∈ l -> Conn pr = Some c ->
     wires' !! c = on_wire EncodeMessage msg pr <$> wires !! c)
  /\ (c ∉ omap Conn l -> wires' !! c = wires !! c).
Proof.
  revert wires. induction l as [|pr0 l IH]; intros wires Hnd; cbn zeta.
  { split; [by intros pr ?%elem_of_nil|done]. }
  cbn [foldl].
  set (step := if IsActive pr0
               then match EncodeMessage msg with
                    | None => wires
                    | Some encodedMsg => send_to pr0 encodedMsg wires
                    end
               else wires).
  assert (Hhead : Conn pr0 = Some c ->
                    step !! c = on_wire EncodeMessage msg pr0 <$> wires !! c).
  { intros Hc. unfold step, on_wire, send_to. rewrite Hc.
    destruct (IsActive pr0); [|by destruct (wires !! c)].
    destruct (EncodeMessage msg); [|by destruct (wires !! c)].
    by rewrite lookup_alter_eq. }
  assert (Hother : Conn pr0 ≠ Some c -> step !! c = wires !! c).
  { intros Hc. unfold step, send_to.
    destruct (IsActive pr0); [|done].
    destruct (EncodeMessage msg); [|done].
    destruct (Conn pr0) as [c0|]; [|done].
    rewrite lookup_alter_ne; [done|]. intros ->. by apply Hc. }
  assert (Hnd' : NoDup (omap Conn l)).
  { cbn [omap list_omap] in Hnd. destruct (Conn pr0); [|done].
    by apply NoDup_cons in Hnd as [_ ?]. }
  destruct (IH step Hnd') as [IH1 IH2]. split.
  - intros pr [->|Hin]%elem_of_cons Hc.
    + rewrite IH2; [by apply Hhead|].
      cbn [omap list_omap] in Hnd. rewrite Hc in Hnd.
      by apply NoDup_cons in Hnd as [? _].
    + rewrite (IH1 pr Hin Hc), Hother; [done|].
      intros Hc0. cbn [omap list_omap] in Hnd. rewrite Hc0 in Hnd.
      apply NoDup_cons in Hnd as [Hnotin _]. apply Hnotin.
      apply list_elem_of_omap. by exists pr.
  - intros Hnotin. rewrite IH2, Hother; [done| |].
    + intros Hc0. apply Hnotin. cbn [omap list_omap]. rewrite Hc0. left.
    + intros Hin. apply Hnotin. cbn [omap list_omap].
      destruct (Conn pr0); [by right|done].
Qed.

(** X30. A broadcast is best effort, peer by peer.  When no two peers share
    a connection, [BroadcastMessage] does to the connection of each peer
    what one [Send] of the encoded message to that peer does, in whatever
    order the peers are visited and whatever happens on the connections of
    the others: an active peer on a connection that takes the writes gets
    the encoded message once, behind its length; an inactive peer gets
    nothing; and a connection that belongs to no peer is not written to. *)
Theorem BroadcastMessage_peer_by_peer msg p (wires : gmap nat Wire) :
  distinct_connections p ->
  (forall address pr c,
     peers p !! address = Some pr -> Conn pr = Some c ->
     BroadcastMessage range_order EncodeMessage msg p wires !! c
     = on_wire EncodeMessage msg pr <$> wires !! c)
  /\ (forall address pr c w encodedMsg,
        peers p !! address = Some pr -> Conn pr = Some c ->
        wires !! c = Some w -> EncodeMessage msg = Some encodedMsg ->
        (IsActive pr = true -> writes_left w = None ->
         BroadcastMessage range_order EncodeMessage msg p wires !! c
         = Some (mkWire (sent w
                         ++ PutUint32 (uint32 (Z.of_nat (length encodedMsg)))
                         ++ encodedMsg) None))
        /\ (IsActive pr = false ->
            BroadcastMessage range_order EncodeMessage msg p wires !! c
            = Some w))
  /\ (forall c,
        (forall address pr, peers p !! address = Some pr -> Conn pr ≠ Some c) ->
        BroadcastMessage range_order EncodeMessage msg p wires !! c
        = wires !! c).
Proof.
  intros Hdist. unfold BroadcastMessage.
  pose proof (range_order_ok Peer (peers p)) as Hperm.
  assert (Hnd : NoDup (omap Conn (snd <$> range_order Peer (peers p)))).
  { unfold distinct_connections in Hdist. by rewrite Hperm. }
  assert (Hin : forall address pr,
            peers p !! address = Some pr ->
            pr ∈ snd <$> range_order Peer (peers p)).
  { intros address pr Hpr. rewrite Hperm. apply list_elem_of_fmap.
    exists (address, pr). split; [done|]. by apply elem_of_map_to_list. }
  assert (Hall : forall address pr c,
            peers p !! address = Some pr -> Conn pr = Some c ->
            BroadcastMessage range_order EncodeMessage msg p wires !! c
            = on_wire EncodeMessage msg pr <$> wires !! c).
  { intros address pr c Hpr Hc.
    apply (proj1 (broadcast_list msg _ wires c Hnd) pr); [by eapply Hin|done]. }
  split; [exact Hall|]. split.
  - intros address pr c w encodedMsg Hpr Hc Hw Henc.
    pose proof (Hall address pr c Hpr Hc) as H.
    unfold BroadcastMessage in H. rewrite H, Hw. cbn [fmap option_fmap option_map].
    unfold on_wire. rewrite Henc. split.
    + intros Ha Hnf. rewrite Ha. unfold Send.
      rewrite bool_decide_eq_true_2, Ha by (by rewrite Hc). cbn [negb orb].
      unfold Write. rewrite Hnf. cbn [writes_left sent snd].
      by rewrite <- app_assoc.
    + by intros ->.
  - intros c Hnone.
    apply (proj2 (broadcast_list msg _ wires c Hnd)).
    intros (pr & Hpr & Hc)%list_elem_of_omap.
    rewrite Hperm in Hpr. apply list_elem_of_fmap in Hpr as ([address pr'] & -> & Hpr).
    apply elem_of_map_to_list in Hpr. by apply (Hnone address pr').
Qed.

End Broadcast.

Lemma two_peers_distinct : distinct_connections two_peers.
Proof. apply (bool_decide_unpack _). vm_compute. reflexivity. Qed.

Lemma BroadcastMessage_peer_by_peer_witness :
  let order := fun A (m : gmap string A) => map_to_list m in
  let encode := fun msg : Message => Some (Payload msg) in
  let msg := mkMessage 1 [x61; x62] in
  let wires' := BroadcastMessage order encode msg two_peers two_wires in
  (RangeOrder order /\ distinct_connections two_peers)
  /\ wires' !! 1%nat
     = Some (mkWire (PutUint32 2 ++ [x61; x62]) None)
  /\ wires' !! 2%nat = Some (mkWire [] (Some 0%nat))
  /\ wires' !! 3%nat = None.
Proof.
  intros order encode msg wires'. subst wires'.
  assert (RangeOrder order) as H1 by (intros A m; reflexivity).
  pose proof two_peers_distinct as H2.
  split; [by split|].
  destruct (BroadcastMessage_peer_by_peer order encode H1 msg two_peers
              two_wires H2) as (Hall & Hsent & Hframe).
  split; [|split].
  - apply (proj1 (Hsent "10.0.0.2:9000" _ 1%nat (mkWire [] None) _
                    eq_refl eq_refl eq_refl eq_refl)); reflexivity.
  - rewrite (Hall "10.0.0.3:9000" _ 2%nat eq_refl eq_refl). reflexivity.
  - rewrite Hframe; [reflexivity|].
    intros address pr.
    destruct (decide (address = "10.0.0.2:9000")) as [->|Hne1].
    { by intros [= <-]. }
    destruct (decide (address = "10.0.0.3:9000")) as [->|Hne2].
    { by intros [= <-]. }
    unfold two_peers. cbn [peers].
    rewrite lookup_insert_ne, lookup_singleton_ne by done. by intros [=].
Defined.

End OverlayBroadcastProps.
